(** * dro::MPMC_Queue (include/dro/mpmc-queue.hpp): a shallow embedding

    The bounded multi-producer / multi-consumer ring of
    [include/dro/mpmc-queue.hpp].  [std::size_t] is a 64-bit unsigned
    integer, modelled as [Z] with the wrap-around written out; the slot
    array is a list updated by index; every atomic access of a member
    function is one step of a small machine, so that a call can be run
    alone (sequentially) or interleaved with the writes of other threads. *)

From Stdlib Require Import ZArith Lia List Bool Sorted.
From stdpp Require Import base numbers list.

Local Open Scope Z_scope.

(** ** Machine integers *)

(** [std::numeric_limits<std::size_t>::max()] *)
Definition MAX_SIZE_T : Z := 2 ^ 64 - 1.

(** Arithmetic on [std::size_t] is modulo [2^64]. *)
Definition wrap (x : Z) : Z := x mod 2 ^ 64.

(** Conversion of a [std::size_t] to [std::ptrdiff_t] (two's complement). *)
Definition to_ptrdiff (x : Z) : Z :=
  let y := wrap x in if y <? 2 ^ 63 then y else y - 2 ^ 64.

(** ** The element type

    [concept MPMC_Type]: the element type is default constructible
    ([T_default] is the value of [T data_ {}]) and copy- or move-assignable.
    [T_moved_from x] is the state in which [T]'s assignment operator leaves
    its source operand when that operand is the rvalue [std::move(x)]: the
    identity for scalars and for copy-only types, the null pointer for
    [std::unique_ptr]. *)
Class MPMC_Type (T : Type) := {
  T_default : T;
  T_moved_from : T -> T
}.

(** [int] and the other scalar element types. *)
#[export] Instance MPMC_Type_Z : MPMC_Type Z := {| T_default := 0; T_moved_from := fun x => x |}.

(** A move-only owner such as [std::unique_ptr<int>]: [None] is the null
    pointer, which is also what a moved-from owner holds. *)
#[export] Instance MPMC_Type_owner : MPMC_Type (option Z) :=
  {| T_default := None; T_moved_from := fun _ => None |}.

(** ** struct Slot *)
Module Slot.

Record t (T : Type) : Type := mk { data_ : T; turn : Z }.
Arguments mk {T} _ _.
Arguments data_ {T} _.
Arguments turn {T} _.

(** [Slot() = default] with [T data_ {}] and [turn {0}]. *)
Definition init {T} `{MPMC_Type T} : t T := mk T_default 0.

(** [assign_value]: all four overloads end in [data_ = <the new value>]. *)
Definition assign_value {T} (val : T) (s : t T) : t T := mk val (turn s).

(** [return_value]: returns a reference to [data_] ([T&] for copy-only
    types, [T&&] otherwise); the slot it is called on is returned next to
    the value. *)
Definition return_value {T} (s : t T) : T * t T := (data_ s, s).

(** The source operand of [val = slot.return_value()] after the
    assignment has run. *)
Definition moved_out {T} `{MPMC_Type T} (s : t T) : t T := mk (T_moved_from (data_ s)) (turn s).

(** [turn.store(x, std::memory_order_release)] *)
Definition store_turn {T} (x : Z) (s : t T) : t T := mk (data_ s) x.

(** [destroy()]: one run of [~T()] on [data_]; the result lists the objects
    a destructor has run on. *)
Definition destroy {T} (s : t T) : list T := [data_ s].

(** The body of [~Slot()]: [if (turn.load(acquire) & 1) destroy();]. *)
Definition dtor_body {T} (s : t T) : list T :=
  if negb (Z.land (turn s) 1 =? 0) then destroy s else [].

(** [~Slot()] as a whole.  [data_] is an ordinary non-static data member,
    so after the body has run the language destroys the members in reverse
    order of declaration: [turn] (trivial) and then [data_], one more run of
    [~T()]. *)
Definition dtor {T} (s : t T) : list T := dtor_body s ++ [data_ s].

End Slot.

(** ** class MPMC_Queue *)
Module MPMC_Queue.

(** [buffer_] lists the [capacity_] slots that the constructor builds; the
    one extra slot it allocates is never constructed nor indexed. *)
Record t (T : Type) : Type := mk {
  capacity_ : Z;
  buffer_ : list (Slot.t T);
  tail_ : Z;
  head_ : Z
}.
Arguments mk {T} _ _ _ _.
Arguments capacity_ {T} _.
Arguments buffer_ {T} _.
Arguments tail_ {T} _.
Arguments head_ {T} _.

(** [turn(index)]: [index / capacity_] *)
Definition turn {T} (q : t T) (index : Z) : Z := index / capacity_ q.

(** [buffer_[i]]; an index outside the array is undefined behaviour in the
    source and reads a fresh slot here ([slot_in_range] below shows that the
    member functions never leave the array). *)
Definition slot {T} `{MPMC_Type T} (q : t T) (i : Z) : Slot.t T :=
  default Slot.init (buffer_ q !! Z.to_nat i).

Definition set_slot {T} (q : t T) (i : Z) (s : Slot.t T) : t T :=
  mk (capacity_ q) (<[Z.to_nat i := s]> (buffer_ q)) (tail_ q) (head_ q).

Definition set_head {T} (q : t T) (h : Z) : t T :=
  mk (capacity_ q) (buffer_ q) (tail_ q) h.

Definition set_tail {T} (q : t T) (x : Z) : t T :=
  mk (capacity_ q) (buffer_ q) x (head_ q).

(** What the constructor can throw. *)
Inductive ctor_error : Type :=
| logic_error_capacity   (* std::logic_error("Capacity must be positive") *)
| bad_alloc.             (* thrown by [allocator_.allocate] *)

(** The constructor.  [allocate n] tells whether the allocator hands out
    room for [n] slots. *)
Definition ctor {T} `{MPMC_Type T} (allocate : Z -> bool) (capacity : Z)
  : ctor_error + t T :=
  if capacity <? 1 then inl logic_error_capacity
  else
    let capacity_ := if capacity =? MAX_SIZE_T then MAX_SIZE_T - 1 else capacity in
    if allocate (wrap (capacity_ + 1)) then
      inr (mk capacity_ (replicate (Z.to_nat capacity_) Slot.init) 0 0)
    else inl bad_alloc.

(** The loop of the destructor, [for (size_t i {}; i < capacity_; ++i)
    { buffer_[i].~Slot(); }], with [n] rounds to go from index [i];
    [slot_dtor] is what runs on each slot.  The result pairs every run of
    [~T()] with the index of its slot. *)
Fixpoint dtor_loop {T} (slot_dtor : Slot.t T -> list T) (n i : nat)
  (buffer : list (Slot.t T)) : list (nat * T) :=
  match n with
  | O => []
  | S n' =>
      match buffer !! i with
      | Some s => map (pair i) (slot_dtor s)
      | None => []
      end ++ dtor_loop slot_dtor n' (S i) buffer
  end.

(** [~MPMC_Queue()]; the deallocation that follows the loop runs no
    destructor. *)
Definition dtor {T} (q : t T) : list (nat * T) :=
  dtor_loop Slot.dtor (Z.to_nat (capacity_ q)) 0 (buffer_ q).

(** The explicit [destroy()] calls among them. *)
Definition dtor_explicit {T} (q : t T) : list (nat * T) :=
  dtor_loop Slot.dtor_body (Z.to_nat (capacity_ q)) 0 (buffer_ q).

(** [size()] *)
Definition size {T} (q : t T) : Z :=
  let tail := tail_ q in
  let head := head_ q in
  let maxToTail := wrap (MAX_SIZE_T - tail) in
  let headToTail := to_ptrdiff (wrap (head - tail)) in
  (* the comparison converts [std::abs(headToTail)] to [std::size_t]; both
     arms of the conditional have type [std::size_t] and the result is
     converted to [std::ptrdiff_t] *)
  if maxToTail <? wrap (Z.abs headToTail)
  then to_ptrdiff (wrap (maxToTail + head))
  else to_ptrdiff (wrap headToTail).

(** [empty()] *)
Definition empty {T} (q : t T) : bool := size q <=? 0.

(** [capacity()] *)
Definition capacity {T} (q : t T) : Z := capacity_ q.

(** *** Calls in progress

    A call of a member function is a small machine: a state is a program
    point together with the locals that are live there, and one step
    performs the next atomic access.  [run] lets a call proceed alone until
    it returns ([None]: it is still spinning when the fuel is used up);
    [exec] lets the other threads act on the queue after every step. *)
Section Run.
Context {T St : Type} (step : St -> t T -> St * t T) (returned : St -> bool).

Fixpoint run (fuel : nat) (s : St) (q : t T) : option (St * t T) :=
  if returned s then Some (s, q)
  else match fuel with
       | O => None
       | S n => let '(s', q') := step s q in run n s' q'
       end.

Fixpoint exec (envs : list (t T -> t T)) (s : St) (q : t T) : St * t T :=
  match envs with
  | [] => (s, q)
  | e :: es => let '(s', q') := step s q in exec es s' (e q')
  end.

End Run.

(** What the other threads have done to the queue during [exec]. *)
Definition interference {T} (envs : list (t T -> t T)) (q : t T) : t T :=
  fold_left (fun q e => e q) envs q.

Section Calls.
Context {T : Type} `{MPMC_Type T}.

(** **** emplace (lines 166-175) *)
Inductive emplace_pc : Type :=
| EM_fetch_add                   (* 170 *)
| EM_spin (head : Z)             (* 172 *)
| EM_assign (head : Z)           (* 173 *)
| EM_store (head : Z)            (* 174 *)
| EM_ret (head : Z).

Definition emplace_step (v : T) (s : emplace_pc) (q : t T) : emplace_pc * t T :=
  match s with
  | EM_fetch_add =>
      let head := head_ q in (EM_spin head, set_head q (wrap (head + 1)))
  | EM_spin head =>
      if negb (wrap (turn q head * 2) =? Slot.turn (slot q (head mod capacity_ q)))
      then (EM_spin head, q) else (EM_assign head, q)
  | EM_assign head =>
      let i := head mod capacity_ q in
      (EM_store head, set_slot q i (Slot.assign_value v (slot q i)))
  | EM_store head =>
      let i := head mod capacity_ q in
      (EM_ret head, set_slot q i (Slot.store_turn (wrap (turn q head * 2 + 1)) (slot q i)))
  | EM_ret head => (s, q)
  end.

Definition emplace_returned (s : emplace_pc) : bool :=
  match s with EM_ret _ => true | _ => false end.

(** **** try_emplace (lines 177-205) *)
Inductive try_emplace_pc : Type :=
| TE_load                        (* 182 *)
| TE_check (head : Z)            (* 185-186 *)
| TE_cas (head : Z)              (* 188 *)
| TE_assign (head : Z)           (* 190 *)
| TE_store (head : Z)            (* 191 *)
| TE_reread (prevHead : Z)       (* 197-199 *)
| TE_ret (head : Z) (r : bool).  (* 192, 201 *)

Definition try_emplace_step (v : T) (s : try_emplace_pc) (q : t T)
  : try_emplace_pc * t T :=
  match s with
  | TE_load => (TE_check (head_ q), q)
  | TE_check head =>
      if wrap (turn q head * 2) =? Slot.turn (slot q (head mod capacity_ q))
      then (TE_cas head, q) else (TE_reread head, q)
  | TE_cas head =>
      (* compare_exchange_strong(head, head + 1): on failure [head] is
         reloaded and the loop goes round *)
      if head_ q =? head then (TE_assign head, set_head q (wrap (head + 1)))
      else (TE_check (head_ q), q)
  | TE_assign head =>
      let i := head mod capacity_ q in
      (TE_store head, set_slot q i (Slot.assign_value v (slot q i)))
  | TE_store head =>
      let i := head mod capacity_ q in
      (TE_ret head true,
       set_slot q i (Slot.store_turn (wrap (turn q head * 2 + 1)) (slot q i)))
  | TE_reread prevHead =>
      let head := head_ q in
      if head =? prevHead then (TE_ret head false, q) else (TE_check head, q)
  | TE_ret _ _ => (s, q)
  end.

Definition try_emplace_returned (s : try_emplace_pc) : bool :=
  match s with TE_ret _ _ => true | _ => false end.

(** **** pop (lines 228-235) *)
Inductive pop_pc : Type :=
| P_fetch_add                    (* 230 *)
| P_spin (tail : Z)              (* 232 *)
| P_take (tail : Z)              (* 233 *)
| P_store (tail : Z) (val : T)   (* 234 *)
| P_ret (tail : Z) (val : T).

Definition pop_step (s : pop_pc) (q : t T) : pop_pc * t T :=
  match s with
  | P_fetch_add =>
      let tail := tail_ q in (P_spin tail, set_tail q (wrap (tail + 1)))
  | P_spin tail =>
      if negb (wrap (turn q tail * 2 + 1) =? Slot.turn (slot q (tail mod capacity_ q)))
      then (P_spin tail, q) else (P_take tail, q)
  | P_take tail =>
      let i := tail mod capacity_ q in
      let '(x, sl) := Slot.return_value (slot q i) in
      (P_store tail x, set_slot q i (Slot.moved_out sl))
  | P_store tail val =>
      let i := tail mod capacity_ q in
      (P_ret tail val,
       set_slot q i (Slot.store_turn (wrap (turn q tail * 2 + 2)) (slot q i)))
  | P_ret _ _ => (s, q)
  end.

Definition pop_returned (s : pop_pc) : bool :=
  match s with P_ret _ _ => true | _ => false end.

(** **** try_pop (lines 237-262); [val0] is what the caller's variable
    holds when the call is made *)
Inductive try_pop_pc : Type :=
| TP_load                                  (* 239 *)
| TP_check (tail : Z)                      (* 242-243 *)
| TP_cas (tail : Z)                        (* 245 *)
| TP_take (tail : Z)                       (* 247 *)
| TP_store (tail : Z) (val : T)            (* 248 *)
| TP_reread (prevTail : Z)                 (* 254-256 *)
| TP_ret (tail : Z) (r : bool) (val : T).  (* 249, 258 *)

Definition try_pop_step (val0 : T) (s : try_pop_pc) (q : t T) : try_pop_pc * t T :=
  match s with
  | TP_load => (TP_check (tail_ q), q)
  | TP_check tail =>
      if wrap (turn q tail * 2 + 1) =? Slot.turn (slot q (tail mod capacity_ q))
      then (TP_cas tail, q) else (TP_reread tail, q)
  | TP_cas tail =>
      if tail_ q =? tail then (TP_take tail, set_tail q (wrap (tail + 1)))
      else (TP_check (tail_ q), q)
  | TP_take tail =>
      let i := tail mod capacity_ q in
      let '(x, sl) := Slot.return_value (slot q i) in
      (TP_store tail x, set_slot q i (Slot.moved_out sl))
  | TP_store tail val =>
      let i := tail mod capacity_ q in
      (TP_ret tail true val,
       set_slot q i (Slot.store_turn (wrap (turn q tail * 2 + 2)) (slot q i)))
  | TP_reread prevTail =>
      let tail := tail_ q in
      if tail =? prevTail then (TP_ret tail false val0, q) else (TP_check tail, q)
  | TP_ret _ _ _ => (s, q)
  end.

Definition try_pop_returned (s : try_pop_pc) : bool :=
  match s with TP_ret _ _ _ => true | _ => false end.

(** **** The member functions called with no other thread running

    Each returns its result, the logical position it has claimed (for the
    non-blocking forms that fail: the position last looked at) and the queue
    it leaves. *)
Definition emplace (fuel : nat) (v : T) (q : t T) : option (Z * t T) :=
  match run (emplace_step v) emplace_returned fuel EM_fetch_add q with
  | Some (EM_ret head, q') => Some (head, q')
  | _ => None
  end.

Definition try_emplace (fuel : nat) (v : T) (q : t T) : option (bool * Z * t T) :=
  match run (try_emplace_step v) try_emplace_returned fuel TE_load q with
  | Some (TE_ret head r, q') => Some (r, head, q')
  | _ => None
  end.

(** [push] and [try_push] forward to [emplace] and [try_emplace]. *)
Definition push (fuel : nat) (val : T) (q : t T) : option (Z * t T) :=
  emplace fuel val q.

Definition try_push (fuel : nat) (val : T) (q : t T) : option (bool * Z * t T) :=
  try_emplace fuel val q.

Definition pop (fuel : nat) (q : t T) : option (T * Z * t T) :=
  match run pop_step pop_returned fuel P_fetch_add q with
  | Some (P_ret tail val, q') => Some (val, tail, q')
  | _ => None
  end.

Definition try_pop (fuel : nat) (val0 : T) (q : t T) : option (bool * T * Z * t T) :=
  match run (try_pop_step val0) try_pop_returned fuel TP_load q with
  | Some (TP_ret tail r val, q') => Some (r, val, tail, q')
  | _ => None
  end.

End Calls.

End MPMC_Queue.

(** ** A sequential client

    One thread that calls the member functions one after the other, as the
    first block of [tests/mpmc-queue-test.cpp] does.  The client keeps the
    variable [val] it passes to [pop] and [try_pop], and a log of what it
    has produced and consumed, each value with the logical position the call
    has claimed for it. *)
Inductive call (T : Type) : Type :=
| Emplace (v : T)
| Try_emplace (v : T)
| Push (v : T)
| Try_push (v : T)
| Pop
| Try_pop
| Size
| Empty
| Capacity.
Arguments Emplace {T} _.
Arguments Try_emplace {T} _.
Arguments Push {T} _.
Arguments Try_push {T} _.
Arguments Pop {T}.
Arguments Try_pop {T}.
Arguments Size {T}.
Arguments Empty {T}.
Arguments Capacity {T}.

(** What a call hands back: nothing, a [bool], an integer, or (for [pop]
    and [try_pop]) the [bool] together with the content of [val] after the
    call. *)
Inductive ret (T : Type) : Type :=
| ret_void
| ret_bool (b : bool)
| ret_int (n : Z)
| ret_pop (ok : bool) (val : T).
Arguments ret_void {T}.
Arguments ret_bool {T} _.
Arguments ret_int {T} _.
Arguments ret_pop {T} _ _.

Record client (T : Type) : Type := mk_client {
  queue : MPMC_Queue.t T;
  val : T;
  produced : list (Z * T);
  consumed : list (Z * T);
  returns : list (ret T)
}.
Arguments mk_client {T} _ _ _ _ _.
Arguments queue {T} _.
Arguments val {T} _.
Arguments produced {T} _.
Arguments consumed {T} _.
Arguments returns {T} _.

Section Client.
Context {T : Type} `{MPMC_Type T}.

Definition new_client (q : MPMC_Queue.t T) : client T :=
  mk_client q T_default [] [] [].

Definition produce (w : client T) (r : ret T) (p : Z) (v : T) (q : MPMC_Queue.t T) : client T :=
  mk_client q (val w) (produced w ++ [(p, v)]) (consumed w) (returns w ++ [r]).

Definition consume (w : client T) (p : Z) (v : T) (q : MPMC_Queue.t T) : client T :=
  mk_client q v (produced w) (consumed w ++ [(p, v)]) (returns w ++ [ret_pop true v]).

Definition observe (w : client T) (r : ret T) : client T :=
  mk_client (queue w) (val w) (produced w) (consumed w) (returns w ++ [r]).

(** One call; every call may take [fuel] steps. *)
Definition do_call (fuel : nat) (c : call T) (w : client T) : option (client T) :=
  match c with
  | Emplace v =>
      match MPMC_Queue.emplace fuel v (queue w) with
      | Some (p, q) => Some (produce w ret_void p v q)
      | None => None
      end
  | Push v =>
      match MPMC_Queue.push fuel v (queue w) with
      | Some (p, q) => Some (produce w ret_void p v q)
      | None => None
      end
  | Try_emplace v =>
      match MPMC_Queue.try_emplace fuel v (queue w) with
      | Some (true, p, q) => Some (produce w (ret_bool true) p v q)
      | Some (false, _, q) =>
          Some (mk_client q (val w) (produced w) (consumed w) (returns w ++ [ret_bool false]))
      | None => None
      end
  | Try_push v =>
      match MPMC_Queue.try_push fuel v (queue w) with
      | Some (true, p, q) => Some (produce w (ret_bool true) p v q)
      | Some (false, _, q) =>
          Some (mk_client q (val w) (produced w) (consumed w) (returns w ++ [ret_bool false]))
      | None => None
      end
  | Pop =>
      match MPMC_Queue.pop fuel (queue w) with
      | Some (v, p, q) => Some (consume w p v q)
      | None => None
      end
  | Try_pop =>
      match MPMC_Queue.try_pop fuel (val w) (queue w) with
      | Some (true, v, p, q) => Some (consume w p v q)
      | Some (false, v, _, q) =>
          Some (mk_client q v (produced w) (consumed w) (returns w ++ [ret_pop false v]))
      | None => None
      end
  | Size => Some (observe w (ret_int (MPMC_Queue.size (queue w))))
  | Empty => Some (observe w (ret_bool (MPMC_Queue.empty (queue w))))
  | Capacity => Some (observe w (ret_int (MPMC_Queue.capacity (queue w))))
  end.

Fixpoint do_calls (fuel : nat) (cs : list (call T)) (w : client T) : option (client T) :=
  match cs with
  | [] => Some w
  | c :: cs' =>
      match do_call fuel c w with
      | Some w' => do_calls fuel cs' w'
      | None => None
      end
  end.

End Client.

(** ** The queue of the specification

    The specification's words for the same calls: a first-in first-out
    queue of at most [c] values.  A blocking call that finds the queue full
    (for a producer) or empty (for a consumer) does not return, which is
    [None] here; the non-blocking forms report [false] instead; [size] is
    the number of values in flight as a [std::ptrdiff_t]. *)
Section Fifo.
Context {T : Type}.

Definition fifo_call (c : Z) (k : call T) (items : list T) (val : T)
  : option (ret T * list T * T) :=
  let n := Z.of_nat (length items) in
  match k with
  | Emplace v | Push v =>
      if n <? c then Some (ret_void, items ++ [v], val) else None
  | Try_emplace v | Try_push v =>
      if n <? c then Some (ret_bool true, items ++ [v], val)
      else Some (ret_bool false, items, val)
  | Pop =>
      match items with
      | x :: items' => Some (ret_pop true x, items', x)
      | [] => None
      end
  | Try_pop =>
      match items with
      | x :: items' => Some (ret_pop true x, items', x)
      | [] => Some (ret_pop false val, items, val)
      end
  | Size => Some (ret_int (to_ptrdiff n), items, val)
  | Empty => Some (ret_bool (to_ptrdiff n <=? 0), items, val)
  | Capacity => Some (ret_int c, items, val)
  end.

Fixpoint fifo_calls (c : Z) (cs : list (call T)) (items : list T) (val : T)
  : option (list (ret T)) :=
  match cs with
  | [] => Some []
  | k :: cs' =>
      match fifo_call c k items val with
      | Some (r, items', val') => option_map (cons r) (fifo_calls c cs' items' val')
      | None => None
      end
  end.

End Fifo.

(** ** Vocabulary of the statements *)
Section Vocabulary.
Context {T : Type} `{MPMC_Type T}.

(** The test of line 186 at the current [head_]: the slot of that position
    is in the empty phase of the position's round. *)
Definition writable (q : MPMC_Queue.t T) : bool :=
  let head := MPMC_Queue.head_ q in
  wrap (MPMC_Queue.turn q head * 2)
  =? Slot.turn (MPMC_Queue.slot q (head mod MPMC_Queue.capacity_ q)).

(** The test of line 243 at the current [tail_]. *)
Definition readable (q : MPMC_Queue.t T) : bool :=
  let tail := MPMC_Queue.tail_ q in
  wrap (MPMC_Queue.turn q tail * 2 + 1)
  =? Slot.turn (MPMC_Queue.slot q (tail mod MPMC_Queue.capacity_ q)).

(** The queue once a producer has claimed position [head_] and published
    [v] there (lines 170-174 and 188-191). *)
Definition written (v : T) (q : MPMC_Queue.t T) : MPMC_Queue.t T :=
  let head := MPMC_Queue.head_ q in
  MPMC_Queue.set_slot (MPMC_Queue.set_head q (wrap (head + 1)))
    (head mod MPMC_Queue.capacity_ q)
    (Slot.mk v (wrap (MPMC_Queue.turn q head * 2 + 1))).

(** The value in the slot of position [tail_]. *)
Definition front (q : MPMC_Queue.t T) : T :=
  Slot.data_ (MPMC_Queue.slot q (MPMC_Queue.tail_ q mod MPMC_Queue.capacity_ q)).

(** The queue once a consumer has claimed position [tail_] and released its
    slot (lines 230-234 and 245-248). *)
Definition taken (q : MPMC_Queue.t T) : MPMC_Queue.t T :=
  let tail := MPMC_Queue.tail_ q in
  MPMC_Queue.set_slot (MPMC_Queue.set_tail q (wrap (tail + 1)))
    (tail mod MPMC_Queue.capacity_ q)
    (Slot.mk (T_moved_from (front q)) (wrap (MPMC_Queue.turn q tail * 2 + 2))).

(** How many times [~T()] has run on the object of slot [i]. *)
Definition runs (i : nat) (log : list (nat * T)) : nat :=
  length (filter (fun e => fst e = i) log).

(** The teardown rule as the specification words it: one run of the
    destructor on a slot whose generation is odd, none on a slot whose
    generation is even. *)
Definition teardown_once_if_odd (q : MPMC_Queue.t T) : Prop :=
  forall (i : nat) (s : Slot.t T),
    MPMC_Queue.buffer_ q !! i = Some s ->
    runs i (MPMC_Queue.dtor q) = if Z.odd (Slot.turn s) then 1%nat else 0%nat.

(** A queue as the constructor shapes it: [c] slots, [1 <= c < MAX_SIZE_T]. *)
Definition wf (c : Z) (q : MPMC_Queue.t T) : Prop :=
  MPMC_Queue.capacity_ q = c /\ length (MPMC_Queue.buffer_ q) = Z.to_nat c /\
  1 <= c < MAX_SIZE_T.

(** The slots and counters between calls.  [rest] lists the values that
    have been produced and not yet consumed, oldest first, each with the
    position claimed for it: these are exactly the slots whose generation
    is odd, and they sit at the positions [tail_], [tail_ + 1], ... counted
    modulo [2^64]. *)
Record holds (c : Z) (q : MPMC_Queue.t T) (rest : list (Z * T)) : Prop := {
  holds_wf : wf c q;
  holds_tail : 0 <= MPMC_Queue.tail_ q < 2 ^ 64;
  holds_head : MPMC_Queue.head_ q = wrap (MPMC_Queue.tail_ q + Z.of_nat (length rest));
  holds_len : Z.of_nat (length rest) <= c;
  holds_full : forall (k : nat) p v,
    rest !! k = Some (p, v) ->
    p = wrap (MPMC_Queue.tail_ q + Z.of_nat k) /\
    Z.odd (Slot.turn (MPMC_Queue.slot q (p mod c))) = true /\
    Slot.data_ (MPMC_Queue.slot q (p mod c)) = v;
  holds_inj : forall k k' : nat,
    (k < k' < length rest)%nat ->
    wrap (MPMC_Queue.tail_ q + Z.of_nat k) mod c
    <> wrap (MPMC_Queue.tail_ q + Z.of_nat k') mod c;
  holds_empty : forall i,
    0 <= i < c -> Z.odd (Slot.turn (MPMC_Queue.slot q i)) = true ->
    exists k : nat, (k < length rest)%nat /\
                    i = wrap (MPMC_Queue.tail_ q + Z.of_nat k) mod c
}.

(** The client's log agrees with the queue. *)
Definition client_holds (c : Z) (w : client T) : Prop :=
  exists rest, produced w = consumed w ++ rest /\ holds c (queue w) rest.

(** The generations while the counters have not wrapped: the slot of a
    position that is produced and not consumed is in the full phase of the
    position's round, the slot of each of the next free positions in the
    empty phase of that position's round. *)
Record steady (c : Z) (q : MPMC_Queue.t T) : Prop := {
  steady_wf : wf c q;
  steady_tail : 0 <= MPMC_Queue.tail_ q <= MPMC_Queue.head_ q;
  steady_head : MPMC_Queue.head_ q <= MPMC_Queue.tail_ q + c;
  steady_max : MPMC_Queue.head_ q <= MAX_SIZE_T;
  steady_full : forall p,
    MPMC_Queue.tail_ q <= p < MPMC_Queue.head_ q ->
    Slot.turn (MPMC_Queue.slot q (p mod c)) = wrap (p / c * 2 + 1);
  steady_empty : forall p,
    MPMC_Queue.head_ q <= p < MPMC_Queue.tail_ q + c ->
    Slot.turn (MPMC_Queue.slot q (p mod c)) = wrap (p / c * 2)
}.

(** The program points of [try_emplace] before it has written anything. *)
Definition try_emplace_clean (s : MPMC_Queue.try_emplace_pc) : bool :=
  match s with
  | MPMC_Queue.TE_assign _ | MPMC_Queue.TE_store _ | MPMC_Queue.TE_ret _ true => false
  | _ => true
  end.

Definition try_pop_clean (val0 : T) (s : MPMC_Queue.try_pop_pc) : Prop :=
  match s with
  | MPMC_Queue.TP_take _ | MPMC_Queue.TP_store _ _ | MPMC_Queue.TP_ret _ true _ => False
  | MPMC_Queue.TP_ret _ false val => val = val0
  | _ => True
  end.

(** The client against the queue of the specification, while the counters
    have not wrapped: [items] are the values in flight. *)
Definition refines (c : Z) (w : client T) (items : list T) : Prop :=
  exists rest, map snd rest = items /\ holds c (queue w) rest /\ steady c (queue w).

End Vocabulary.

(** The queue of capacity one through which [k] values have passed. *)
Definition passed (k : Z) : MPMC_Queue.t Z :=
  MPMC_Queue.mk 1 [Slot.mk 0 (wrap (k * 2))] (wrap k) (wrap k).

(** ** Threads

    Several threads share one queue.  Each has a program, the calls it is
    still to make, the call it is in the middle of, its variable [val] for
    [pop] and [try_pop], and the log of what it has produced and consumed.
    A schedule names, step by step, the thread that performs its next atomic
    access, as in the threads of [tests/mpmc-queue-test.cpp] and
    [examples/mpmc-queue-example.cpp]. *)
Section Threads.
Context {T : Type} `{MPMC_Type T}.

Inductive activity : Type :=
| Idle
| In_emplace (v : T) (s : MPMC_Queue.emplace_pc)
| In_try_emplace (v : T) (s : MPMC_Queue.try_emplace_pc)
| In_pop (s : @MPMC_Queue.pop_pc T)
| In_try_pop (val0 : T) (s : @MPMC_Queue.try_pop_pc T).

Record thread : Type := mk_thread {
  doing : activity;
  todo : list (call T);
  t_val : T;
  t_produced : list (Z * T);
  t_consumed : list (Z * T)
}.

(** The next call of the program is entered ([size], [empty] and
    [capacity] only load). *)
Definition enter (th : thread) : thread :=
  match todo th with
  | [] => th
  | k :: cs =>
      let a := match k with
               | Emplace v | Push v => In_emplace v MPMC_Queue.EM_fetch_add
               | Try_emplace v | Try_push v => In_try_emplace v MPMC_Queue.TE_load
               | Pop => In_pop MPMC_Queue.P_fetch_add
               | Try_pop => In_try_pop (t_val th) MPMC_Queue.TP_load
               | Size | Empty | Capacity => Idle
               end in
      mk_thread a cs (t_val th) (t_produced th) (t_consumed th)
  end.

(** One step of a thread: it enters its next call, performs the next atomic
    access of the call it is in, or leaves a call that has returned and
    notes what the call has produced or consumed. *)
Definition thread_step (th : thread) (q : MPMC_Queue.t T) : thread * MPMC_Queue.t T :=
  let set a := mk_thread a (todo th) (t_val th) (t_produced th) (t_consumed th) in
  match doing th with
  | Idle => (enter th, q)
  | In_emplace v (MPMC_Queue.EM_ret p) =>
      (mk_thread Idle (todo th) (t_val th) (t_produced th ++ [(p, v)]) (t_consumed th), q)
  | In_emplace v s =>
      let '(s', q') := MPMC_Queue.emplace_step v s q in (set (In_emplace v s'), q')
  | In_try_emplace v (MPMC_Queue.TE_ret p true) =>
      (mk_thread Idle (todo th) (t_val th) (t_produced th ++ [(p, v)]) (t_consumed th), q)
  | In_try_emplace v (MPMC_Queue.TE_ret p false) => (set Idle, q)
  | In_try_emplace v s =>
      let '(s', q') := MPMC_Queue.try_emplace_step v s q in (set (In_try_emplace v s'), q')
  | In_pop (MPMC_Queue.P_ret p x) =>
      (mk_thread Idle (todo th) x (t_produced th) (t_consumed th ++ [(p, x)]), q)
  | In_pop s =>
      let '(s', q') := MPMC_Queue.pop_step s q in (set (In_pop s'), q')
  | In_try_pop val0 (MPMC_Queue.TP_ret p true x) =>
      (mk_thread Idle (todo th) x (t_produced th) (t_consumed th ++ [(p, x)]), q)
  | In_try_pop val0 (MPMC_Queue.TP_ret p false x) =>
      (mk_thread Idle (todo th) x (t_produced th) (t_consumed th), q)
  | In_try_pop val0 s =>
      let '(s', q') := MPMC_Queue.try_pop_step val0 s q in (set (In_try_pop val0 s'), q')
  end.

Record system : Type := mk_system {
  threads : list thread;
  shared : MPMC_Queue.t T
}.

Definition sys_step (i : nat) (st : system) : system :=
  match threads st !! i with
  | Some th =>
      let '(th', q') := thread_step th (shared st) in
      mk_system (<[i := th']> (threads st)) q'
  | None => st
  end.

Definition sys_run (sched : list nat) (st : system) : system :=
  fold_left (fun st i => sys_step i st) sched st.

Definition sys_init (q : MPMC_Queue.t T) (programs : list (list (call T))) : system :=
  mk_system (map (fun cs => mk_thread Idle cs T_default [] []) programs) q.

(** Everything produced and consumed by calls that have returned. *)
Definition all_produced (st : system) : list (Z * T) :=
  concat (map t_produced (threads st)).

Definition all_consumed (st : system) : list (Z * T) :=
  concat (map t_consumed (threads st)).

(** Where a producer is in its call once it has claimed a position, and
    where a consumer is. *)
Inductive pphase : Type := PSpin | PAssign | PStore | PDone.
Inductive cphase : Type := CSpin | CTake | CStore (x : T) | CDone (x : T).

Definition producing (a : activity) : option (pphase * Z * T) :=
  match a with
  | In_emplace v (MPMC_Queue.EM_spin p) => Some (PSpin, p, v)
  | In_emplace v (MPMC_Queue.EM_assign p) => Some (PAssign, p, v)
  | In_emplace v (MPMC_Queue.EM_store p) => Some (PStore, p, v)
  | In_emplace v (MPMC_Queue.EM_ret p) => Some (PDone, p, v)
  | In_try_emplace v (MPMC_Queue.TE_assign p) => Some (PAssign, p, v)
  | In_try_emplace v (MPMC_Queue.TE_store p) => Some (PStore, p, v)
  | In_try_emplace v (MPMC_Queue.TE_ret p true) => Some (PDone, p, v)
  | _ => None
  end.

Definition consuming (a : activity) : option (cphase * Z) :=
  match a with
  | In_pop (MPMC_Queue.P_spin p) => Some (CSpin, p)
  | In_pop (MPMC_Queue.P_take p) => Some (CTake, p)
  | In_pop (MPMC_Queue.P_store p x) => Some (CStore x, p)
  | In_pop (MPMC_Queue.P_ret p x) => Some (CDone x, p)
  | In_try_pop _ (MPMC_Queue.TP_take p) => Some (CTake, p)
  | In_try_pop _ (MPMC_Queue.TP_store p x) => Some (CStore x, p)
  | In_try_pop _ (MPMC_Queue.TP_ret p true x) => Some (CDone x, p)
  | _ => None
  end.

(** The head that a [try_emplace] has observed, and whether it has found
    the slot of that head in the expected phase; the same for [try_pop]. *)
Definition watching_head (a : activity) : option (bool * Z) :=
  match a with
  | In_try_emplace _ (MPMC_Queue.TE_check h) => Some (false, h)
  | In_try_emplace _ (MPMC_Queue.TE_cas h) => Some (true, h)
  | _ => None
  end.

Definition watching_tail (a : activity) : option (bool * Z) :=
  match a with
  | In_try_pop _ (MPMC_Queue.TP_check t) => Some (false, t)
  | In_try_pop _ (MPMC_Queue.TP_cas t) => Some (true, t)
  | _ => None
  end.

(** The positions a thread has claimed as a producer, each with the value
    passed to the call, and the positions it has claimed as a consumer. *)
Definition prod_entries (th : thread) : list (Z * T) :=
  t_produced th ++
  match producing (doing th) with Some (_, p, v) => [(p, v)] | None => [] end.

Definition cons_claims (th : thread) : list Z :=
  map fst (t_consumed th) ++
  match consuming (doing th) with Some (_, p) => [p] | None => [] end.

(** The value [v] has been published at position [p]. *)
Definition published (th : thread) (p : Z) (v : T) : Prop :=
  In (p, v) (t_produced th) \/ producing (doing th) = Some (PDone, p, v).

Definition Pub (ths : list thread) (p : Z) (v : T) : Prop :=
  exists (j : nat) thj, ths !! j = Some thj /\ published thj p v.

Definition gen (c : Z) (q : MPMC_Queue.t T) (p : Z) : Z :=
  Slot.turn (MPMC_Queue.slot q (p mod c)).

Definition dat (c : Z) (q : MPMC_Queue.t T) (p : Z) : T :=
  Slot.data_ (MPMC_Queue.slot q (p mod c)).

(** What a thread in the middle of a call may rely on. *)
Record local_ok (c : Z) (q : MPMC_Queue.t T) (ths : list thread) (th : thread) : Prop := {
  lo_prod : forall ph p v,
    producing (doing th) = Some (ph, p, v) ->
    match ph with
    | PAssign => gen c q p = wrap (p / c * 2)
    | PStore => gen c q p = wrap (p / c * 2) /\ dat c q p = v
    | _ => True
    end;
  lo_cons : forall ph p,
    consuming (doing th) = Some (ph, p) ->
    match ph with
    | CSpin => True
    | CTake => gen c q p = wrap (p / c * 2 + 1) /\ Pub ths p (dat c q p)
    | CStore x => gen c q p = wrap (p / c * 2 + 1) /\ Pub ths p x
    | CDone x => Pub ths p x
    end;
  lo_head : forall b h,
    watching_head (doing th) = Some (b, h) ->
    h <= MPMC_Queue.head_ q /\
    (b = true -> MPMC_Queue.head_ q = h -> gen c q h = wrap (h / c * 2));
  lo_tail : forall b t,
    watching_tail (doing th) = Some (b, t) ->
    t <= MPMC_Queue.tail_ q /\
    (b = true -> MPMC_Queue.tail_ q = t ->
     gen c q t = wrap (t / c * 2 + 1) /\ Pub ths t (dat c q t));
  lo_log : forall p x, In (p, x) (t_consumed th) -> Pub ths p x
}.

(** The threads and the queue after [n] steps at most. *)
Record sys_inv (c n : Z) (st : system) : Prop := {
  si_wf : wf c (shared st);
  si_head : 0 <= MPMC_Queue.head_ (shared st) <= n;
  si_tail : 0 <= MPMC_Queue.tail_ (shared st) <= n;
  si_prod_bound : forall i th p,
    threads st !! i = Some th -> In p (map fst (prod_entries th)) ->
    0 <= p < MPMC_Queue.head_ (shared st);
  si_prod_nodup : forall i th,
    threads st !! i = Some th -> NoDup (map fst (prod_entries th));
  si_prod_disj : forall i j thi thj p,
    i <> j -> threads st !! i = Some thi -> threads st !! j = Some thj ->
    In p (map fst (prod_entries thi)) -> In p (map fst (prod_entries thj)) -> False;
  si_cons_bound : forall i th p,
    threads st !! i = Some th -> In p (cons_claims th) ->
    0 <= p < MPMC_Queue.tail_ (shared st);
  si_cons_nodup : forall i th,
    threads st !! i = Some th -> NoDup (cons_claims th);
  si_cons_disj : forall i j thi thj p,
    i <> j -> threads st !! i = Some thi -> threads st !! j = Some thj ->
    In p (cons_claims thi) -> In p (cons_claims thj) -> False;
  si_local : forall i th,
    threads st !! i = Some th -> local_ok c (shared st) (threads st) th;
  si_slot : forall p,
    0 <= p < 2 ^ 63 -> gen c (shared st) p = wrap (p / c * 2 + 1) ->
    exists v, Pub (threads st) p v /\
      (dat c (shared st) p = v \/
       exists (j : nat) thj, threads st !! j = Some thj /\
                             consuming (doing thj) = Some (CStore v, p))
}.

(** The position whose slot a thread reads or writes the [data_] of with
    its next step: the assignment of lines 173 and 190, the move of lines
    233 and 247. *)
Definition accessing_data (a : activity) : option Z :=
  match a with
  | In_emplace _ (MPMC_Queue.EM_assign p) | In_try_emplace _ (MPMC_Queue.TE_assign p)
  | In_pop (MPMC_Queue.P_take p) | In_try_pop _ (MPMC_Queue.TP_take p) => Some p
  | _ => None
  end.

(** Every claim of a producer, returned or not. *)
Definition all_prod_entries (st : system) : list (Z * T) :=
  concat (map prod_entries (threads st)).

(** Every thread has returned from the last call of its program. *)
Definition joined (st : system) : bool :=
  forallb (fun th => match doing th, todo th with
                     | Idle, [] => true
                     | _, _ => false
                     end) (threads st).

(** The calls that wait; the values a program passes to [emplace] and
    [push]; the number of its calls of [pop]. *)
Definition blocking_only (k : call T) : bool :=
  match k with
  | Try_emplace _ | Try_push _ | Try_pop => false
  | _ => true
  end.

Definition pushes (cs : list (call T)) : list T :=
  flat_map (fun k => match k with Emplace v | Push v => [v] | _ => [] end) cs.

Definition pops (cs : list (call T)) : nat :=
  length (List.filter (fun k => match k with Pop => true | _ => false end) cs).

(** How far a thread has come in its program [prog]. *)
Definition pending_push (a : activity) : list T :=
  match a with In_emplace v _ => [v] | _ => [] end.

Definition pending_pop (a : activity) : nat :=
  match a with In_pop _ => 1%nat | _ => 0%nat end.

Definition no_try (a : activity) : bool :=
  match a with In_try_emplace _ _ | In_try_pop _ _ => false | _ => true end.

Record follows (prog : list (call T)) (th : thread) : Prop := {
  fo_blocking : forallb blocking_only (todo th) = true;
  fo_doing : no_try (doing th) = true;
  fo_pushes :
    pushes prog = map snd (t_produced th) ++ pending_push (doing th) ++ pushes (todo th);
  fo_pops :
    pops prog = (length (t_consumed th) + pending_pop (doing th) + pops (todo th))%nat
}.

(** Every claim of a consumer, returned or not. *)
Definition all_cons_claims (st : system) : list Z :=
  concat (map cons_claims (threads st)).

(** The counters count the claims, and the claims of each thread are in
    the order of their positions. *)
Record tally (st : system) : Prop := {
  ta_head : MPMC_Queue.head_ (shared st) = Z.of_nat (length (all_prod_entries st));
  ta_tail : MPMC_Queue.tail_ (shared st) = Z.of_nat (length (all_cons_claims st));
  ta_prod : forall (i : nat) th,
    threads st !! i = Some th -> StronglySorted Z.lt (map fst (prod_entries th));
  ta_cons : forall (i : nat) th,
    threads st !! i = Some th -> StronglySorted Z.lt (cons_claims th)
}.

End Threads.

(** ** The fuzz test (tests/mpmc-queue-test.cpp, lines 75-107)

    [numThreads] producers and as many consumers on a queue of capacity
    [numThreads]; producer [i] pushes [i], [i + numThreads], ... below
    [numOps], consumer [i] pops once for each of these and adds what it
    gets to its [threadSum], which it adds to the shared [sum] at the end. *)

(** The values of [j] in [for (auto j = i; j < numOps; j += numThreads)];
    the loop makes [numOps] rounds at most when [numThreads] is positive. *)
Fixpoint loop_indices (fuel : nat) (j numOps numThreads : Z) : list Z :=
  match fuel with
  | O => []
  | S fuel' =>
      if j <? numOps
      then j :: loop_indices fuel' (wrap (j + numThreads)) numOps numThreads
      else []
  end.

Definition fuzz_producer (numOps numThreads i : Z) : list (call Z) :=
  map Push (loop_indices (Z.to_nat numOps) i numOps numThreads).

Definition fuzz_consumer (numOps numThreads i : Z) : list (call Z) :=
  map (fun _ => Pop) (loop_indices (Z.to_nat numOps) i numOps numThreads).

Definition fuzz_threads (numOps numThreads : Z) : list (list (call Z)) :=
  map (fuzz_producer numOps numThreads) (seqZ 0 numThreads)
  ++ map (fuzz_consumer numOps numThreads) (seqZ 0 numThreads).

(** [threadSum += v] after each [pop], and [sum += threadSum] by each of
    the consumers, which are the threads after the first [numThreads]. *)
Definition threadSum (th : @thread Z) : Z :=
  fold_left (fun acc e => wrap (acc + snd e)) (t_consumed th) 0.

Definition fuzz_sum (numThreads : Z) (st : @system Z) : Z :=
  fold_left (fun acc th => wrap (acc + threadSum th))
    (drop (Z.to_nat numThreads) (threads st)) 0.

(** [numOps * (numOps - 1) / 2] on [uint64_t] *)
Definition fuzz_expected (numOps : Z) : Z := wrap (numOps * wrap (numOps - 1)) / 2.

(** The sum of a list of integers. *)
Definition zsum (l : list Z) : Z := fold_right Z.add 0 l.

(** * Properties *)

(** ** Machine arithmetic *)
Section Arith.

Lemma wrap_range x : 0 <= wrap x < 2 ^ 64.
Proof. unfold wrap. apply Z.mod_pos_bound. lia. Qed.

Lemma wrap_small x : 0 <= x < 2 ^ 64 -> wrap x = x.
Proof. intros Hx. unfold wrap. apply Z.mod_small. exact Hx. Qed.

Lemma wrap_wrap x : wrap (wrap x) = wrap x.
Proof. unfold wrap. apply Z.mod_mod. lia. Qed.

Lemma wrap_add_l x y : wrap (wrap x + y) = wrap (x + y).
Proof. unfold wrap. apply Zplus_mod_idemp_l. Qed.

Lemma wrap_add_r x y : wrap (x + wrap y) = wrap (x + y).
Proof. unfold wrap. apply Zplus_mod_idemp_r. Qed.

Lemma wrap_odd x : Z.odd (wrap x) = Z.odd x.
Proof.
  unfold wrap.
  rewrite (Z.div_mod x (2 ^ 64)) at 2 by lia.
  replace (2 ^ 64) with (2 * 2 ^ 63) at 2 by reflexivity.
  rewrite <- Z.mul_assoc, Z.add_comm, Z.odd_add_mul_2. reflexivity.
Qed.

Lemma wrap_double_even x : Z.odd (wrap (x * 2)) = false.
Proof. rewrite wrap_odd, Z.mul_comm. apply Z.odd_mul. Qed.

Lemma wrap_double_succ_odd x : Z.odd (wrap (x * 2 + 1)) = true.
Proof.
  rewrite wrap_odd, Z.add_comm, (Z.mul_comm x 2), Z.odd_add_mul_2. reflexivity.
Qed.

Lemma wrap_double_plus2_even x : Z.odd (wrap (x * 2 + 2)) = false.
Proof.
  rewrite wrap_odd. replace (x * 2 + 2) with (0 + 2 * (x + 1)) by lia.
  rewrite Z.odd_add_mul_2. reflexivity.
Qed.

(** [x & 1] is non-zero exactly for odd [x]. *)
Lemma land_one_odd x : negb (Z.land x 1 =? 0) = Z.odd x.
Proof.
  change 1 with (Z.ones 1) at 1. rewrite Z.land_ones by lia.
  change (2 ^ 1) with 2. rewrite Zmod_odd. destruct (Z.odd x); reflexivity.
Qed.

End Arith.

(** ** Running a call alone *)
Section Sequential.
Context {T : Type} `{MPMC_Type T}.
Implicit Types (q : MPMC_Queue.t T) (v : T).

Lemma run_mono {St} (step : St -> MPMC_Queue.t T -> St * MPMC_Queue.t T) returned n m s q r :
  MPMC_Queue.run step returned n s q = Some r -> (n <= m)%nat ->
  MPMC_Queue.run step returned m s q = Some r.
Proof.
  revert m s q. induction n as [|n IH]; intros m s q Hr Hle; simpl in Hr.
  - destruct m; simpl; destruct (returned s); congruence.
  - destruct m as [|m]; [lia|]. simpl.
    destruct (returned s); [exact Hr|].
    destruct (step s q) as [s' q']. apply IH; [exact Hr | lia].
Qed.

Lemma run_done {St} (step : St -> MPMC_Queue.t T -> St * MPMC_Queue.t T) returned n s q :
  returned s = true -> MPMC_Queue.run step returned n s q = Some (s, q).
Proof. intros Hs. destruct n; simpl; rewrite Hs; reflexivity. Qed.

Lemma set_slot_twice q i (s : Slot.t T) (f : Slot.t T -> Slot.t T) :
  MPMC_Queue.set_slot (MPMC_Queue.set_slot q i s) i
    (f (MPMC_Queue.slot (MPMC_Queue.set_slot q i s) i))
  = MPMC_Queue.set_slot q i (f s).
Proof.
  unfold MPMC_Queue.set_slot, MPMC_Queue.slot. simpl.
  destruct (decide (Z.to_nat i < length (MPMC_Queue.buffer_ q))%nat) as [Hlt|Hge].
  - rewrite list_lookup_insert_eq by exact Hlt. simpl.
    rewrite list_insert_insert_eq. reflexivity.
  - rewrite !list_insert_ge by (rewrite ?length_insert; lia). reflexivity.
Qed.

Lemma try_emplace_seq fuel v q :
  (5 <= fuel)%nat ->
  MPMC_Queue.try_emplace fuel v q
  = Some (if writable q then (true, MPMC_Queue.head_ q, written v q)
          else (false, MPMC_Queue.head_ q, q)).
Proof.
  intros Hf. do 5 (destruct fuel as [|fuel]; [lia|]).
  unfold MPMC_Queue.try_emplace, writable, written. simpl.
  destruct (_ =? _) eqn:Hw; simpl.
  - rewrite Z.eqb_refl. simpl. rewrite run_done by reflexivity.
    rewrite set_slot_twice. reflexivity.
  - rewrite Z.eqb_refl. reflexivity.
Qed.

Lemma try_pop_seq fuel val0 q :
  (5 <= fuel)%nat ->
  MPMC_Queue.try_pop fuel val0 q
  = Some (if readable q then (true, front q, MPMC_Queue.tail_ q, taken q)
          else (false, val0, MPMC_Queue.tail_ q, q)).
Proof.
  intros Hf. do 5 (destruct fuel as [|fuel]; [lia|]).
  unfold MPMC_Queue.try_pop, readable, taken, front. simpl.
  destruct (_ =? _) eqn:Hr; simpl.
  - rewrite Z.eqb_refl. simpl. rewrite run_done by reflexivity.
    rewrite set_slot_twice. reflexivity.
  - rewrite Z.eqb_refl. reflexivity.
Qed.

Lemma emplace_seq fuel v q :
  writable q = true -> (4 <= fuel)%nat ->
  MPMC_Queue.emplace fuel v q = Some (MPMC_Queue.head_ q, written v q).
Proof.
  intros Hw Hf. do 4 (destruct fuel as [|fuel]; [lia|]).
  unfold writable in Hw. unfold MPMC_Queue.emplace, written. simpl.
  change (MPMC_Queue.slot (MPMC_Queue.set_head q _) ?i) with (MPMC_Queue.slot q i).
  change (MPMC_Queue.turn (MPMC_Queue.set_head q _) ?i) with (MPMC_Queue.turn q i).
  rewrite Hw. simpl. rewrite run_done by reflexivity.
  rewrite set_slot_twice. reflexivity.
Qed.

Lemma pop_seq fuel q :
  readable q = true -> (4 <= fuel)%nat ->
  MPMC_Queue.pop fuel q = Some (front q, MPMC_Queue.tail_ q, taken q).
Proof.
  intros Hr Hf. do 4 (destruct fuel as [|fuel]; [lia|]).
  unfold readable in Hr. unfold MPMC_Queue.pop, taken, front. simpl.
  change (MPMC_Queue.slot (MPMC_Queue.set_tail q _) ?i) with (MPMC_Queue.slot q i).
  change (MPMC_Queue.turn (MPMC_Queue.set_tail q _) ?i) with (MPMC_Queue.turn q i).
  rewrite Hr. simpl. rewrite run_done by reflexivity.
  rewrite set_slot_twice. reflexivity.
Qed.

(** A blocking call that finds its slot in the wrong phase spins for ever
    when no other thread runs. *)
Lemma emplace_spins v h q n :
  (wrap (MPMC_Queue.turn q h * 2)
   =? Slot.turn (MPMC_Queue.slot q (h mod MPMC_Queue.capacity_ q))) = false ->
  MPMC_Queue.run (MPMC_Queue.emplace_step v) MPMC_Queue.emplace_returned n
    (MPMC_Queue.EM_spin h) q = None.
Proof.
  intros Hw. induction n as [|n IH]; simpl; [reflexivity|].
  rewrite Hw. simpl. exact IH.
Qed.

Lemma emplace_blocked fuel v q :
  writable q = false -> MPMC_Queue.emplace fuel v q = None.
Proof.
  intros Hw. unfold MPMC_Queue.emplace. destruct fuel as [|fuel]; [reflexivity|].
  simpl. rewrite emplace_spins; [reflexivity|]. exact Hw.
Qed.

Lemma pop_spins t q n :
  (wrap (MPMC_Queue.turn q t * 2 + 1)
   =? Slot.turn (MPMC_Queue.slot q (t mod MPMC_Queue.capacity_ q))) = false ->
  MPMC_Queue.run MPMC_Queue.pop_step MPMC_Queue.pop_returned n
    (MPMC_Queue.P_spin t) q = None.
Proof.
  intros Hr. induction n as [|n IH]; simpl; [reflexivity|].
  rewrite Hr. simpl. exact IH.
Qed.

Lemma pop_blocked fuel q :
  readable q = false -> MPMC_Queue.pop fuel q = None.
Proof.
  intros Hr. unfold MPMC_Queue.pop. destruct fuel as [|fuel]; [reflexivity|].
  simpl. rewrite pop_spins; [reflexivity|]. exact Hr.
Qed.

(** With any fuel, a call that returns has done what it does with enough
    fuel. *)
Lemma try_emplace_inv fuel v q r :
  MPMC_Queue.try_emplace fuel v q = Some r ->
  r = if writable q then (true, MPMC_Queue.head_ q, written v q)
      else (false, MPMC_Queue.head_ q, q).
Proof.
  intros Hr.
  assert (MPMC_Queue.try_emplace (fuel + 5) v q = Some r) as Hm.
  { unfold MPMC_Queue.try_emplace in *.
    destruct (MPMC_Queue.run _ _ fuel _ _) as [[s q']|] eqn:Hrun; [|discriminate].
    rewrite (run_mono _ _ _ _ _ _ _ Hrun) by lia. exact Hr. }
  rewrite try_emplace_seq in Hm by lia. congruence.
Qed.

Lemma try_pop_inv fuel val0 q r :
  MPMC_Queue.try_pop fuel val0 q = Some r ->
  r = if readable q then (true, front q, MPMC_Queue.tail_ q, taken q)
      else (false, val0, MPMC_Queue.tail_ q, q).
Proof.
  intros Hr.
  assert (MPMC_Queue.try_pop (fuel + 5) val0 q = Some r) as Hm.
  { unfold MPMC_Queue.try_pop in *.
    destruct (MPMC_Queue.run _ _ fuel _ _) as [[s q']|] eqn:Hrun; [|discriminate].
    rewrite (run_mono _ _ _ _ _ _ _ Hrun) by lia. exact Hr. }
  rewrite try_pop_seq in Hm by lia. congruence.
Qed.

Lemma emplace_inv fuel v q r :
  MPMC_Queue.emplace fuel v q = Some r ->
  writable q = true /\ r = (MPMC_Queue.head_ q, written v q).
Proof.
  intros Hr. destruct (writable q) eqn:Hw.
  - split; [reflexivity|].
    assert (MPMC_Queue.emplace (fuel + 4) v q = Some r) as Hm.
    { unfold MPMC_Queue.emplace in *.
      destruct (MPMC_Queue.run _ _ fuel _ _) as [[s q']|] eqn:Hrun; [|discriminate].
      rewrite (run_mono _ _ _ _ _ _ _ Hrun) by lia. exact Hr. }
    rewrite emplace_seq in Hm by (assumption || lia). congruence.
  - rewrite emplace_blocked in Hr by exact Hw. discriminate.
Qed.

Lemma pop_inv fuel q r :
  MPMC_Queue.pop fuel q = Some r ->
  readable q = true /\ r = (front q, MPMC_Queue.tail_ q, taken q).
Proof.
  intros Hr. destruct (readable q) eqn:Hw.
  - split; [reflexivity|].
    assert (MPMC_Queue.pop (fuel + 4) q = Some r) as Hm.
    { unfold MPMC_Queue.pop in *.
      destruct (MPMC_Queue.run _ _ fuel _ _) as [[s q']|] eqn:Hrun; [|discriminate].
      rewrite (run_mono _ _ _ _ _ _ _ Hrun) by lia. exact Hr. }
    rewrite pop_seq in Hm by (assumption || lia). congruence.
  - rewrite pop_blocked in Hr by exact Hw. discriminate.
Qed.

End Sequential.

(** ** The slot array *)
Section Slots.
Context {T : Type} `{MPMC_Type T}.
Implicit Types (q : MPMC_Queue.t T) (v : T).

Lemma slot_set_slot_eq q i (s : Slot.t T) :
  0 <= i -> (Z.to_nat i < length (MPMC_Queue.buffer_ q))%nat ->
  MPMC_Queue.slot (MPMC_Queue.set_slot q i s) i = s.
Proof.
  intros Hi Hlt. unfold MPMC_Queue.slot, MPMC_Queue.set_slot. simpl.
  rewrite list_lookup_insert_eq by exact Hlt. reflexivity.
Qed.

Lemma slot_set_slot_ne q i j (s : Slot.t T) :
  0 <= i -> 0 <= j -> i <> j ->
  MPMC_Queue.slot (MPMC_Queue.set_slot q i s) j = MPMC_Queue.slot q j.
Proof.
  intros Hi Hj Hne. unfold MPMC_Queue.slot, MPMC_Queue.set_slot. simpl.
  rewrite list_lookup_insert_ne by lia. reflexivity.
Qed.

(** The index of a position lies in the array: the member functions never
    read or write outside [buffer_]. *)
Lemma slot_in_range c q p :
  wf c q -> 0 <= p mod c /\ (Z.to_nat (p mod c) < length (MPMC_Queue.buffer_ q))%nat.
Proof.
  intros (Hc & Hlen & Hr).
  pose proof (Z.mod_pos_bound p c ltac:(lia)). rewrite Hlen. lia.
Qed.

Lemma mod_neq c p p' :
  0 < c -> p <> p' -> Z.abs (p - p') < c -> p mod c <> p' mod c.
Proof.
  intros Hc Hne Habs Heq.
  pose proof (Z.div_mod p c ltac:(lia)) as Hp.
  pose proof (Z.div_mod p' c ltac:(lia)) as Hp'.
  assert (p - p' = c * (p / c - p' / c)) as Hd by lia.
  assert (p / c - p' / c = 0) by nia. lia.
Qed.

Lemma wf_written c v q : wf c q -> wf c (written v q).
Proof.
  intros (Hc & Hlen & Hr). unfold wf, written. simpl.
  rewrite length_insert. auto.
Qed.

Lemma wf_taken c q : wf c q -> wf c (taken q).
Proof.
  intros (Hc & Hlen & Hr). unfold wf, taken. simpl.
  rewrite length_insert. auto.
Qed.

Lemma slot_written_eq c v q :
  wf c q ->
  MPMC_Queue.slot (written v q) (MPMC_Queue.head_ q mod c)
  = Slot.mk v (wrap (MPMC_Queue.head_ q / c * 2 + 1)).
Proof.
  intros Hwf. pose proof (slot_in_range c q (MPMC_Queue.head_ q) Hwf) as [Hi Hlt].
  destruct Hwf as (Hc & _). unfold written, MPMC_Queue.turn. rewrite Hc.
  apply slot_set_slot_eq; assumption.
Qed.

Lemma slot_written_ne c v q i :
  wf c q -> 0 <= i -> i <> MPMC_Queue.head_ q mod c ->
  MPMC_Queue.slot (written v q) i = MPMC_Queue.slot q i.
Proof.
  intros Hwf Hi Hne. pose proof (slot_in_range c q (MPMC_Queue.head_ q) Hwf) as [Hh _].
  destruct Hwf as (Hc & _). unfold written. rewrite Hc.
  rewrite slot_set_slot_ne by (assumption || congruence). reflexivity.
Qed.

Lemma slot_taken_eq c q :
  wf c q ->
  MPMC_Queue.slot (taken q) (MPMC_Queue.tail_ q mod c)
  = Slot.mk (T_moved_from (front q)) (wrap (MPMC_Queue.tail_ q / c * 2 + 2)).
Proof.
  intros Hwf. pose proof (slot_in_range c q (MPMC_Queue.tail_ q) Hwf) as [Hi Hlt].
  destruct Hwf as (Hc & _). unfold taken, MPMC_Queue.turn. rewrite Hc.
  apply slot_set_slot_eq; assumption.
Qed.

Lemma slot_taken_ne c q i :
  wf c q -> 0 <= i -> i <> MPMC_Queue.tail_ q mod c ->
  MPMC_Queue.slot (taken q) i = MPMC_Queue.slot q i.
Proof.
  intros Hwf Hi Hne. pose proof (slot_in_range c q (MPMC_Queue.tail_ q) Hwf) as [Hh _].
  destruct Hwf as (Hc & _). unfold taken. rewrite Hc.
  rewrite slot_set_slot_ne by (assumption || congruence). reflexivity.
Qed.

Lemma writable_even c q :
  wf c q -> writable q = true ->
  Z.odd (Slot.turn (MPMC_Queue.slot q (MPMC_Queue.head_ q mod c))) = false.
Proof.
  intros (Hc & _) Hw. unfold writable in Hw. rewrite Hc in Hw.
  apply Z.eqb_eq in Hw. rewrite <- Hw. apply wrap_double_even.
Qed.

Lemma readable_odd c q :
  wf c q -> readable q = true ->
  Z.odd (Slot.turn (MPMC_Queue.slot q (MPMC_Queue.tail_ q mod c))) = true.
Proof.
  intros (Hc & _) Hr. unfold readable in Hr. rewrite Hc in Hr.
  apply Z.eqb_eq in Hr. rewrite <- Hr. apply wrap_double_succ_odd.
Qed.

(** **** Pigeonhole: [n] pairwise different indices below [c] *)
Lemma distinct_indices_le (f : nat -> Z) (n : nat) c :
  0 <= c ->
  (forall k, (k < n)%nat -> 0 <= f k < c) ->
  (forall k k', (k < k' < n)%nat -> f k <> f k') ->
  Z.of_nat n <= c.
Proof.
  intros Hc Hrange Hinj.
  assert (NoDup ((fun k => Z.to_nat (f k)) <$> seq 0 n)) as Hnd.
  { apply NoDup_fmap_2_strong; [|apply NoDup_seq].
    intros x y Hx Hy Hxy.
    apply elem_of_seq in Hx. apply elem_of_seq in Hy.
    pose proof (Hrange x ltac:(lia)). pose proof (Hrange y ltac:(lia)).
    destruct (Nat.lt_trichotomy x y) as [Hlt|[Heq|Hgt]]; [|exact Heq|].
    - exfalso. apply (Hinj x y); lia.
    - exfalso. apply (Hinj y x); lia. }
  assert ((fun k => Z.to_nat (f k)) <$> seq 0 n ⊆+ seq 0 (Z.to_nat c)) as Hsub.
  { apply NoDup_submseteq; [exact Hnd|].
    intros x Hx. apply list_elem_of_fmap in Hx as (k & -> & Hk).
    apply elem_of_seq in Hk. apply elem_of_seq.
    pose proof (Hrange k ltac:(lia)). lia. }
  apply submseteq_length in Hsub.
  rewrite length_fmap, !length_seq in Hsub. lia.
Qed.

End Slots.

(** ** The queue between calls *)
Section Holds.
Context {T : Type} `{MPMC_Type T}.
Implicit Types (q : MPMC_Queue.t T) (v : T) (rest : list (Z * T)).

(** A successful producer appends to the values in flight. *)
Lemma holds_written c q rest v :
  holds c q rest -> writable q = true ->
  holds c (written v q) (rest ++ [(MPMC_Queue.head_ q, v)]).
Proof.
  intros [Hwf Ht Hh Hlen Hfull Hinj Hemp] Hw.
  pose proof (writable_even c q Hwf Hw) as Heven.
  assert (1 <= c) as Hc1 by (destruct Hwf as (_ & _ & ?); lia).
  assert (forall k : nat, (k < length rest)%nat ->
            wrap (MPMC_Queue.tail_ q + Z.of_nat k) mod c <> MPMC_Queue.head_ q mod c) as Hfresh.
  { intros k Hk Heq.
    destruct (lookup_lt_is_Some_2 rest k Hk) as [[p v'] Hp].
    destruct (Hfull k p v' Hp) as (-> & Hodd & _). rewrite Heq in Hodd. congruence. }
  assert (forall k k' : nat, (k < k' < length (rest ++ [(MPMC_Queue.head_ q, v)]))%nat ->
            wrap (MPMC_Queue.tail_ q + Z.of_nat k) mod c
            <> wrap (MPMC_Queue.tail_ q + Z.of_nat k') mod c) as Hinj'.
  { intros k k'. rewrite length_app. simpl. intros Hk.
    destruct (decide (k' < length rest)%nat) as [Hlt|Hge].
    - apply Hinj. lia.
    - replace k' with (length rest) by lia. rewrite <- Hh. apply Hfresh. lia. }
  constructor.
  - apply wf_written. exact Hwf.
  - exact Ht.
  - rewrite length_app. simpl. unfold written. simpl. rewrite Hh, wrap_add_l.
    f_equal. lia.
  - apply (distinct_indices_le
             (fun k => wrap (MPMC_Queue.tail_ q + Z.of_nat k) mod c)); [lia| |exact Hinj'].
    intros k _. apply Z.mod_pos_bound. lia.
  - intros k p v' Hk. apply lookup_app_Some in Hk as [Hk|[Hge Hk]].
    + destruct (Hfull k p v' Hk) as (Hp & Hodd & Hdata).
      rewrite (slot_written_ne c); [auto|exact Hwf|apply Z.mod_pos_bound; lia|].
      subst p. apply Hfresh. eapply lookup_lt_Some. exact Hk.
    + destruct (k - length rest)%nat eqn:Hkd; [|destruct n; discriminate].
      simpl in Hk. injection Hk as <- <-.
      replace k with (length rest) by lia.
      rewrite (slot_written_eq c) by exact Hwf. simpl.
      split; [exact Hh|]. split; [apply wrap_double_succ_odd|reflexivity].
  - exact Hinj'.
  - intros i Hi Hodd. rewrite length_app. simpl.
    destruct (decide (i = MPMC_Queue.head_ q mod c)) as [->|Hne].
    + exists (length rest). split; [lia|]. rewrite <- Hh. reflexivity.
    + rewrite (slot_written_ne c) in Hodd by (assumption || lia).
      destruct (Hemp i Hi Hodd) as (k & Hk & ->). exists k. split; [lia|reflexivity].
Qed.

Lemma wrap_shift t (k : nat) :
  wrap (wrap (t + 1) + Z.of_nat k) = wrap (t + Z.of_nat (S k)).
Proof. rewrite wrap_add_l. f_equal. lia. Qed.

(** A successful consumer takes the oldest value in flight, at the
    position it was produced for. *)
Lemma holds_taken c q rest :
  holds c q rest -> readable q = true ->
  exists v rest', rest = (MPMC_Queue.tail_ q, v) :: rest' /\ front q = v /\
                  holds c (taken q) rest'.
Proof.
  intros [Hwf Ht Hh Hlen Hfull Hinj Hemp] Hr.
  pose proof (readable_odd c q Hwf Hr) as Hodd.
  assert (1 <= c) as Hc1 by (destruct Hwf as (_ & _ & ?); lia).
  assert (wrap (MPMC_Queue.tail_ q + Z.of_nat 0) = MPMC_Queue.tail_ q) as Hw0.
  { rewrite Z.add_0_r. apply wrap_small. exact Ht. }
  destruct (Hemp (MPMC_Queue.tail_ q mod c)) as (k & Hk & Hidx);
    [apply Z.mod_pos_bound; lia|exact Hodd|].
  assert (k = 0%nat) as ->.
  { destruct k as [|k]; [reflexivity|]. exfalso.
    apply (Hinj 0%nat (S k)); [lia|]. rewrite Hw0. exact Hidx. }
  destruct rest as [|[p0 v0] rest']; [simpl in Hk; lia|].
  destruct (Hfull 0%nat p0 v0 eq_refl) as (Hp0 & _ & Hd0).
  rewrite Hw0 in Hp0. subst p0.
  exists v0, rest'. split; [reflexivity|]. split.
  { unfold front. destruct Hwf as (-> & _). exact Hd0. }
  assert (forall k : nat, (k < length rest')%nat ->
            wrap (MPMC_Queue.tail_ q + Z.of_nat (S k)) mod c <> MPMC_Queue.tail_ q mod c) as Hfresh.
  { intros k Hlt Heq. apply (Hinj 0%nat (S k)); [simpl; lia|].
    rewrite Hw0. symmetry. exact Heq. }
  constructor.
  - apply wf_taken. exact Hwf.
  - apply wrap_range.
  - unfold taken. simpl. rewrite Hh, wrap_add_l. f_equal. simpl length. lia.
  - simpl length in Hlen. lia.
  - intros k p v Hkp.
    replace (MPMC_Queue.tail_ (taken q)) with (wrap (MPMC_Queue.tail_ q + 1)) by reflexivity.
    rewrite wrap_shift.
    destruct (Hfull (S k) p v Hkp) as (Hp & Ho & Hd).
    rewrite (slot_taken_ne c); [auto|exact Hwf|apply Z.mod_pos_bound; lia|].
    subst p. apply Hfresh. eapply lookup_lt_Some. exact Hkp.
  - intros k k' Hkk.
    replace (MPMC_Queue.tail_ (taken q)) with (wrap (MPMC_Queue.tail_ q + 1)) by reflexivity.
    rewrite !wrap_shift. apply Hinj. simpl. lia.
  - intros i Hi Ho.
    replace (MPMC_Queue.tail_ (taken q)) with (wrap (MPMC_Queue.tail_ q + 1)) by reflexivity.
    assert (i <> MPMC_Queue.tail_ q mod c) as Hne.
    { intros ->. rewrite (slot_taken_eq c) in Ho by exact Hwf. simpl in Ho.
      rewrite wrap_double_plus2_even in Ho. discriminate. }
    rewrite (slot_taken_ne c) in Ho by (assumption || lia).
    destruct (Hemp i Hi Ho) as (j & Hj & ->).
    destruct j as [|j]; [rewrite Hw0 in Hne; congruence|].
    exists j. split; [simpl in Hj; lia|]. rewrite wrap_shift. reflexivity.
Qed.

(** A full queue is not writable and an empty one not readable. *)
Lemma holds_full_not_writable c q rest :
  holds c q rest -> Z.of_nat (length rest) = c -> writable q = false.
Proof.
  intros Hq Hfull. destruct (writable q) eqn:Hw; [|reflexivity].
  pose proof (holds_len _ _ _ (holds_written c q rest T_default Hq Hw)) as Hlen.
  rewrite length_app in Hlen. simpl in Hlen. lia.
Qed.

Lemma holds_empty_not_readable c q :
  holds c q [] -> readable q = false.
Proof.
  intros Hq. destruct (readable q) eqn:Hr; [|reflexivity].
  destruct (holds_taken c q [] Hq Hr) as (v & rest' & Hcons & _). discriminate.
Qed.

(** The unsigned difference of the counters is the number of values in
    flight. *)
Lemma holds_difference c q rest :
  holds c q rest ->
  wrap (MPMC_Queue.head_ q - MPMC_Queue.tail_ q) = Z.of_nat (length rest).
Proof.
  intros [Hwf Ht Hh Hlen _ _ _]. rewrite Hh.
  destruct Hwf as (_ & _ & Hc). unfold MAX_SIZE_T in Hc.
  unfold wrap. rewrite Zminus_mod_idemp_l.
  replace (MPMC_Queue.tail_ q + Z.of_nat (length rest) - MPMC_Queue.tail_ q)
    with (Z.of_nat (length rest)) by lia.
  apply Z.mod_small. lia.
Qed.

(** The queue as the constructor leaves it. *)
Lemma holds_ctor allocate c q :
  c <= MAX_SIZE_T -> MPMC_Queue.ctor allocate c = inr q ->
  holds (MPMC_Queue.capacity q) q [].
Proof.
  unfold MPMC_Queue.ctor. intros Hmax Hctor.
  destruct (c <? 1) eqn:Hc1; [discriminate|]. apply Z.ltb_ge in Hc1.
  destruct (allocate _); [|discriminate]. injection Hctor as <-.
  unfold MPMC_Queue.capacity. simpl.
  set (c' := if c =? MAX_SIZE_T then MAX_SIZE_T - 1 else c).
  assert (1 <= c' < MAX_SIZE_T) as Hc'.
  { subst c'. unfold MAX_SIZE_T in *. destruct (c =? 2 ^ 64 - 1) eqn:He; [lia|].
    apply Z.eqb_neq in He. lia. }
  constructor; simpl.
  - unfold wf. simpl. rewrite length_replicate. auto.
  - lia.
  - reflexivity.
  - lia.
  - intros k p v Hk. discriminate.
  - intros k k' Hk. lia.
  - intros i Hi Ho. unfold MPMC_Queue.slot in Ho. simpl in Ho.
    rewrite lookup_replicate_2 in Ho by lia. simpl in Ho. discriminate.
Qed.

End Holds.

(** ** The sequential client *)
Section ClientHolds.
Context {T : Type} `{MPMC_Type T}.
Implicit Types (q : MPMC_Queue.t T) (v : T) (w : client T).

Lemma client_holds_produce c w r v :
  client_holds c w -> writable (queue w) = true ->
  client_holds c (produce w r (MPMC_Queue.head_ (queue w)) v (written v (queue w))).
Proof.
  intros (rest & Hlog & Hq) Hw.
  exists (rest ++ [(MPMC_Queue.head_ (queue w), v)]). split.
  - simpl. rewrite Hlog, app_assoc. reflexivity.
  - simpl. apply holds_written; assumption.
Qed.

Lemma client_holds_consume c w :
  client_holds c w -> readable (queue w) = true ->
  client_holds c (consume w (MPMC_Queue.tail_ (queue w)) (front (queue w)) (taken (queue w))).
Proof.
  intros (rest & Hlog & Hq) Hr.
  destruct (holds_taken c _ rest Hq Hr) as (v & rest' & -> & Hv & Hq').
  exists rest'. split.
  - simpl. rewrite Hlog, Hv, <- app_assoc. reflexivity.
  - simpl. exact Hq'.
Qed.

Lemma do_call_holds fuel c (k : call T) w w' :
  client_holds c w -> do_call fuel k w = Some w' -> client_holds c w'.
Proof.
  intros Hw Hcall. destruct k as [v|v|v|v| | | | |]; simpl in Hcall.
  - destruct (MPMC_Queue.emplace fuel v (queue w)) as [[p q]|] eqn:He; [|discriminate].
    apply emplace_inv in He as [Hwr Heq]. injection Heq as -> ->.
    injection Hcall as <-. apply client_holds_produce; assumption.
  - destruct (MPMC_Queue.try_emplace fuel v (queue w)) as [[[b p] q]|] eqn:He; [|discriminate].
    apply try_emplace_inv in He. destruct (writable (queue w)) eqn:Hwr.
    + injection He as -> -> ->. injection Hcall as <-.
      apply client_holds_produce; assumption.
    + injection He as -> -> ->. injection Hcall as <-. exact Hw.
  - unfold MPMC_Queue.push in Hcall.
    destruct (MPMC_Queue.emplace fuel v (queue w)) as [[p q]|] eqn:He; [|discriminate].
    apply emplace_inv in He as [Hwr Heq]. injection Heq as -> ->.
    injection Hcall as <-. apply client_holds_produce; assumption.
  - unfold MPMC_Queue.try_push in Hcall.
    destruct (MPMC_Queue.try_emplace fuel v (queue w)) as [[[b p] q]|] eqn:He; [|discriminate].
    apply try_emplace_inv in He. destruct (writable (queue w)) eqn:Hwr.
    + injection He as -> -> ->. injection Hcall as <-.
      apply client_holds_produce; assumption.
    + injection He as -> -> ->. injection Hcall as <-. exact Hw.
  - destruct (MPMC_Queue.pop fuel (queue w)) as [[[v p] q]|] eqn:He; [|discriminate].
    apply pop_inv in He as [Hrd Heq]. injection Heq as -> -> ->.
    injection Hcall as <-. apply client_holds_consume; assumption.
  - destruct (MPMC_Queue.try_pop fuel (val w) (queue w)) as [[[[b v] p] q]|] eqn:He;
      [|discriminate].
    apply try_pop_inv in He. destruct (readable (queue w)) eqn:Hrd.
    + injection He as -> -> -> ->. injection Hcall as <-.
      apply client_holds_consume; assumption.
    + injection He as -> -> -> ->. injection Hcall as <-. exact Hw.
  - injection Hcall as <-. exact Hw.
  - injection Hcall as <-. exact Hw.
  - injection Hcall as <-. exact Hw.
Qed.

Lemma do_calls_holds fuel c (cs : list (call T)) w w' :
  client_holds c w -> do_calls fuel cs w = Some w' -> client_holds c w'.
Proof.
  revert w. induction cs as [|k cs IH]; intros w Hw Hrun; simpl in Hrun.
  - injection Hrun as <-. exact Hw.
  - destruct (do_call fuel k w) as [w1|] eqn:Hk; [|discriminate].
    apply (IH w1); [|exact Hrun]. eapply do_call_holds; eassumption.
Qed.

Lemma client_holds_new allocate c q :
  c <= MAX_SIZE_T -> MPMC_Queue.ctor allocate c = inr q ->
  client_holds (MPMC_Queue.capacity q) (new_client q).
Proof.
  intros Hmax Hctor. exists []. split; [reflexivity|].
  simpl. eapply holds_ctor; eassumption.
Qed.

End ClientHolds.

(** ** The generations while the counters have not wrapped *)
Section Steady.
Context {T : Type} `{MPMC_Type T}.
Implicit Types (q : MPMC_Queue.t T) (v : T).

Lemma steady_writable c q :
  steady c q ->
  writable q = (MPMC_Queue.head_ q - MPMC_Queue.tail_ q <? c).
Proof.
  intros [Hwf Ht Hh Hm Hfull Hemp].
  destruct Hwf as (Hc & Hlen & Hr).
  unfold writable, MPMC_Queue.turn. rewrite Hc.
  destruct (MPMC_Queue.head_ q - MPMC_Queue.tail_ q <? c) eqn:Hd.
  - apply Z.ltb_lt in Hd. apply Z.eqb_eq. symmetry. apply Hemp. lia.
  - apply Z.ltb_ge in Hd. apply Z.eqb_neq. intros Heq.
    assert (MPMC_Queue.head_ q = MPMC_Queue.tail_ q + 1 * c) as Hhc by lia.
    rewrite Hhc in Heq at 2. rewrite Z_mod_plus_full in Heq.
    rewrite Hfull in Heq by lia.
    pose proof (wrap_double_even (MPMC_Queue.head_ q / c)) as He.
    pose proof (wrap_double_succ_odd (MPMC_Queue.tail_ q / c)) as Ho.
    congruence.
Qed.

Lemma steady_readable c q :
  steady c q ->
  readable q = (0 <? MPMC_Queue.head_ q - MPMC_Queue.tail_ q).
Proof.
  intros [Hwf Ht Hh Hm Hfull Hemp].
  destruct Hwf as (Hc & Hlen & Hr).
  unfold readable, MPMC_Queue.turn. rewrite Hc.
  destruct (0 <? MPMC_Queue.head_ q - MPMC_Queue.tail_ q) eqn:Hd.
  - apply Z.ltb_lt in Hd. apply Z.eqb_eq. symmetry. apply Hfull. lia.
  - apply Z.ltb_ge in Hd. apply Z.eqb_neq. intros Heq.
    rewrite Hemp in Heq by lia.
    pose proof (wrap_double_even (MPMC_Queue.tail_ q / c)) as He.
    pose proof (wrap_double_succ_odd (MPMC_Queue.tail_ q / c)) as Ho.
    congruence.
Qed.

Lemma steady_written c q v :
  steady c q -> writable q = true -> MPMC_Queue.head_ q < MAX_SIZE_T ->
  steady c (written v q).
Proof.
  intros Hs Hw Hlt. rewrite (steady_writable c q Hs) in Hw. apply Z.ltb_lt in Hw.
  destruct Hs as [Hwf Ht Hh Hm Hfull Hemp].
  assert (1 <= c) as Hc1 by (destruct Hwf as (_ & _ & ?); lia).
  assert (MPMC_Queue.head_ (written v q) = MPMC_Queue.head_ q + 1) as Hhead.
  { unfold written. simpl. apply wrap_small. unfold MAX_SIZE_T in Hlt. lia. }
  constructor.
  - apply wf_written. exact Hwf.
  - rewrite Hhead. change (MPMC_Queue.tail_ (written v q)) with (MPMC_Queue.tail_ q). lia.
  - rewrite Hhead. change (MPMC_Queue.tail_ (written v q)) with (MPMC_Queue.tail_ q). lia.
  - rewrite Hhead. lia.
  - intros p. rewrite Hhead. change (MPMC_Queue.tail_ (written v q)) with (MPMC_Queue.tail_ q).
    intros Hp. destruct (decide (p = MPMC_Queue.head_ q)) as [->|Hne].
    + rewrite (slot_written_eq c) by exact Hwf. reflexivity.
    + rewrite (slot_written_ne c); [apply Hfull; lia|exact Hwf|apply Z.mod_pos_bound; lia|].
      apply mod_neq; lia.
  - intros p. rewrite Hhead. change (MPMC_Queue.tail_ (written v q)) with (MPMC_Queue.tail_ q).
    intros Hp.
    rewrite (slot_written_ne c); [apply Hemp; lia|exact Hwf|apply Z.mod_pos_bound; lia|].
    apply mod_neq; lia.
Qed.

Lemma steady_taken c q :
  steady c q -> readable q = true -> steady c (taken q).
Proof.
  intros Hs Hr. rewrite (steady_readable c q Hs) in Hr. apply Z.ltb_lt in Hr.
  destruct Hs as [Hwf Ht Hh Hm Hfull Hemp].
  assert (1 <= c) as Hc1 by (destruct Hwf as (_ & _ & ?); lia).
  assert (MPMC_Queue.tail_ (taken q) = MPMC_Queue.tail_ q + 1) as Htail.
  { unfold taken. simpl. apply wrap_small. unfold MAX_SIZE_T in Hm. lia. }
  constructor.
  - apply wf_taken. exact Hwf.
  - rewrite Htail. change (MPMC_Queue.head_ (taken q)) with (MPMC_Queue.head_ q). lia.
  - rewrite Htail. change (MPMC_Queue.head_ (taken q)) with (MPMC_Queue.head_ q). lia.
  - exact Hm.
  - intros p. rewrite Htail. change (MPMC_Queue.head_ (taken q)) with (MPMC_Queue.head_ q).
    intros Hp.
    rewrite (slot_taken_ne c); [apply Hfull; lia|exact Hwf|apply Z.mod_pos_bound; lia|].
    apply mod_neq; lia.
  - intros p. rewrite Htail. change (MPMC_Queue.head_ (taken q)) with (MPMC_Queue.head_ q).
    intros Hp. destruct (decide (p = MPMC_Queue.tail_ q + 1 * c)) as [->|Hne].
    + rewrite Z_mod_plus_full, Z.div_add by lia.
      rewrite (slot_taken_eq c) by exact Hwf. simpl. f_equal. lia.
    + rewrite (slot_taken_ne c); [apply Hemp; lia|exact Hwf|apply Z.mod_pos_bound; lia|].
      apply mod_neq; lia.
Qed.

(** In the steady state [size()] is the difference of the counters, as a
    [std::ptrdiff_t]. *)
Lemma size_no_wrap q :
  0 <= MPMC_Queue.tail_ q <= MPMC_Queue.head_ q -> MPMC_Queue.head_ q <= MAX_SIZE_T ->
  MPMC_Queue.size q = to_ptrdiff (MPMC_Queue.head_ q - MPMC_Queue.tail_ q).
Proof.
  intros Ht Hm. unfold MPMC_Queue.size, to_ptrdiff, MAX_SIZE_T in *.
  set (hd := MPMC_Queue.head_ q) in *. set (tl := MPMC_Queue.tail_ q) in *.
  rewrite !wrap_wrap.
  rewrite (wrap_small (hd - tl)) by lia.
  rewrite (wrap_small (2 ^ 64 - 1 - tl)) by lia.
  destruct (hd - tl <? 2 ^ 63) eqn:Hd.
  - pose proof Hd as Hd'. apply Z.ltb_lt in Hd'. rewrite Z.abs_eq by lia.
    rewrite (wrap_small (hd - tl)) by lia.
    replace (2 ^ 64 - 1 - tl <? hd - tl) with false by (symmetry; apply Z.ltb_ge; lia).
    rewrite Hd. reflexivity.
  - pose proof Hd as Hd'. apply Z.ltb_ge in Hd'. rewrite Z.abs_neq by lia.
    rewrite (wrap_small (- (hd - tl - 2 ^ 64))) by lia.
    replace (2 ^ 64 - 1 - tl <? - (hd - tl - 2 ^ 64)) with false
      by (symmetry; apply Z.ltb_ge; lia).
    assert (wrap (hd - tl - 2 ^ 64) = hd - tl) as ->.
    { unfold wrap. replace (hd - tl - 2 ^ 64) with (hd - tl + (-1) * 2 ^ 64) by lia.
      rewrite Z_mod_plus_full. apply Z.mod_small. lia. }
    rewrite Hd. reflexivity.
Qed.

Lemma steady_ctor allocate c q :
  c <= MAX_SIZE_T -> MPMC_Queue.ctor allocate c = inr q ->
  steady (MPMC_Queue.capacity q) q.
Proof.
  intros Hmax Hctor.
  pose proof (holds_wf _ _ _ (holds_ctor allocate c q Hmax Hctor)) as Hwf.
  unfold MPMC_Queue.ctor in Hctor.
  destruct (c <? 1) eqn:Hc1; [discriminate|].
  destruct (allocate _); [|discriminate]. injection Hctor as <-.
  unfold MPMC_Queue.capacity in *. simpl in *.
  set (c' := if c =? MAX_SIZE_T then MAX_SIZE_T - 1 else c) in *.
  assert (1 <= c') as Hc' by (destruct Hwf as (_ & _ & ?); lia).
  constructor; simpl; try (unfold MAX_SIZE_T; lia).
  - exact Hwf.
  - intros p Hp. unfold MPMC_Queue.slot. simpl.
    pose proof (Z.mod_pos_bound p c' ltac:(lia)).
    rewrite lookup_replicate_2 by lia. simpl.
    rewrite Z.div_small by lia. reflexivity.
Qed.

End Steady.

(** ** The sequential client against the queue of the specification *)
Section Refinement.
Context {T : Type} `{MPMC_Type T}.
Implicit Types (q : MPMC_Queue.t T) (v : T) (w : client T) (rest : list (Z * T)).

Lemma steady_count c q rest :
  holds c q rest -> steady c q ->
  MPMC_Queue.head_ q - MPMC_Queue.tail_ q = Z.of_nat (length rest).
Proof.
  intros Hq Hs. rewrite <- (holds_difference c q rest Hq).
  symmetry. apply wrap_small.
  destruct Hs as [(_ & _ & Hc) Ht Hh Hm _ _]. unfold MAX_SIZE_T in *. lia.
Qed.

Lemma refines_count c w items :
  refines c w items ->
  MPMC_Queue.head_ (queue w) - MPMC_Queue.tail_ (queue w) = Z.of_nat (length items).
Proof.
  intros (rest & <- & Hq & Hs). rewrite length_map. eapply steady_count; eassumption.
Qed.

Lemma refines_produce c w items r v :
  refines c w items -> writable (queue w) = true ->
  MPMC_Queue.head_ (queue w) < MAX_SIZE_T ->
  refines c (produce w r (MPMC_Queue.head_ (queue w)) v (written v (queue w)))
          (items ++ [v]).
Proof.
  intros (rest & <- & Hq & Hs) Hw Hlt.
  exists (rest ++ [(MPMC_Queue.head_ (queue w), v)]). simpl. split; [|split].
  - rewrite map_app. reflexivity.
  - apply holds_written; assumption.
  - apply steady_written; assumption.
Qed.

Lemma refines_consume c w x items :
  refines c w (x :: items) -> readable (queue w) = true ->
  front (queue w) = x /\
  refines c (consume w (MPMC_Queue.tail_ (queue w)) x (taken (queue w))) items.
Proof.
  intros (rest & Hmap & Hq & Hs) Hr.
  destruct (holds_taken c _ rest Hq Hr) as (v & rest' & -> & Hv & Hq').
  simpl in Hmap. injection Hmap as -> Hmap. split; [exact Hv|].
  exists rest'. simpl. split; [exact Hmap|]. split; [exact Hq'|].
  apply steady_taken; assumption.
Qed.

Lemma do_call_refines fuel c (k : call T) w items :
  refines c w items -> MPMC_Queue.head_ (queue w) < MAX_SIZE_T -> (5 <= fuel)%nat ->
  match fifo_call c k items (val w) with
  | Some (r, items', val') =>
      exists w', do_call fuel k w = Some w' /\ returns w' = returns w ++ [r] /\
                 val w' = val' /\ refines c w' items' /\
                 MPMC_Queue.head_ (queue w') <= MPMC_Queue.head_ (queue w) + 1
  | None => do_call fuel k w = None
  end.
Proof.
  intros Hw Hlt Hf.
  pose proof (refines_count c w items Hw) as Hn.
  assert (writable (queue w) = (Z.of_nat (length items) <? c)) as Hwr.
  { destruct Hw as (rest & _ & _ & Hs). rewrite (steady_writable c _ Hs), Hn. reflexivity. }
  assert (readable (queue w) = (0 <? Z.of_nat (length items))) as Hrd.
  { destruct Hw as (rest & _ & _ & Hs). rewrite (steady_readable c _ Hs), Hn. reflexivity. }
  assert (forall v, MPMC_Queue.head_ (written v (queue w)) <= MPMC_Queue.head_ (queue w) + 1) as Hh1.
  { intros v. unfold written. simpl. rewrite wrap_small; [lia|].
    destruct Hw as (rest & _ & _ & Hs). destruct Hs as [_ Ht _ _ _ _].
    unfold MAX_SIZE_T in Hlt. lia. }
  destruct k as [v|v|v|v| | | | |]; simpl.
  - destruct (Z.of_nat (length items) <? c).
    + rewrite emplace_seq by (assumption || lia).
      eexists. split; [reflexivity|]. simpl.
      split; [reflexivity|]. split; [reflexivity|]. split; [|apply (Hh1 v)].
      apply refines_produce; assumption.
    + rewrite emplace_blocked by assumption. reflexivity.
  - rewrite try_emplace_seq by lia. rewrite Hwr.
    destruct (Z.of_nat (length items) <? c).
    + eexists. split; [reflexivity|]. simpl.
      split; [reflexivity|]. split; [reflexivity|]. split; [|apply (Hh1 v)].
      apply refines_produce; assumption.
    + eexists. split; [reflexivity|]. simpl.
      split; [reflexivity|]. split; [reflexivity|]. split; [exact Hw|lia].
  - unfold MPMC_Queue.push. destruct (Z.of_nat (length items) <? c).
    + rewrite emplace_seq by (assumption || lia).
      eexists. split; [reflexivity|]. simpl.
      split; [reflexivity|]. split; [reflexivity|]. split; [|apply (Hh1 v)].
      apply refines_produce; assumption.
    + rewrite emplace_blocked by assumption. reflexivity.
  - unfold MPMC_Queue.try_push. rewrite try_emplace_seq by lia. rewrite Hwr.
    destruct (Z.of_nat (length items) <? c).
    + eexists. split; [reflexivity|]. simpl.
      split; [reflexivity|]. split; [reflexivity|]. split; [|apply (Hh1 v)].
      apply refines_produce; assumption.
    + eexists. split; [reflexivity|]. simpl.
      split; [reflexivity|]. split; [reflexivity|]. split; [exact Hw|lia].
  - destruct items as [|x items].
    + rewrite pop_blocked by exact Hrd. reflexivity.
    + rewrite pop_seq by (assumption || lia).
      destruct (refines_consume c w x items Hw Hrd) as [Hx Hw'].
      rewrite Hx. eexists. split; [reflexivity|]. simpl.
      split; [reflexivity|]. split; [reflexivity|]. split; [exact Hw'|lia].
  - rewrite try_pop_seq by lia. rewrite Hrd. destruct items as [|x items].
    + simpl. eexists. split; [reflexivity|]. simpl.
      split; [reflexivity|]. split; [reflexivity|]. split; [exact Hw|lia].
    + change (0 <? Z.of_nat (length (x :: items))) with true. cbv iota.
      destruct (refines_consume c w x items Hw Hrd) as [Hx Hw'].
      rewrite Hx. eexists. split; [reflexivity|]. simpl.
      split; [reflexivity|]. split; [reflexivity|]. split; [exact Hw'|lia].
  - eexists. split; [reflexivity|]. simpl.
    destruct Hw as (rest & Hmap & Hq & Hs).
    rewrite size_no_wrap, Hn; [|apply Hs|apply Hs].
    split; [reflexivity|]. split; [reflexivity|].
    split; [exists rest; auto|lia].
  - eexists. split; [reflexivity|]. simpl.
    destruct Hw as (rest & Hmap & Hq & Hs). unfold MPMC_Queue.empty.
    rewrite size_no_wrap, Hn; [|apply Hs|apply Hs].
    split; [reflexivity|]. split; [reflexivity|].
    split; [exists rest; auto|lia].
  - eexists. split; [reflexivity|]. simpl.
    destruct Hw as (rest & Hmap & Hq & Hs). unfold MPMC_Queue.capacity.
    destruct (holds_wf _ _ _ Hq) as (-> & _).
    split; [reflexivity|]. split; [reflexivity|].
    split; [exists rest; auto|lia].
Qed.

Lemma do_calls_refines fuel c (cs : list (call T)) w items :
  refines c w items ->
  MPMC_Queue.head_ (queue w) + Z.of_nat (length cs) <= MAX_SIZE_T -> (5 <= fuel)%nat ->
  option_map returns (do_calls fuel cs w)
  = option_map (app (returns w)) (fifo_calls c cs items (val w)).
Proof.
  revert w items. induction cs as [|k cs IH]; intros w items Hw Hlen Hf; simpl.
  - rewrite app_nil_r. reflexivity.
  - simpl length in Hlen.
    pose proof (do_call_refines fuel c k w items Hw ltac:(lia) Hf) as Hk.
    destruct (fifo_call c k items (val w)) as [[[r items'] val']|].
    + destruct Hk as (w' & -> & Hret & Hval & Hw' & Hh).
      rewrite (IH w' items' Hw') by lia. rewrite Hret, Hval.
      destruct (fifo_calls c cs items' val'); simpl; [|reflexivity].
      rewrite <- app_assoc. reflexivity.
    + rewrite Hk. reflexivity.
Qed.

End Refinement.

(** ** Construction and capacity *)
Section Construction.
Context {T : Type} `{MPMC_Type T}.
Implicit Types (q : MPMC_Queue.t T) (v : T) (w : client T).

Lemma ctor_inr allocate c q :
  MPMC_Queue.ctor allocate c = inr q ->
  1 <= c /\
  q = MPMC_Queue.mk (if c =? MAX_SIZE_T then MAX_SIZE_T - 1 else c)
        (replicate (Z.to_nat (if c =? MAX_SIZE_T then MAX_SIZE_T - 1 else c)) Slot.init) 0 0.
Proof.
  unfold MPMC_Queue.ctor. intros Hctor.
  destruct (c <? 1) eqn:Hc1; [discriminate|]. apply Z.ltb_ge in Hc1.
  destruct (allocate _); [|discriminate]. injection Hctor as <-. auto.
Qed.

(** C3.  The constructor throws the capacity error exactly when the
    requested capacity is below one; with any capacity of one or more,
    and an allocator that hands out the slots, it returns a queue of that
    many slots, all of generation [0], with both counters at [0]. *)
Theorem ctor_capacity_error (allocate : Z -> bool) (c : Z) :
  (@MPMC_Queue.ctor T _ allocate c = inl MPMC_Queue.logic_error_capacity <-> c < 1) /\
  (1 <= c ->
   allocate (wrap ((if c =? MAX_SIZE_T then MAX_SIZE_T - 1 else c) + 1)) = true ->
   exists q : MPMC_Queue.t T,
     MPMC_Queue.ctor allocate c = inr q /\
     length (MPMC_Queue.buffer_ q) = Z.to_nat (MPMC_Queue.capacity q) /\
     (forall s, In s (MPMC_Queue.buffer_ q) -> Slot.turn s = 0) /\
     MPMC_Queue.head_ q = 0 /\ MPMC_Queue.tail_ q = 0).
Proof.
  split.
  - unfold MPMC_Queue.ctor. destruct (c <? 1) eqn:Hc1.
    + apply Z.ltb_lt in Hc1. tauto.
    + apply Z.ltb_ge in Hc1. split; [|lia].
      destruct (allocate _); discriminate.
  - intros Hc Halloc. unfold MPMC_Queue.ctor.
    replace (c <? 1) with false by (symmetry; apply Z.ltb_ge; lia).
    rewrite Halloc. eexists. split; [reflexivity|].
    unfold MPMC_Queue.capacity. simpl. rewrite length_replicate.
    split; [reflexivity|]. split; [|auto].
    intros s Hs. apply list_elem_of_In, elem_of_replicate in Hs as [-> _]. reflexivity.
Qed.






End Construction.

Lemma ctor_capacity_error_witness :
  1 <= 4 /\ wrap ((if 4 =? MAX_SIZE_T then MAX_SIZE_T - 1 else 4) + 1) = 5 /\
  exists q : MPMC_Queue.t Z,
    MPMC_Queue.ctor (fun n => n <=? 5) 4 = inr q /\
    length (MPMC_Queue.buffer_ q) = Z.to_nat (MPMC_Queue.capacity q) /\
    (forall s, In s (MPMC_Queue.buffer_ q) -> Slot.turn s = 0) /\
    MPMC_Queue.head_ q = 0 /\ MPMC_Queue.tail_ q = 0.
Proof.
  split; [lia|]. split; [reflexivity|].
  apply (proj2 (ctor_capacity_error (T:=Z) (fun n => n <=? 5) 4)); [lia|reflexivity].
Defined.


(** ** Extraction of a value *)
Section Extraction.
Context {T : Type} `{MPMC_Type T}.
Implicit Types (q : MPMC_Queue.t T) (v : T).

Lemma slot_turn_set_slot q j (s : Slot.t T) i :
  Slot.turn s = Slot.turn (MPMC_Queue.slot q j) ->
  Slot.turn (MPMC_Queue.slot (MPMC_Queue.set_slot q j s) i)
  = Slot.turn (MPMC_Queue.slot q i).
Proof.
  intros Hs. unfold MPMC_Queue.slot, MPMC_Queue.set_slot in *. simpl.
  destruct (decide (Z.to_nat j = Z.to_nat i)) as [Heq|Hne].
  - rewrite <- Heq.
    destruct (decide (Z.to_nat j < length (MPMC_Queue.buffer_ q))%nat) as [Hlt|Hge].
    + rewrite list_lookup_insert_eq by exact Hlt. exact Hs.
    + rewrite list_insert_ge by lia. reflexivity.
  - rewrite list_lookup_insert_ne by exact Hne. reflexivity.
Qed.

Lemma slot_data_set_slot q j (s : Slot.t T) i :
  Slot.data_ s = Slot.data_ (MPMC_Queue.slot q j) ->
  Slot.data_ (MPMC_Queue.slot (MPMC_Queue.set_slot q j s) i)
  = Slot.data_ (MPMC_Queue.slot q i).
Proof.
  intros Hs. unfold MPMC_Queue.slot, MPMC_Queue.set_slot in *. simpl.
  destruct (decide (Z.to_nat j = Z.to_nat i)) as [Heq|Hne].
  - rewrite <- Heq.
    destruct (decide (Z.to_nat j < length (MPMC_Queue.buffer_ q))%nat) as [Hlt|Hge].
    + rewrite list_lookup_insert_eq by exact Hlt. exact Hs.
    + rewrite list_insert_ge by lia. reflexivity.
  - rewrite list_lookup_insert_ne by exact Hne. reflexivity.
Qed.

(** C9.  [return_value] hands back the resident value and leaves the slot
    as it is, generation and value.  In [pop] and [try_pop] the step that
    extracts the value (line 233, line 247) changes no generation and
    neither counter; the generation moves in the next step only, the
    store of line 234 (line 248), which sets the generation of the slot of
    the claimed position to twice the round plus two and leaves the values
    and the other generations alone. *)
Theorem return_value_frame (s : Slot.t T) (q : MPMC_Queue.t T) (tail : Z) (x : T) :
  (fst (Slot.return_value s) = Slot.data_ s /\ snd (Slot.return_value s) = s) /\
  (let i := tail mod MPMC_Queue.capacity_ q in
   fst (MPMC_Queue.pop_step (MPMC_Queue.P_take tail) q)
     = MPMC_Queue.P_store tail (Slot.data_ (MPMC_Queue.slot q i)) /\
   fst (MPMC_Queue.try_pop_step x (MPMC_Queue.TP_take tail) q)
     = MPMC_Queue.TP_store tail (Slot.data_ (MPMC_Queue.slot q i)) /\
   forall q', q' = snd (MPMC_Queue.pop_step (MPMC_Queue.P_take tail) q) \/
              q' = snd (MPMC_Queue.try_pop_step x (MPMC_Queue.TP_take tail) q) ->
     (forall j, Slot.turn (MPMC_Queue.slot q' j) = Slot.turn (MPMC_Queue.slot q j)) /\
     MPMC_Queue.head_ q' = MPMC_Queue.head_ q /\
     MPMC_Queue.tail_ q' = MPMC_Queue.tail_ q /\
     MPMC_Queue.capacity_ q' = MPMC_Queue.capacity_ q) /\
  (let i := tail mod MPMC_Queue.capacity_ q in
   fst (MPMC_Queue.pop_step (MPMC_Queue.P_store tail x) q) = MPMC_Queue.P_ret tail x /\
   fst (MPMC_Queue.try_pop_step x (MPMC_Queue.TP_store tail x) q)
     = MPMC_Queue.TP_ret tail true x /\
   forall q', q' = snd (MPMC_Queue.pop_step (MPMC_Queue.P_store tail x) q) \/
              q' = snd (MPMC_Queue.try_pop_step x (MPMC_Queue.TP_store tail x) q) ->
     (0 <= i -> (Z.to_nat i < length (MPMC_Queue.buffer_ q))%nat ->
      Slot.turn (MPMC_Queue.slot q' i) = wrap (MPMC_Queue.turn q tail * 2 + 2)) /\
     (forall j, 0 <= i -> 0 <= j -> j <> i ->
                Slot.turn (MPMC_Queue.slot q' j) = Slot.turn (MPMC_Queue.slot q j)) /\
     (forall j, Slot.data_ (MPMC_Queue.slot q' j) = Slot.data_ (MPMC_Queue.slot q j))).
Proof.
  split; [split; reflexivity|]. split.
  - cbv zeta. split; [reflexivity|]. split; [reflexivity|].
    intros q' Hq'.
    assert (q' = MPMC_Queue.set_slot q (tail mod MPMC_Queue.capacity_ q)
                   (Slot.moved_out (MPMC_Queue.slot q (tail mod MPMC_Queue.capacity_ q)))) as ->.
    { destruct Hq' as [->| ->]; reflexivity. }
    split; [|auto]. intros j. apply slot_turn_set_slot. reflexivity.
  - cbv zeta. split; [reflexivity|]. split; [reflexivity|].
    intros q' Hq'.
    assert (q' = MPMC_Queue.set_slot q (tail mod MPMC_Queue.capacity_ q)
                   (Slot.store_turn (wrap (MPMC_Queue.turn q tail * 2 + 2))
                      (MPMC_Queue.slot q (tail mod MPMC_Queue.capacity_ q)))) as ->.
    { destruct Hq' as [->| ->]; reflexivity. }
    split; [|split].
    + intros Hi Hlt. rewrite slot_set_slot_eq by assumption. reflexivity.
    + intros j Hi Hj Hne. rewrite slot_set_slot_ne by (assumption || congruence).
      reflexivity.
    + intros j. apply slot_data_set_slot. reflexivity.
Qed.

End Extraction.

Lemma return_value_frame_witness :
  let q := MPMC_Queue.mk 2 [Slot.mk 11 1; Slot.mk 12 1] 0 2 in
  Slot.turn (MPMC_Queue.slot (snd (MPMC_Queue.pop_step (MPMC_Queue.P_take 0) q)) 0) = 1 /\
  Slot.turn (MPMC_Queue.slot (snd (MPMC_Queue.pop_step (MPMC_Queue.P_store 0 11) q)) 0) = 2.
Proof.
  intros q. split.
  - apply (proj1 (proj2 (proj2 (proj1 (proj2
             (return_value_frame (T:=Z) (Slot.mk 11 1) q 0 11)))) _ (or_introl eq_refl))).
  - apply (proj1 (proj2 (proj2 (proj2 (proj2
             (return_value_frame (T:=Z) (Slot.mk 11 1) q 0 11)))) _ (or_introl eq_refl)));
      [reflexivity | apply Nat.ltb_lt; reflexivity].
Defined.

(** ** The non-blocking calls *)
Section NonBlocking.
Context {T : Type} `{MPMC_Type T}.
Implicit Types (q : MPMC_Queue.t T) (v : T).

Lemma try_emplace_exec_false v envs s q h q' :
  MPMC_Queue.exec (MPMC_Queue.try_emplace_step v) envs s q = (MPMC_Queue.TE_ret h false, q') ->
  try_emplace_clean s = true /\ q' = MPMC_Queue.interference envs q.
Proof.
  revert s q. induction envs as [|e envs IH]; intros s q Hex; simpl in Hex.
  - injection Hex as -> ->. split; reflexivity.
  - destruct (MPMC_Queue.try_emplace_step v s q) as [s1 q1] eqn:Hstep.
    apply IH in Hex as [Hclean ->].
    destruct s; simpl in Hstep.
    + injection Hstep as <- <-. auto.
    + destruct (_ =? _); injection Hstep as <- <-; auto.
    + destruct (_ =? _); injection Hstep as <- <-; [discriminate|auto].
    + injection Hstep as <- <-. discriminate.
    + injection Hstep as <- <-. discriminate.
    + destruct (_ =? _); injection Hstep as <- <-; auto.
    + injection Hstep as <- <-. auto.
Qed.

Lemma try_pop_exec_false val0 envs s q h val q' :
  MPMC_Queue.exec (MPMC_Queue.try_pop_step val0) envs s q
  = (MPMC_Queue.TP_ret h false val, q') ->
  try_pop_clean val0 s ->
  q' = MPMC_Queue.interference envs q /\ val = val0.
Proof.
  revert s q. induction envs as [|e envs IH]; intros s q Hex Hs; simpl in Hex.
  - injection Hex as -> ->. split; [reflexivity|exact Hs].
  - destruct (MPMC_Queue.try_pop_step val0 s q) as [s1 q1] eqn:Hstep.
    destruct s; simpl in Hstep, Hs; try contradiction.
    + injection Hstep as <- <-. apply IH in Hex; simpl; auto.
    + destruct (_ =? _); injection Hstep as <- <-; apply IH in Hex; simpl; auto.
    + destruct (_ =? _); injection Hstep as <- <-.
      * exfalso. clear -Hex. revert q e Hex.
        assert (forall envs s q,
                  match s with
                  | MPMC_Queue.TP_take _ | MPMC_Queue.TP_store _ _
                  | MPMC_Queue.TP_ret _ true _ => True
                  | _ => False
                  end ->
                  fst (MPMC_Queue.exec (MPMC_Queue.try_pop_step val0) envs s q)
                  <> MPMC_Queue.TP_ret h false val) as Hdirty.
        { clear. induction envs as [|e envs IH]; intros s q Hs.
          - simpl. destruct s as [| | | | | |? []]; try contradiction; discriminate.
          - simpl. destruct s as [| | | | | |? []]; try contradiction; simpl; apply IH; exact I. }
        intros q e Hex. apply (Hdirty envs (MPMC_Queue.TP_take tail)
                                  (e (MPMC_Queue.set_tail q (wrap (tail + 1)))) I).
        rewrite Hex. reflexivity.
      * apply IH in Hex; simpl; auto.
    + destruct (_ =? _); injection Hstep as <- <-; apply IH in Hex; simpl; auto.
    + destruct r; [contradiction|]. injection Hstep as <- <-. apply IH in Hex; simpl; auto.
Qed.

(** C10.  A [try_emplace] that returns [false] has left the queue as it
    was: counters, generations and values; a [try_pop] that returns [false]
    has left the queue and the caller's variable as they were.  This holds
    for a call that runs alone, and when other threads act between its
    steps the queue at the return is what those threads alone have made of
    it. *)
Theorem failed_call_changes_nothing (v val0 : T) (q : MPMC_Queue.t T) :
  (forall fuel h q',
     MPMC_Queue.try_emplace fuel v q = Some (false, h, q') -> q' = q) /\
  (forall fuel val h q',
     MPMC_Queue.try_pop fuel val0 q = Some (false, val, h, q') -> q' = q /\ val = val0) /\
  (forall envs h q',
     MPMC_Queue.exec (MPMC_Queue.try_emplace_step v) envs MPMC_Queue.TE_load q
     = (MPMC_Queue.TE_ret h false, q') ->
     q' = MPMC_Queue.interference envs q) /\
  (forall envs h val q',
     MPMC_Queue.exec (MPMC_Queue.try_pop_step val0) envs MPMC_Queue.TP_load q
     = (MPMC_Queue.TP_ret h false val, q') ->
     q' = MPMC_Queue.interference envs q /\ val = val0).
Proof.
  split; [|split; [|split]].
  - intros fuel h q' Hr. apply try_emplace_inv in Hr.
    destruct (writable q); [discriminate|]. congruence.
  - intros fuel val h q' Hr. apply try_pop_inv in Hr.
    destruct (readable q); [discriminate|]. injection Hr as -> _ ->. auto.
  - intros envs h q' Hex. apply try_emplace_exec_false in Hex as [_ ->]. reflexivity.
  - intros envs h val q' Hex. eapply try_pop_exec_false; [exact Hex|exact I].
Qed.

End NonBlocking.

Lemma failed_call_changes_nothing_witness :
  let q := MPMC_Queue.mk 1 [Slot.mk 1 1] 0 1 in
  MPMC_Queue.try_emplace 5 2 q = Some (false, 1, q) /\
  MPMC_Queue.try_pop 5 9 (taken q) = Some (false, 9, 1, taken q) /\
  q = q /\ (taken q = taken q /\ 9 = 9).
Proof.
  intros q. split; [reflexivity|]. split; [reflexivity|]. split.
  - apply (proj1 (failed_call_changes_nothing (T:=Z) 2 0 q) 5%nat 1 q). reflexivity.
  - apply (proj1 (proj2 (failed_call_changes_nothing (T:=Z) 2 9 (taken q))) 5%nat 9 1 (taken q)).
    reflexivity.
Defined.

Section TryEmplace.
Context {T : Type} `{MPMC_Type T}.
Implicit Types (q : MPMC_Queue.t T) (v : T).

(** C5.  [try_emplace] returns [false] from exactly one place: the
    re-read of [head_] (lines 197-201) when it finds the value observed
    before; that re-read is reached exactly when the generation of the
    candidate slot differs from twice the round of the observed head
    (line 186).  A re-read that finds another head goes round the loop
    with it; a slot in the expected phase leads to the compare-and-swap
    on [head_], whose failure also goes round the loop and whose success
    is followed by the write of the value, the store of the generation and
    the return of [true], whatever other threads do meanwhile.  Alone, the
    call returns [false] exactly when the slot of [head_] is not in the
    expected phase. *)
Theorem try_emplace_false_exactly (v : T) (q : MPMC_Queue.t T) :
  (forall s h,
     MPMC_Queue.try_emplace_returned s = false ->
     fst (MPMC_Queue.try_emplace_step v s q) = MPMC_Queue.TE_ret h false
     <-> s = MPMC_Queue.TE_reread h /\ MPMC_Queue.head_ q = h) /\
  (forall s h,
     fst (MPMC_Queue.try_emplace_step v s q) = MPMC_Queue.TE_reread h
     <-> s = MPMC_Queue.TE_check h /\
         wrap (MPMC_Queue.turn q h * 2)
         <> Slot.turn (MPMC_Queue.slot q (h mod MPMC_Queue.capacity_ q))) /\
  (forall h,
     MPMC_Queue.head_ q <> h ->
     MPMC_Queue.try_emplace_step v (MPMC_Queue.TE_reread h) q
     = (MPMC_Queue.TE_check (MPMC_Queue.head_ q), q)) /\
  (forall h,
     wrap (MPMC_Queue.turn q h * 2)
     = Slot.turn (MPMC_Queue.slot q (h mod MPMC_Queue.capacity_ q)) ->
     MPMC_Queue.try_emplace_step v (MPMC_Queue.TE_check h) q = (MPMC_Queue.TE_cas h, q)) /\
  (forall h,
     MPMC_Queue.try_emplace_step v (MPMC_Queue.TE_cas h) q
     = if MPMC_Queue.head_ q =? h
       then (MPMC_Queue.TE_assign h, MPMC_Queue.set_head q (wrap (h + 1)))
       else (MPMC_Queue.TE_check (MPMC_Queue.head_ q), q)) /\
  (forall h e1 e2,
     fst (MPMC_Queue.exec (MPMC_Queue.try_emplace_step v) [e1; e2] (MPMC_Queue.TE_assign h) q)
     = MPMC_Queue.TE_ret h true) /\
  (forall n,
     MPMC_Queue.run (MPMC_Queue.try_emplace_step v) MPMC_Queue.try_emplace_returned
       (3 + n) (MPMC_Queue.TE_cas (MPMC_Queue.head_ q)) q
     = Some (MPMC_Queue.TE_ret (MPMC_Queue.head_ q) true, written v q)) /\
  (forall n,
     MPMC_Queue.try_emplace (5 + n) v q
     = Some (if writable q then (true, MPMC_Queue.head_ q, written v q)
             else (false, MPMC_Queue.head_ q, q))).
Proof.
  split; [|split; [|split; [|split; [|split; [|split; [|split]]]]]].
  - intros s h Hs. split.
    + intros Hstep. destruct s; simpl in *; try discriminate.
      * destruct (_ =? _); discriminate.
      * destruct (_ =? _); discriminate.
      * destruct (_ =? _) eqn:He; [|discriminate].
        apply Z.eqb_eq in He. injection Hstep as <-. split; [f_equal; symmetry; exact He|reflexivity].
    + intros [-> <-]. simpl. rewrite Z.eqb_refl. reflexivity.
  - intros s h. split.
    + intros Hstep. destruct s; simpl in *; try discriminate.
      * destruct (_ =? _) eqn:He; [discriminate|]. injection Hstep as ->.
        split; [reflexivity|]. apply Z.eqb_neq. exact He.
      * destruct (_ =? _); discriminate.
      * destruct (_ =? _); discriminate.
    + intros [-> Hne]. simpl. apply Z.eqb_neq in Hne. rewrite Hne. reflexivity.
  - intros h Hne. simpl. apply Z.eqb_neq in Hne. rewrite Hne. reflexivity.
  - intros h Heq. simpl. apply Z.eqb_eq in Heq. rewrite Heq. reflexivity.
  - intros h. reflexivity.
  - intros h e1 e2. reflexivity.
  - intros n. simpl. rewrite Z.eqb_refl. simpl. rewrite run_done by reflexivity.
    unfold written. rewrite set_slot_twice. reflexivity.
  - intros n. apply try_emplace_seq. lia.
Qed.

End TryEmplace.

Lemma try_emplace_false_exactly_witness :
  let q := MPMC_Queue.mk 1 [Slot.mk 1 1] 0 1 in
  MPMC_Queue.try_emplace_step 2 (MPMC_Queue.TE_reread 0) q = (MPMC_Queue.TE_check 1, q) /\
  MPMC_Queue.try_emplace_step 2 (MPMC_Queue.TE_check 1) (taken q)
  = (MPMC_Queue.TE_cas 1, taken q) /\
  fst (MPMC_Queue.try_emplace_step 2 (MPMC_Queue.TE_reread 1) q) = MPMC_Queue.TE_ret 1 false.
Proof.
  intros q. split; [|split].
  - apply (proj1 (proj2 (proj2 (try_emplace_false_exactly (T:=Z) 2 q))) 0). discriminate.
  - apply (proj1 (proj2 (proj2 (proj2 (try_emplace_false_exactly (T:=Z) 2 (taken q))))) 1).
    reflexivity.
  - apply (proj1 (try_emplace_false_exactly (T:=Z) 2 q) (MPMC_Queue.TE_reread 1) 1 eq_refl).
    split; reflexivity.
Defined.

(** ** Order of delivery and occupancy *)
Section Fifo_order.
Context {T : Type} `{MPMC_Type T}.
Implicit Types (q : MPMC_Queue.t T) (v : T) (w : client T).

Lemma refines_new allocate c q :
  c <= MAX_SIZE_T -> MPMC_Queue.ctor allocate c = inr q ->
  refines (MPMC_Queue.capacity q) (new_client q) [].
Proof.
  intros Hmax Hctor. exists []. split; [reflexivity|]. simpl. split.
  - eapply holds_ctor; eassumption.
  - eapply steady_ctor; eassumption.
Qed.

Lemma do_calls_fifo allocate c q (cs : list (call T)) fuel :
  c <= MAX_SIZE_T -> MPMC_Queue.ctor allocate c = inr q ->
  Z.of_nat (length cs) <= MAX_SIZE_T -> (5 <= fuel)%nat ->
  option_map returns (do_calls fuel cs (new_client q))
  = fifo_calls (MPMC_Queue.capacity q) cs [] T_default.
Proof.
  intros Hmax Hctor Hlen Hf.
  rewrite (do_calls_refines fuel (MPMC_Queue.capacity q) cs (new_client q) []).
  - simpl. destruct (fifo_calls _ _ _ _); reflexivity.
  - apply (refines_new allocate c); assumption.
  - apply ctor_inr in Hctor as [_ ->]. simpl. lia.
  - exact Hf.
Qed.

(** C1.  One client calls [push], [emplace], [try_push], [try_emplace],
    [pop] and [try_pop] on a freshly constructed queue, in any order.
    Whenever the calls return, the values consumed so far, each with the
    position its consumer has claimed, are the first of the values
    produced, each with the position its producer has claimed, in the same
    order.  As long as the counters have not wrapped, the calls return
    exactly when, and hand back exactly what, the same calls do on a
    first-in first-out queue of [capacity()] values: in particular every
    sequence that never pops from an empty queue (nor blocks on a full
    one) runs to its end. *)
Theorem fifo_by_position (allocate : Z -> bool) (c : Z) (q : MPMC_Queue.t T)
    (cs : list (call T)) (fuel : nat) :
  c <= MAX_SIZE_T ->
  MPMC_Queue.ctor allocate c = inr q ->
  (forall w, do_calls fuel cs (new_client q) = Some w ->
             consumed w = take (length (consumed w)) (produced w)) /\
  (Z.of_nat (length cs) <= MAX_SIZE_T -> (5 <= fuel)%nat ->
   option_map returns (do_calls fuel cs (new_client q))
   = fifo_calls (MPMC_Queue.capacity q) cs [] T_default).
Proof.
  intros Hmax Hctor. split.
  - intros w Hrun.
    pose proof (client_holds_new allocate c q Hmax Hctor) as Hnew.
    destruct (do_calls_holds fuel _ cs _ w Hnew Hrun) as (rest & -> & _).
    rewrite take_app_length. reflexivity.
  - intros Hlen Hf. apply (do_calls_fifo allocate c); assumption.
Qed.

Lemma try_push_full fuel (us : list T) w :
  (5 <= fuel)%nat -> writable (queue w) = false ->
  exists w', do_calls fuel (map Try_push us) w = Some w' /\
             queue w' = queue w /\
             produced w' = produced w /\ consumed w' = consumed w /\
             returns w' = returns w ++ map (fun _ => ret_bool false) us.
Proof.
  intros Hf. revert w. induction us as [|u us IH]; intros w Hw; simpl.
  - exists w. rewrite app_nil_r. auto.
  - unfold MPMC_Queue.try_push. rewrite try_emplace_seq by exact Hf. rewrite Hw.
    destruct (IH (mk_client (queue w) (val w) (produced w) (consumed w)
                    (returns w ++ [ret_bool false])) Hw)
      as (w' & Hrun & Hq & Hp & Hc & Hr).
    exists w'. simpl in *. rewrite <- app_assoc in Hr. auto.
Qed.

(** C2.  In every state that a client reaches from a freshly constructed
    queue, the unsigned difference [head_ - tail_] is at most the capacity.
    So once as many values as the capacity have been produced with none
    consumed in between, the queue is full: every further [try_push]
    returns [false] and leaves the queue as it is, for as long as nothing
    is popped. *)
Theorem head_tail_bounded (allocate : Z -> bool) (c : Z) (q : MPMC_Queue.t T)
    (cs : list (call T)) (fuel : nat) (w : client T) :
  c <= MAX_SIZE_T ->
  MPMC_Queue.ctor allocate c = inr q ->
  do_calls fuel cs (new_client q) = Some w ->
  wrap (MPMC_Queue.head_ (queue w) - MPMC_Queue.tail_ (queue w)) <= MPMC_Queue.capacity q /\
  (forall cs1 w1,
     do_calls fuel cs1 w = Some w1 ->
     Z.of_nat (length (produced w1)) = Z.of_nat (length (produced w)) + MPMC_Queue.capacity q ->
     consumed w1 = consumed w ->
     (5 <= fuel)%nat ->
     forall us : list T,
     exists w2, do_calls fuel (map Try_push us) w1 = Some w2 /\
                queue w2 = queue w1 /\
                returns w2 = returns w1 ++ map (fun _ => ret_bool false) us).
Proof.
  intros Hmax Hctor Hrun.
  pose proof (client_holds_new allocate c q Hmax Hctor) as Hnew.
  pose proof (do_calls_holds fuel _ cs _ w Hnew Hrun) as Hw.
  split.
  - destruct Hw as (rest & _ & Hq).
    rewrite (holds_difference _ _ _ Hq). apply (holds_len _ _ _ Hq).
  - intros cs1 w1 Hrun1 Hprod Hcons Hf us.
    destruct (do_calls_holds fuel _ cs1 _ w1 Hw Hrun1) as (rest1 & Hlog1 & Hq1).
    destruct Hw as (rest & Hlog & Hq).
    assert (Z.of_nat (length rest1) = MPMC_Queue.capacity q) as Hfull.
    { pose proof (holds_len _ _ _ Hq1) as Hle.
      rewrite Hlog1, Hlog, Hcons, !length_app in Hprod. lia. }
    pose proof (holds_full_not_writable _ _ _ Hq1 Hfull) as Hnw.
    destruct (try_push_full fuel us w1 Hf Hnw) as (w2 & Hrun2 & Hq2 & _ & _ & Hr2).
    exists w2. auto.
Qed.

End Fifo_order.

(** C4.  Capacity one: [try_push(1)] gives [true], [size()] gives [1],
    [try_push(2)] gives [false], [try_pop(val)] gives [true] and [val] is
    [1], [size()] gives [0], and a second [try_pop(val)] gives [false]. *)
Theorem single_slot_saturation (n : nat) :
  exists q : MPMC_Queue.t Z,
    MPMC_Queue.ctor (fun _ => true) 1 = inr q /\
    option_map returns
      (do_calls (5 + n) [Try_push 1; Size; Try_push 2; Try_pop; Size; Try_pop] (new_client q))
    = Some [ret_bool true; ret_int 1; ret_bool false; ret_pop true 1; ret_int 0;
            ret_pop false 1].
Proof.
  eexists. split; [reflexivity|].
  rewrite (do_calls_fifo (fun _ => true) 1); try reflexivity.
  - discriminate.
  - discriminate.
  - lia.
Qed.

Lemma fifo_by_position_witness :
  let q := MPMC_Queue.mk 2 [Slot.mk 0 0; Slot.mk 0 0] 0 0 in
  let cs := [Push 11; Try_push 12; Try_push 13; Pop; Emplace 14; Try_pop; Pop; Try_pop] in
  2 <= MAX_SIZE_T /\ MPMC_Queue.ctor (fun _ => true) 2 = inr q /\
  option_map returns (do_calls 5 cs (new_client q))
  = Some [ret_void; ret_bool true; ret_bool false; ret_pop true 11; ret_void;
          ret_pop true 12; ret_pop true 14; ret_pop false 14].
Proof.
  intros q cs. split; [discriminate|]. split; [reflexivity|].
  apply (proj2 (fifo_by_position (T:=Z) (fun _ => true) 2 q cs 5
                  ltac:(discriminate) eq_refl)); [discriminate|lia].
Defined.

Lemma head_tail_bounded_witness :
  let q := MPMC_Queue.mk 2 [Slot.mk 0 0; Slot.mk 0 0] 0 0 in
  let w := mk_client (MPMC_Queue.mk 2 [Slot.mk 11 1; Slot.mk 12 1] 0 2) 0
             [(0, 11); (1, 12)] [] [ret_void; ret_bool true] in
  do_calls 5 [Push 11; Try_push 12] (new_client q) = Some w /\
  wrap (MPMC_Queue.head_ (queue w) - MPMC_Queue.tail_ (queue w)) <= MPMC_Queue.capacity q.
Proof.
  intros q w. split; [reflexivity|].
  apply (proj1 (head_tail_bounded (T:=Z) (fun _ => true) 2 q [Push 11; Try_push 12] 5 w
                  ltac:(discriminate) eq_refl eq_refl)).
Defined.

(** ** Teardown *)
Section Teardown.
Context {T : Type} `{MPMC_Type T}.
Implicit Types (q : MPMC_Queue.t T) (s : Slot.t T).

Lemma runs_app (j : nat) (l k : list (nat * T)) : runs j (l ++ k) = (runs j l + runs j k)%nat.
Proof. unfold runs. rewrite filter_app, length_app. reflexivity. Qed.

Lemma runs_pair (j i : nat) (l : list T) :
  runs j (map (pair i) l) = if decide (i = j) then length l else 0%nat.
Proof.
  unfold runs. induction l as [|x l IH]; simpl.
  - destruct (decide (i = j)); reflexivity.
  - rewrite filter_cons. simpl. destruct (decide (i = j)) as [Heq|Hne]; simpl.
    + rewrite IH. reflexivity.
    + exact IH.
Qed.

Lemma runs_dtor_loop (f : Slot.t T -> list T) (buffer : list (Slot.t T)) (j n i : nat) :
  runs j (MPMC_Queue.dtor_loop f n i buffer)
  = if decide (i <= j < i + n)%nat
    then match buffer !! j with Some s => length (f s) | None => 0%nat end
    else 0%nat.
Proof.
  revert i. induction n as [|n IH]; intros i; simpl.
  - destruct (decide _); [lia|reflexivity].
  - rewrite runs_app, IH.
    assert (runs j (match buffer !! i with
                    | Some s => map (pair i) (f s)
                    | None => []
                    end)
            = if decide (i = j)
              then match buffer !! j with Some s => length (f s) | None => 0%nat end
              else 0%nat) as ->.
    { destruct (decide (i = j)) as [->|Hne].
      - destruct (buffer !! j); [|reflexivity]. rewrite runs_pair.
        destruct (decide (j = j)); [reflexivity|congruence].
      - destruct (buffer !! i); [|reflexivity]. rewrite runs_pair.
        destruct (decide (i = j)); [congruence|reflexivity]. }
    destruct (decide (i = j)); destruct (decide (S i <= j < S i + n)%nat);
      destruct (decide (i <= j < i + S n)%nat); try lia.
Qed.

(** What the teardown does on a slot whose generation is odd: the explicit
    [destroy()] and then the destruction of the member. *)
Lemma teardown_odd_slot q (i : nat) s :
  length (MPMC_Queue.buffer_ q) = Z.to_nat (MPMC_Queue.capacity_ q) ->
  MPMC_Queue.buffer_ q !! i = Some s -> Z.odd (Slot.turn s) = true ->
  runs i (MPMC_Queue.dtor q) = 2%nat.
Proof.
  intros Hlen Hi Hodd. unfold MPMC_Queue.dtor. rewrite runs_dtor_loop, Hi.
  apply lookup_lt_Some in Hi.
  destruct (decide _); [|lia].
  unfold Slot.dtor, Slot.dtor_body. rewrite land_one_odd, Hodd. reflexivity.
Qed.

(** At teardown [~Slot()] runs once on each of the slots.  Its body calls
    [destroy()] once when the generation of the slot is odd and not at all
    when it is even.  The value member of a slot is an object in every
    phase, default constructed with the slot, so the destruction of the
    slot runs its destructor as well: on a slot whose generation is even
    [~T()] runs once, on the default or moved-from object, and on no slot
    is the object left without a run of [~T()]. *)
Lemma teardown_runs (q : MPMC_Queue.t T) (i : nat) (s : Slot.t T) :
  length (MPMC_Queue.buffer_ q) = Z.to_nat (MPMC_Queue.capacity_ q) ->
  MPMC_Queue.buffer_ q !! i = Some s ->
  runs i (MPMC_Queue.dtor_explicit q) = (if Z.odd (Slot.turn s) then 1%nat else 0%nat) /\
  (Z.odd (Slot.turn s) = false -> runs i (MPMC_Queue.dtor q) = 1%nat) /\
  (1 <= runs i (MPMC_Queue.dtor q))%nat.
Proof.
  intros Hlen Hi. unfold MPMC_Queue.dtor, MPMC_Queue.dtor_explicit.
  rewrite !runs_dtor_loop, Hi.
  apply lookup_lt_Some in Hi.
  destruct (decide _); [|lia].
  unfold Slot.dtor, Slot.dtor_body. rewrite land_one_odd.
  destruct (Z.odd (Slot.turn s)); simpl; split; try split; try reflexivity;
    try discriminate; lia.
Qed.

End Teardown.

(** C7, on a queue that is torn down with a value resident.  A queue of
    owners of capacity one after one [push]: the generation of its slot is
    odd and the pushed value is resident.  The body of [~Slot()] calls
    [destroy()] on it, and the destruction of the member [data_] that
    follows runs [~T()] on it once more: the destructor runs twice on the
    resident value, where it is to run exactly once. *)
Theorem teardown_resident_value_destroyed_twice :
  exists (q : MPMC_Queue.t (option Z)) (w : client (option Z)),
    MPMC_Queue.ctor (fun _ => true) 1 = inr q /\
    do_calls 5 [Push (Some 5)] (new_client q) = Some w /\
    MPMC_Queue.buffer_ (queue w) = [Slot.mk (Some 5) 1] /\
    MPMC_Queue.dtor_explicit (queue w) = [(0%nat, Some 5)] /\
    MPMC_Queue.dtor (queue w) = [(0%nat, Some 5); (0%nat, Some 5)] /\
    runs 0 (MPMC_Queue.dtor (queue w)) = 2%nat /\
    ~ teardown_once_if_odd (queue w).
Proof.
  eexists. eexists. split; [reflexivity|]. split; [reflexivity|].
  split; [reflexivity|]. split; [reflexivity|]. split; [reflexivity|].
  split; [reflexivity|].
  intros Hclaim. specialize (Hclaim 0%nat _ eq_refl). vm_compute in Hclaim. discriminate.
Qed.

(** ** [size()] *)
Section Size.

Lemma do_calls_app {T} `{MPMC_Type T} fuel (cs1 cs2 : list (call T)) (w : client T) :
  do_calls fuel (cs1 ++ cs2) w
  = match do_calls fuel cs1 w with
    | Some w1 => do_calls fuel cs2 w1
    | None => None
    end.
Proof.
  revert w. induction cs1 as [|k cs1 IH]; intros w; simpl; [reflexivity|].
  destruct (do_call fuel k w); [apply IH|reflexivity].
Qed.

(** When [head_] has wrapped and [tail_] has not, [size()] is one less than
    the unsigned difference of the counters. *)
Lemma size_head_wrapped {T} (q : MPMC_Queue.t T) :
  0 <= MPMC_Queue.head_ q < MPMC_Queue.tail_ q -> MPMC_Queue.tail_ q <= MAX_SIZE_T ->
  wrap (MPMC_Queue.head_ q - MPMC_Queue.tail_ q) < 2 ^ 63 ->
  MPMC_Queue.size q = wrap (MPMC_Queue.head_ q - MPMC_Queue.tail_ q) - 1.
Proof.
  intros Hh Ht Hd. unfold MPMC_Queue.size, to_ptrdiff, MAX_SIZE_T in *.
  set (hd := MPMC_Queue.head_ q) in *. set (tl := MPMC_Queue.tail_ q) in *.
  assert (wrap (hd - tl) = hd - tl + 2 ^ 64) as Hw.
  { unfold wrap. symmetry. apply (Z.mod_unique_pos _ _ (-1)); lia. }
  rewrite !wrap_wrap. rewrite Hw in *.
  replace (hd - tl + 2 ^ 64 <? 2 ^ 63) with true by (symmetry; apply Z.ltb_lt; lia).
  rewrite Z.abs_eq by lia.
  rewrite (wrap_small (hd - tl + 2 ^ 64)) by lia.
  rewrite (wrap_small (2 ^ 64 - 1 - tl)) by lia.
  replace (2 ^ 64 - 1 - tl <? hd - tl + 2 ^ 64) with true by (symmetry; apply Z.ltb_lt; lia).
  rewrite (wrap_small (2 ^ 64 - 1 - tl + hd)) by lia.
  replace (2 ^ 64 - 1 - tl + hd <? 2 ^ 63) with true by (symmetry; apply Z.ltb_lt; lia).
  lia.
Qed.

Lemma wrap_mul_l x y : wrap (wrap x * y) = wrap (x * y).
Proof. unfold wrap. apply Zmult_mod_idemp_l. Qed.

Lemma passed_cycle fuel k (w : client Z) :
  (5 <= fuel)%nat -> queue w = passed k ->
  exists w', do_calls fuel [Try_push 0; Try_pop] w = Some w' /\ queue w' = passed (k + 1).
Proof.
  intros Hf Hq. simpl. unfold MPMC_Queue.try_push.
  rewrite try_emplace_seq by exact Hf.
  assert (writable (queue w) = true) as ->.
  { rewrite Hq. unfold writable, passed, MPMC_Queue.turn, MPMC_Queue.slot. simpl.
    rewrite Z.div_1_r, Z.mod_1_r, wrap_mul_l. simpl. apply Z.eqb_refl. }
  simpl. rewrite try_pop_seq by exact Hf.
  assert (readable (written 0 (queue w)) = true) as ->.
  { rewrite Hq. unfold readable, written, passed, MPMC_Queue.turn, MPMC_Queue.slot. simpl.
    rewrite !Z.div_1_r, !Z.mod_1_r. simpl. apply Z.eqb_refl. }
  eexists. split; [reflexivity|]. simpl. rewrite Hq.
  unfold taken, written, front, passed, MPMC_Queue.turn, MPMC_Queue.slot,
    MPMC_Queue.set_slot, MPMC_Queue.set_tail, MPMC_Queue.set_head. simpl.
  rewrite !Z.div_1_r, !Z.mod_1_r. simpl.
  rewrite wrap_add_l. f_equal. f_equal. f_equal.
  rewrite <- (wrap_add_l (wrap k * 2) 2), wrap_mul_l, wrap_add_l. f_equal. lia.
Qed.

Lemma passed_cycles fuel (n : nat) k (w : client Z) :
  (5 <= fuel)%nat -> queue w = passed k ->
  exists w', do_calls fuel (concat (replicate n [Try_push 0; Try_pop])) w = Some w' /\
             queue w' = passed (k + Z.of_nat n).
Proof.
  intros Hf. revert k w. induction n as [|n IH]; intros k w Hq.
  - exists w. simpl. rewrite Z.add_0_r. auto.
  - change (concat (replicate (S n) [Try_push 0; Try_pop]))
      with ([Try_push 0; Try_pop] ++ concat (replicate n [Try_push 0; Try_pop])).
    rewrite do_calls_app.
    destruct (passed_cycle fuel k w Hf Hq) as (w1 & -> & Hq1).
    destruct (IH (k + 1) w1 Hq1) as (w2 & Hrun & Hq2).
    exists w2. split; [exact Hrun|]. rewrite Hq2. f_equal. lia.
Qed.

(** C6, at the wrap of [head_].  A queue of capacity one: after
    [2^64 - 1] values have passed through it one more is pushed, so that
    [head_] has wrapped to [0] and [tail_] is [2^64 - 1].  The unsigned
    difference of the counters is [1], within the capacity, and one value
    is in flight; [size()] returns [0]. *)
Theorem size_at_head_wrap :
  exists (q : MPMC_Queue.t Z) (cs : list (call Z)) (w : client Z),
    MPMC_Queue.ctor (fun _ => true) 1 = inr q /\
    do_calls 5 cs (new_client q) = Some w /\
    MPMC_Queue.head_ (queue w) = 0 /\ MPMC_Queue.tail_ (queue w) = MAX_SIZE_T /\
    wrap (MPMC_Queue.head_ (queue w) - MPMC_Queue.tail_ (queue w)) = 1 /\
    1 <= MPMC_Queue.capacity (queue w) /\
    length (produced w) = S (length (consumed w)) /\
    MPMC_Queue.size (queue w) = 0.
Proof.
  destruct (passed_cycles 5 (Z.to_nat MAX_SIZE_T) 0 (new_client (passed 0)) ltac:(lia) eq_refl)
    as (w1 & Hrun & Hq1).
  rewrite Z2Nat.id in Hq1 by discriminate.
  assert (exists rest, produced w1 = consumed w1 ++ rest /\ length rest = 0%nat) as Hlog.
  { pose proof (client_holds_new (T:=Z) (fun _ => true) 1 (passed 0) ltac:(discriminate) eq_refl)
      as Hnew.
    destruct (do_calls_holds 5 _ _ _ w1 Hnew Hrun) as (rest & Hlog & Hq).
    exists rest. split; [exact Hlog|].
    pose proof (holds_difference _ _ _ Hq) as Hd. rewrite Hq1 in Hd.
    change (wrap (MPMC_Queue.head_ (passed (0 + MAX_SIZE_T))
                  - MPMC_Queue.tail_ (passed (0 + MAX_SIZE_T)))) with 0 in Hd. lia. }
  destruct Hlog as (rest & Hlog & Hrest).
  exists (passed 0), (concat (replicate (Z.to_nat MAX_SIZE_T) [Try_push 0; Try_pop]) ++ [Try_push 7]).
  eexists. split; [reflexivity|]. rewrite do_calls_app, Hrun.
  simpl. unfold MPMC_Queue.try_push. rewrite try_emplace_seq by lia. rewrite Hq1.
  change (writable (passed (0 + MAX_SIZE_T))) with true. cbv iota.
  split; [reflexivity|]. simpl.
  split; [reflexivity|]. split; [reflexivity|]. split; [reflexivity|].
  split; [unfold MPMC_Queue.capacity; simpl; lia|].
  split; [|reflexivity].
  rewrite Hlog, !length_app, Hrest. simpl. lia.
Qed.

End Size.

(** * Further properties of the code *)

(** ** [size()] and [empty()] while the counters have not wrapped *)
Section Occupancy.
Context {T : Type} `{MPMC_Type T}.
Implicit Types (q : MPMC_Queue.t T) (v : T) (w : client T).

Lemma do_calls_refines_end fuel c (cs : list (call T)) w items w' :
  refines c w items ->
  MPMC_Queue.head_ (queue w) + Z.of_nat (length cs) <= MAX_SIZE_T -> (5 <= fuel)%nat ->
  do_calls fuel cs w = Some w' ->
  exists items', refines c w' items'.
Proof.
  revert w items. induction cs as [|k cs IH]; intros w items Hw Hlen Hf Hrun; simpl in Hrun.
  - injection Hrun as <-. exists items. exact Hw.
  - simpl length in Hlen.
    pose proof (do_call_refines fuel c k w items Hw ltac:(lia) Hf) as Hk.
    destruct (fifo_call c k items (val w)) as [[[r items1] val1]|].
    + destruct Hk as (w1 & Hk & _ & _ & Hw1 & Hh). rewrite Hk in Hrun.
      apply (IH w1 items1 Hw1); [lia|exact Hf|exact Hrun].
    + rewrite Hk in Hrun. discriminate.
Qed.

Lemma to_ptrdiff_small x : 0 <= x < 2 ^ 63 -> to_ptrdiff x = x.
Proof.
  intros Hx. unfold to_ptrdiff. rewrite wrap_small by lia.
  replace (x <? 2 ^ 63) with true by (symmetry; apply Z.ltb_lt; lia). reflexivity.
Qed.

(** [size()] is the number of values produced and not yet consumed, and
    [empty()] tells whether there is none, for a client that has made fewer
    than [2^64] calls on a queue of fewer than [2^63] slots. *)
Theorem size_counts_values (allocate : Z -> bool) (c : Z) (q : MPMC_Queue.t T)
    (cs : list (call T)) (fuel : nat) (w : client T) :
  c <= MAX_SIZE_T ->
  MPMC_Queue.ctor allocate c = inr q ->
  MPMC_Queue.capacity q < 2 ^ 63 ->
  Z.of_nat (length cs) <= MAX_SIZE_T -> (5 <= fuel)%nat ->
  do_calls fuel cs (new_client q) = Some w ->
  MPMC_Queue.size (queue w)
  = Z.of_nat (length (produced w)) - Z.of_nat (length (consumed w)) /\
  0 <= MPMC_Queue.size (queue w) <= MPMC_Queue.capacity q /\
  (MPMC_Queue.empty (queue w) = true <-> length (produced w) = length (consumed w)).
Proof.
  intros Hmax Hctor Hcap Hlen Hf Hrun.
  pose proof (client_holds_new allocate c q Hmax Hctor) as Hnew.
  destruct (do_calls_holds fuel _ cs _ w Hnew Hrun) as (rest & Hlog & Hq).
  destruct (do_calls_refines_end fuel (MPMC_Queue.capacity q) cs (new_client q) [] w)
    as (items & rest' & _ & _ & Hs); [apply (refines_new allocate c); assumption| |exact Hf|exact Hrun|].
  { apply ctor_inr in Hctor as [_ ->]. simpl. lia. }
  pose proof (steady_count _ _ _ Hq Hs) as Hn.
  pose proof (holds_len _ _ _ Hq) as Hle.
  assert (MPMC_Queue.size (queue w) = Z.of_nat (length rest)) as Hsize.
  { rewrite size_no_wrap, Hn; [|apply Hs|apply Hs]. apply to_ptrdiff_small. lia. }
  assert (Z.of_nat (length (produced w)) - Z.of_nat (length (consumed w))
          = Z.of_nat (length rest)) as Hcount.
  { rewrite Hlog, length_app. lia. }
  split; [lia|]. split; [lia|].
  unfold MPMC_Queue.empty. rewrite Hsize, Z.leb_le. lia.
Qed.

End Occupancy.

Lemma size_counts_values_witness :
  let q := MPMC_Queue.mk 2 [Slot.mk 0 0; Slot.mk 0 0] 0 0 in
  let w := mk_client (MPMC_Queue.mk 2 [Slot.mk 11 2; Slot.mk 12 1] 1 2) 11
             [(0, 11); (1, 12)] [(0, 11)] [ret_void; ret_bool true; ret_pop true 11] in
  do_calls 5 [Push 11; Try_push 12; Pop] (new_client q) = Some w /\
  MPMC_Queue.size (queue w) = 2 - 1.
Proof.
  intros q w. split; [reflexivity|].
  apply (proj1 (size_counts_values (T:=Z) (fun _ => true) 2 q [Push 11; Try_push 12; Pop] 5 w
                  ltac:(discriminate) eq_refl eq_refl ltac:(discriminate) ltac:(lia) eq_refl)).
Defined.

(** ** Blocking calls on a full or an empty queue *)
Section Blocking.
Context {T : Type} `{MPMC_Type T}.
Implicit Types (q : MPMC_Queue.t T) (v : T) (w : client T).

Lemma emplace_exec_spins v q (n : nat) :
  writable q = false ->
  MPMC_Queue.exec (MPMC_Queue.emplace_step v) (replicate (S n) (fun q' => q'))
    MPMC_Queue.EM_fetch_add q
  = (MPMC_Queue.EM_spin (MPMC_Queue.head_ q),
     MPMC_Queue.set_head q (wrap (MPMC_Queue.head_ q + 1))).
Proof.
  intros Hw. unfold writable in Hw. simpl.
  induction n as [|n IH]; simpl; [reflexivity|].
  change (MPMC_Queue.slot (MPMC_Queue.set_head q _) ?i) with (MPMC_Queue.slot q i).
  change (MPMC_Queue.turn (MPMC_Queue.set_head q _) ?i) with (MPMC_Queue.turn q i).
  rewrite Hw. simpl. exact IH.
Qed.

Lemma pop_exec_spins q (n : nat) :
  readable q = false ->
  MPMC_Queue.exec MPMC_Queue.pop_step (replicate (S n) (fun q' => q'))
    MPMC_Queue.P_fetch_add q
  = (MPMC_Queue.P_spin (MPMC_Queue.tail_ q),
     MPMC_Queue.set_tail q (wrap (MPMC_Queue.tail_ q + 1))).
Proof.
  intros Hr. unfold readable in Hr. simpl.
  induction n as [|n IH]; simpl; [reflexivity|].
  change (MPMC_Queue.slot (MPMC_Queue.set_tail q _) ?i) with (MPMC_Queue.slot q i).
  change (MPMC_Queue.turn (MPMC_Queue.set_tail q _) ?i) with (MPMC_Queue.turn q i).
  rewrite Hr. simpl. exact IH.
Qed.

(** With no other thread running, [emplace] and [push] on a full queue and
    [pop] on an empty queue never return, however many steps they are
    given.  They have claimed their position before they wait: the blocked
    producer has moved [head_] one past [tail_ + capacity], the blocked
    consumer has moved [tail_] one past [head_]. *)
Theorem blocking_call_alone_never_returns (allocate : Z -> bool) (c : Z)
    (q : MPMC_Queue.t T) (cs : list (call T)) (fuel : nat) (w : client T) :
  c <= MAX_SIZE_T ->
  MPMC_Queue.ctor allocate c = inr q ->
  do_calls fuel cs (new_client q) = Some w ->
  (Z.of_nat (length (produced w))
   = Z.of_nat (length (consumed w)) + MPMC_Queue.capacity q ->
   forall (n : nat) v,
     MPMC_Queue.emplace n v (queue w) = None /\
     MPMC_Queue.push n v (queue w) = None /\
     MPMC_Queue.exec (MPMC_Queue.emplace_step v) (replicate (S n) (fun q' => q'))
       MPMC_Queue.EM_fetch_add (queue w)
     = (MPMC_Queue.EM_spin (MPMC_Queue.head_ (queue w)),
        MPMC_Queue.set_head (queue w) (wrap (MPMC_Queue.head_ (queue w) + 1)))) /\
  (length (produced w) = length (consumed w) ->
   forall n : nat,
     MPMC_Queue.pop n (queue w) = None /\
     MPMC_Queue.exec MPMC_Queue.pop_step (replicate (S n) (fun q' => q'))
       MPMC_Queue.P_fetch_add (queue w)
     = (MPMC_Queue.P_spin (MPMC_Queue.tail_ (queue w)),
        MPMC_Queue.set_tail (queue w) (wrap (MPMC_Queue.tail_ (queue w) + 1)))).
Proof.
  intros Hmax Hctor Hrun.
  pose proof (client_holds_new allocate c q Hmax Hctor) as Hnew.
  destruct (do_calls_holds fuel _ cs _ w Hnew Hrun) as (rest & Hlog & Hq).
  split.
  - intros Hfull n v.
    assert (writable (queue w) = false) as Hw.
    { apply (holds_full_not_writable _ _ rest Hq).
      rewrite Hlog, length_app in Hfull. lia. }
    unfold MPMC_Queue.push. rewrite emplace_blocked by exact Hw.
    split; [reflexivity|]. split; [reflexivity|]. apply emplace_exec_spins. exact Hw.
  - intros Hnone n.
    assert (rest = []) as ->.
    { rewrite Hlog, length_app in Hnone. destruct rest; [reflexivity|simpl in Hnone; lia]. }
    pose proof (holds_empty_not_readable _ _ Hq) as Hr.
    rewrite pop_blocked by exact Hr. split; [reflexivity|].
    apply pop_exec_spins. exact Hr.
Qed.

End Blocking.

Lemma blocking_call_alone_never_returns_witness :
  let q := MPMC_Queue.mk 1 [Slot.mk 0 0] 0 0 in
  let w := mk_client (MPMC_Queue.mk 1 [Slot.mk 11 1] 0 1) 0 [(0, 11)] [] [ret_void] in
  do_calls 5 [Push 11] (new_client q) = Some w /\
  MPMC_Queue.emplace 1000 12 (queue w) = None.
Proof.
  intros q w. split; [reflexivity|].
  apply (proj1 (blocking_call_alone_never_returns (T:=Z) (fun _ => true) 1 q [Push 11] 5 w
                  ltac:(discriminate) eq_refl eq_refl) eq_refl 1000%nat 12).
Defined.

(** ** A blocked call and the thread that releases it *)
Section Handoff.
Context {T : Type} `{MPMC_Type T}.
Implicit Types (q : MPMC_Queue.t T) (v : T) (w : client T).

Lemma taken_set_head q h : taken (MPMC_Queue.set_head q h) = MPMC_Queue.set_head (taken q) h.
Proof. reflexivity. Qed.

Lemma written_set_tail v q t :
  written v (MPMC_Queue.set_tail q t) = MPMC_Queue.set_tail (written v q) t.
Proof. reflexivity. Qed.

Lemma emplace_handoff c v q :
  steady c q -> MPMC_Queue.head_ q - MPMC_Queue.tail_ q = c ->
  MPMC_Queue.exec (MPMC_Queue.emplace_step v)
    [(fun q' => q'); taken; (fun q' => q'); (fun q' => q'); (fun q' => q')]
    MPMC_Queue.EM_fetch_add q
  = (MPMC_Queue.EM_ret (MPMC_Queue.head_ q), written v (taken q)).
Proof.
  intros Hs Hfull.
  assert (writable q = false) as Hw.
  { rewrite (steady_writable c q Hs). apply Z.ltb_ge. lia. }
  assert (readable q = true) as Hr.
  { rewrite (steady_readable c q Hs). apply Z.ltb_lt.
    destruct Hs as [(_ & _ & ?) _ _ _ _ _]. lia. }
  assert (writable (taken q) = true) as Hw'.
  { rewrite (steady_writable c _ (steady_taken c q Hs Hr)). apply Z.ltb_lt.
    replace (MPMC_Queue.tail_ (taken q)) with (wrap (MPMC_Queue.tail_ q + 1)) by reflexivity.
    change (MPMC_Queue.head_ (taken q)) with (MPMC_Queue.head_ q).
    destruct Hs as [(_ & _ & Hc) Ht _ Hm _ _]. unfold MAX_SIZE_T in *.
    rewrite wrap_small; lia. }
  unfold writable in Hw, Hw'. simpl.
  change (MPMC_Queue.slot (MPMC_Queue.set_head q _) ?i) with (MPMC_Queue.slot q i).
  change (MPMC_Queue.turn (MPMC_Queue.set_head q _) ?i) with (MPMC_Queue.turn q i).
  rewrite Hw. simpl. rewrite taken_set_head.
  change (MPMC_Queue.slot (MPMC_Queue.set_head (taken q) _) ?i)
    with (MPMC_Queue.slot (taken q) i).
  change (MPMC_Queue.turn (MPMC_Queue.set_head (taken q) _) ?i)
    with (MPMC_Queue.turn (taken q) i).
  change (MPMC_Queue.capacity_ (MPMC_Queue.set_head (taken q) _))
    with (MPMC_Queue.capacity_ (taken q)).
  change (MPMC_Queue.head_ (taken q)) with (MPMC_Queue.head_ q) in Hw'.
  change (MPMC_Queue.capacity_ (taken q)) with (MPMC_Queue.capacity_ q) in *.
  rewrite Hw'. simpl. rewrite set_slot_twice. reflexivity.
Qed.

Lemma pop_handoff c v q :
  steady c q -> MPMC_Queue.head_ q = MPMC_Queue.tail_ q ->
  MPMC_Queue.head_ q < MAX_SIZE_T ->
  MPMC_Queue.exec MPMC_Queue.pop_step
    [(fun q' => q'); written v; (fun q' => q'); (fun q' => q'); (fun q' => q')]
    MPMC_Queue.P_fetch_add q
  = (MPMC_Queue.P_ret (MPMC_Queue.tail_ q) v, taken (written v q)).
Proof.
  intros Hs Hempty Hlt.
  assert (1 <= c) as Hc1 by (destruct Hs as [(_ & _ & ?) _ _ _ _ _]; lia).
  assert (readable q = false) as Hr.
  { rewrite (steady_readable c q Hs). apply Z.ltb_ge. lia. }
  assert (writable q = true) as Hw.
  { rewrite (steady_writable c q Hs). apply Z.ltb_lt. lia. }
  assert (MPMC_Queue.head_ (written v q) = MPMC_Queue.head_ q + 1) as Hh.
  { unfold written. simpl. destruct Hs as [_ Ht _ _ _ _].
    unfold MAX_SIZE_T in Hlt. rewrite wrap_small; lia. }
  assert (readable (written v q) = true) as Hr'.
  { rewrite (steady_readable c _ (steady_written c q v Hs Hw Hlt)). apply Z.ltb_lt.
    rewrite Hh. change (MPMC_Queue.tail_ (written v q)) with (MPMC_Queue.tail_ q). lia. }
  assert (front (written v q) = v) as Hfront.
  { unfold front. change (MPMC_Queue.tail_ (written v q)) with (MPMC_Queue.tail_ q).
    rewrite <- Hempty. destruct (steady_wf _ _ Hs) as (Hc & _).
    change (MPMC_Queue.capacity_ (written v q)) with (MPMC_Queue.capacity_ q).
    rewrite Hc, (slot_written_eq c) by apply Hs. reflexivity. }
  unfold readable in Hr, Hr'. simpl.
  change (MPMC_Queue.slot (MPMC_Queue.set_tail q _) ?i) with (MPMC_Queue.slot q i).
  change (MPMC_Queue.turn (MPMC_Queue.set_tail q _) ?i) with (MPMC_Queue.turn q i).
  rewrite Hr. simpl. rewrite written_set_tail.
  change (MPMC_Queue.slot (MPMC_Queue.set_tail (written v q) _) ?i)
    with (MPMC_Queue.slot (written v q) i).
  change (MPMC_Queue.turn (MPMC_Queue.set_tail (written v q) _) ?i)
    with (MPMC_Queue.turn (written v q) i).
  change (MPMC_Queue.capacity_ (MPMC_Queue.set_tail (written v q) _))
    with (MPMC_Queue.capacity_ (written v q)).
  change (MPMC_Queue.tail_ (written v q)) with (MPMC_Queue.tail_ q) in Hr'.
  change (MPMC_Queue.capacity_ (written v q)) with (MPMC_Queue.capacity_ q) in *.
  rewrite Hr'. simpl. rewrite set_slot_twice.
  unfold taken. rewrite Hfront. unfold front in Hfront.
  change (MPMC_Queue.tail_ (written v q)) with (MPMC_Queue.tail_ q) in *.
  change (MPMC_Queue.capacity_ (written v q)) with (MPMC_Queue.capacity_ q) in *.
  change (MPMC_Queue.slot (MPMC_Queue.set_tail (written v q) _) ?i)
    with (MPMC_Queue.slot (written v q) i).
  unfold Slot.moved_out, Slot.store_turn. cbn [Slot.data_ Slot.turn].
  rewrite Hfront. reflexivity.
Qed.

End Handoff.

Section Release.
Context {T : Type} `{MPMC_Type T}.
Implicit Types (q : MPMC_Queue.t T) (v : T) (w : client T).

(** A producer blocked in [emplace] on a full queue goes on as soon as a
    consumer has popped: it ends with the queue a [pop] followed by the
    [emplace] would leave.  A consumer blocked in [pop] on an empty queue
    goes on as soon as a producer has published a value, and returns that
    value.  (The other thread's whole call runs between two steps of the
    blocked one; the counters have not wrapped.) *)
Theorem blocked_call_is_released (allocate : Z -> bool) (c : Z)
    (q : MPMC_Queue.t T) (cs : list (call T)) (fuel : nat) (w : client T) (v : T) :
  c <= MAX_SIZE_T ->
  MPMC_Queue.ctor allocate c = inr q ->
  Z.of_nat (length cs) <= MAX_SIZE_T -> (5 <= fuel)%nat ->
  do_calls fuel cs (new_client q) = Some w ->
  (Z.of_nat (length (produced w))
   = Z.of_nat (length (consumed w)) + MPMC_Queue.capacity q ->
   MPMC_Queue.exec (MPMC_Queue.emplace_step v)
     [(fun q' => q'); taken; (fun q' => q'); (fun q' => q'); (fun q' => q')]
     MPMC_Queue.EM_fetch_add (queue w)
   = (MPMC_Queue.EM_ret (MPMC_Queue.head_ (queue w)), written v (taken (queue w)))) /\
  (length (produced w) = length (consumed w) ->
   MPMC_Queue.head_ (queue w) < MAX_SIZE_T ->
   MPMC_Queue.exec MPMC_Queue.pop_step
     [(fun q' => q'); written v; (fun q' => q'); (fun q' => q'); (fun q' => q')]
     MPMC_Queue.P_fetch_add (queue w)
   = (MPMC_Queue.P_ret (MPMC_Queue.tail_ (queue w)) v, taken (written v (queue w)))).
Proof.
  intros Hmax Hctor Hlen Hf Hrun.
  pose proof (client_holds_new allocate c q Hmax Hctor) as Hnew.
  destruct (do_calls_holds fuel _ cs _ w Hnew Hrun) as (rest & Hlog & Hq).
  destruct (do_calls_refines_end fuel (MPMC_Queue.capacity q) cs (new_client q) [] w)
    as (items & rest' & _ & _ & Hs); [apply (refines_new allocate c); assumption| |exact Hf|exact Hrun|].
  { apply ctor_inr in Hctor as [_ ->]. simpl. lia. }
  pose proof (steady_count _ _ _ Hq Hs) as Hn.
  rewrite Hlog, length_app. split.
  - intros Hfull. apply (emplace_handoff (MPMC_Queue.capacity q)); [exact Hs|lia].
  - intros Hnone Hlt. apply (pop_handoff (MPMC_Queue.capacity q)); [exact Hs|lia|exact Hlt].
Qed.

End Release.

Lemma blocked_call_is_released_witness :
  let q := MPMC_Queue.mk 1 [Slot.mk 0 0] 0 0 in
  let w := mk_client (MPMC_Queue.mk 1 [Slot.mk 11 1] 0 1) 0 [(0, 11)] [] [ret_void] in
  do_calls 5 [Push 11] (new_client q) = Some w /\
  MPMC_Queue.exec (MPMC_Queue.emplace_step 12)
    [(fun q' => q'); taken; (fun q' => q'); (fun q' => q'); (fun q' => q')]
    MPMC_Queue.EM_fetch_add (queue w)
  = (MPMC_Queue.EM_ret 1, MPMC_Queue.mk 1 [Slot.mk 12 3] 1 2).
Proof.
  intros q w. split; [reflexivity|].
  apply (proj1 (blocked_call_is_released (T:=Z) (fun _ => true) 1 q [Push 11] 5 w 12
                  ltac:(discriminate) eq_refl ltac:(discriminate) ltac:(lia) eq_refl) eq_refl).
Defined.

(** ** What a call does to the client and the queue *)
Section Cases.
Context {T : Type} `{MPMC_Type T}.
Implicit Types (q : MPMC_Queue.t T) (v : T) (w : client T).

Lemma do_call_cases fuel (k : call T) w w' :
  do_call fuel k w = Some w' ->
  (queue w' = queue w /\ produced w' = produced w /\ consumed w' = consumed w) \/
  (writable (queue w) = true /\
   exists r v, w' = produce w r (MPMC_Queue.head_ (queue w)) v (written v (queue w))) \/
  (readable (queue w) = true /\
   w' = consume w (MPMC_Queue.tail_ (queue w)) (front (queue w)) (taken (queue w))).
Proof.
  intros Hcall. destruct k as [v|v|v|v| | | | |]; simpl in Hcall.
  - destruct (MPMC_Queue.emplace fuel v (queue w)) as [[p q]|] eqn:He; [|discriminate].
    apply emplace_inv in He as [Hwr Heq]. injection Heq as -> ->.
    injection Hcall as <-. right. left. eauto.
  - destruct (MPMC_Queue.try_emplace fuel v (queue w)) as [[[b p] q]|] eqn:He; [|discriminate].
    apply try_emplace_inv in He. destruct (writable (queue w)) eqn:Hwr.
    + injection He as -> -> ->. injection Hcall as <-. right. left. eauto.
    + injection He as -> -> ->. injection Hcall as <-. left. auto.
  - unfold MPMC_Queue.push in Hcall.
    destruct (MPMC_Queue.emplace fuel v (queue w)) as [[p q]|] eqn:He; [|discriminate].
    apply emplace_inv in He as [Hwr Heq]. injection Heq as -> ->.
    injection Hcall as <-. right. left. eauto.
  - unfold MPMC_Queue.try_push in Hcall.
    destruct (MPMC_Queue.try_emplace fuel v (queue w)) as [[[b p] q]|] eqn:He; [|discriminate].
    apply try_emplace_inv in He. destruct (writable (queue w)) eqn:Hwr.
    + injection He as -> -> ->. injection Hcall as <-. right. left. eauto.
    + injection He as -> -> ->. injection Hcall as <-. left. auto.
  - destruct (MPMC_Queue.pop fuel (queue w)) as [[[v p] q]|] eqn:He; [|discriminate].
    apply pop_inv in He as [Hrd Heq]. injection Heq as -> -> ->.
    injection Hcall as <-. right. right. auto.
  - destruct (MPMC_Queue.try_pop fuel (val w) (queue w)) as [[[[b v] p] q]|] eqn:He;
      [|discriminate].
    apply try_pop_inv in He. destruct (readable (queue w)) eqn:Hrd.
    + injection He as -> -> -> ->. injection Hcall as <-. right. right. auto.
    + injection He as -> -> -> ->. injection Hcall as <-. left. auto.
  - injection Hcall as <-. left. auto.
  - injection Hcall as <-. left. auto.
  - injection Hcall as <-. left. auto.
Qed.

(** An induction principle over the runs of a client. *)
Lemma do_calls_ind (P : client T -> Prop) fuel (cs : list (call T)) w w' :
  (forall w1 w2, P w1 -> queue w2 = queue w1 -> produced w2 = produced w1 ->
                 consumed w2 = consumed w1 -> P w2) ->
  (forall w1 r v, P w1 -> writable (queue w1) = true ->
                  P (produce w1 r (MPMC_Queue.head_ (queue w1)) v (written v (queue w1)))) ->
  (forall w1, P w1 -> readable (queue w1) = true ->
              P (consume w1 (MPMC_Queue.tail_ (queue w1)) (front (queue w1))
                   (taken (queue w1)))) ->
  P w -> do_calls fuel cs w = Some w' -> P w'.
Proof.
  intros Hsame Hprod Hcons. revert w.
  induction cs as [|k cs IH]; intros w Hw Hrun; simpl in Hrun.
  - injection Hrun as <-. exact Hw.
  - destruct (do_call fuel k w) as [w1|] eqn:Hk; [|discriminate].
    apply (IH w1); [|exact Hrun].
    apply do_call_cases in Hk as [(Hq & Hp & Hc)|[(Hwr & r & v & ->)|(Hrd & ->)]].
    + apply (Hsame w); assumption.
    + apply Hprod; assumption.
    + apply Hcons; assumption.
Qed.

End Cases.

(** ** Logical positions *)
Section Positions.
Context {T : Type} `{MPMC_Type T}.
Implicit Types (q : MPMC_Queue.t T) (v : T) (w : client T).

(** Positions are handed out in order: the [k]-th value that a client
    produces gets position [k] (modulo [2^64]), and so does the [k]-th
    value it consumes; [head_] and [tail_] count the values produced and
    consumed. *)
Theorem positions_in_order (allocate : Z -> bool) (c : Z) (q : MPMC_Queue.t T)
    (cs : list (call T)) (fuel : nat) (w : client T) :
  MPMC_Queue.ctor allocate c = inr q ->
  do_calls fuel cs (new_client q) = Some w ->
  MPMC_Queue.head_ (queue w) = wrap (Z.of_nat (length (produced w))) /\
  MPMC_Queue.tail_ (queue w) = wrap (Z.of_nat (length (consumed w))) /\
  (forall (k : nat) p v, produced w !! k = Some (p, v) -> p = wrap (Z.of_nat k)) /\
  (forall (k : nat) p v, consumed w !! k = Some (p, v) -> p = wrap (Z.of_nat k)).
Proof.
  intros Hctor Hrun.
  apply (do_calls_ind
           (fun w => MPMC_Queue.head_ (queue w) = wrap (Z.of_nat (length (produced w))) /\
                     MPMC_Queue.tail_ (queue w) = wrap (Z.of_nat (length (consumed w))) /\
                     (forall (k : nat) p v, produced w !! k = Some (p, v) -> p = wrap (Z.of_nat k)) /\
                     (forall (k : nat) p v, consumed w !! k = Some (p, v) -> p = wrap (Z.of_nat k)))
           fuel cs (new_client q) w); [| | | |exact Hrun].
  - intros w1 w2 Hw1 -> -> ->. exact Hw1.
  - intros w1 r v (Hh & Ht & Hp & Hc) _. simpl. split; [|split; [|split]].
    + rewrite Hh, wrap_add_l, length_app. simpl. f_equal. lia.
    + exact Ht.
    + intros k p v' Hk. apply lookup_app_Some in Hk as [Hk|[Hge Hk]]; [eauto|].
      destruct (k - length (produced w1))%nat eqn:Hd; [|destruct n; discriminate].
      simpl in Hk. injection Hk as <- <-. rewrite Hh. f_equal. lia.
    + exact Hc.
  - intros w1 (Hh & Ht & Hp & Hc) _. simpl. split; [|split; [|split]].
    + exact Hh.
    + rewrite Ht, wrap_add_l, length_app. simpl. f_equal. lia.
    + exact Hp.
    + intros k p v' Hk. apply lookup_app_Some in Hk as [Hk|[Hge Hk]]; [eauto|].
      destruct (k - length (consumed w1))%nat eqn:Hd; [|destruct n; discriminate].
      simpl in Hk. injection Hk as <- <-. rewrite Ht. f_equal. lia.
  - apply ctor_inr in Hctor as [_ ->]. simpl.
    split; [reflexivity|]. split; [reflexivity|]. split; intros k p v Hk; discriminate.
Qed.

End Positions.

Lemma positions_in_order_witness :
  let q := MPMC_Queue.mk 2 [Slot.mk 0 0; Slot.mk 0 0] 0 0 in
  let w := mk_client (MPMC_Queue.mk 2 [Slot.mk 11 2; Slot.mk 12 1] 1 2) 11
             [(0, 11); (1, 12)] [(0, 11)] [ret_void; ret_bool true; ret_pop true 11] in
  do_calls 5 [Push 11; Try_push 12; Pop] (new_client q) = Some w /\
  MPMC_Queue.head_ (queue w) = wrap 2.
Proof.
  intros q w. split; [reflexivity|].
  apply (proj1 (@positions_in_order Z MPMC_Type_Z (fun _ => true) 2 q
                  [Push 11; Try_push 12; Pop] 5 w eq_refl eq_refl)).
Defined.

(** ** What a released slot holds *)
Section Released.
Context {T : Type} `{MPMC_Type T}.
Implicit Types (q : MPMC_Queue.t T) (v : T) (w : client T).

(** A slot whose generation is even holds no queued value: its object is
    the default-constructed one the slot was built with, or what the
    assignment in [pop] or [try_pop] has left of a value that the client
    has consumed.  For a move-only owner that is the null pointer, so an
    owner that has been popped does not stay behind in the queue. *)
Theorem released_slot_is_moved_from (allocate : Z -> bool) (c : Z)
    (q : MPMC_Queue.t T) (cs : list (call T)) (fuel : nat) (w : client T) :
  MPMC_Queue.ctor allocate c = inr q ->
  do_calls fuel cs (new_client q) = Some w ->
  forall (i : nat) (s : Slot.t T),
    MPMC_Queue.buffer_ (queue w) !! i = Some s ->
    Z.odd (Slot.turn s) = false ->
    Slot.data_ s = T_default \/
    exists p x, In (p, x) (consumed w) /\ Slot.data_ s = T_moved_from x.
Proof.
  intros Hctor Hrun.
  apply (do_calls_ind
           (fun w => forall (i : nat) (s : Slot.t T),
                MPMC_Queue.buffer_ (queue w) !! i = Some s ->
                Z.odd (Slot.turn s) = false ->
                Slot.data_ s = T_default \/
                exists p x, In (p, x) (consumed w) /\ Slot.data_ s = T_moved_from x)
           fuel cs (new_client q) w); [| | | |exact Hrun].
  - intros w1 w2 Hw1 Hq Hp Hc. rewrite Hq, Hc. exact Hw1.
  - intros w1 r v Hw1 _ i s Hi Heven. simpl in Hi.
    apply list_lookup_insert_Some in Hi as [(_ & <- & _)|(_ & Hi)].
    + simpl in Heven. rewrite wrap_double_succ_odd in Heven. discriminate.
    + simpl. eauto.
  - intros w1 Hw1 _ i s Hi Heven. simpl in Hi.
    apply list_lookup_insert_Some in Hi as [(_ & <- & _)|(_ & Hi)].
    + right. exists (MPMC_Queue.tail_ (queue w1)), (front (queue w1)). simpl.
      split; [|reflexivity]. apply in_or_app. right. left. reflexivity.
    + destruct (Hw1 i s Hi Heven) as [Hd|(p & x & Hin & Hd)]; [left; exact Hd|].
      right. exists p, x. simpl. split; [|exact Hd]. apply in_or_app. left. exact Hin.
  - apply ctor_inr in Hctor as [_ ->]. simpl. intros i s Hi _. left.
    apply lookup_replicate in Hi as [-> _]. reflexivity.
Qed.

End Released.

Lemma released_slot_is_moved_from_witness :
  let q := MPMC_Queue.mk 1 [Slot.mk None 0] 0 0 in
  let w := mk_client (MPMC_Queue.mk 1 [Slot.mk None 2] 1 1) (Some 5)
             [(0, Some 5)] [(0, Some 5)] [ret_void; ret_pop true (Some 5)] in
  do_calls 5 [Push (Some 5); Pop] (new_client q) = Some w /\
  (None = @T_default (option Z) _ \/
   exists p x, In (p, x) (consumed w) /\ None = @T_moved_from (option Z) _ x).
Proof.
  intros q w. split; [reflexivity|].
  apply (@released_slot_is_moved_from (option Z) MPMC_Type_owner (fun _ => true) 1 q
           [Push (Some 5); Pop] 5 w eq_refl eq_refl 0%nat (Slot.mk None 2) eq_refl eq_refl).
Defined.

(** ** The explicit [destroy()] calls of the teardown *)
Section Destroyed.
Context {T : Type} `{MPMC_Type T}.
Implicit Types (q : MPMC_Queue.t T) (v : T) (w : client T).

Lemma in_dtor_loop (f : Slot.t T -> list T) (buffer : list (Slot.t T)) (j : nat) v (n i : nat) :
  In (j, v) (MPMC_Queue.dtor_loop f n i buffer)
  <-> (i <= j < i + n)%nat /\ exists s, buffer !! j = Some s /\ In v (f s).
Proof.
  revert i. induction n as [|n IH]; intros i; simpl.
  - split; [tauto|]. intros [? _]. lia.
  - rewrite in_app_iff, IH. split.
    + intros [Hin|(Hr & s & Hs & Hv)].
      * destruct (buffer !! i) as [s|] eqn:Hi; [|destruct Hin].
        apply in_map_iff in Hin as (x & Hx & Hin). injection Hx as <- <-.
        split; [lia|]. eauto.
      * split; [lia|]. eauto.
    + intros (Hr & s & Hs & Hv). destruct (decide (i = j)) as [->|Hne].
      * left. rewrite Hs. apply in_map. exact Hv.
      * right. split; [lia|]. eauto.
Qed.

Lemma slot_lookup c q p :
  wf c q ->
  MPMC_Queue.buffer_ q !! Z.to_nat (p mod c) = Some (MPMC_Queue.slot q (p mod c)).
Proof.
  intros Hwf. destruct (slot_in_range c q p Hwf) as [_ Hlt].
  unfold MPMC_Queue.slot.
  destruct (lookup_lt_is_Some_2 _ _ Hlt) as [s ->]. reflexivity.
Qed.

(** The explicit [destroy()] calls that the destructor of the queue makes
    are on the values produced and not yet consumed, each in the slot of
    its position, and on nothing else; no slot gets more than one. *)
Theorem teardown_destroys_values_in_flight (allocate : Z -> bool) (c : Z)
    (q : MPMC_Queue.t T) (cs : list (call T)) (fuel : nat) (w : client T) :
  c <= MAX_SIZE_T ->
  MPMC_Queue.ctor allocate c = inr q ->
  do_calls fuel cs (new_client q) = Some w ->
  (forall (i : nat) v,
     In (i, v) (MPMC_Queue.dtor_explicit (queue w))
     <-> exists (k : nat) p,
           drop (length (consumed w)) (produced w) !! k = Some (p, v) /\
           i = Z.to_nat (p mod MPMC_Queue.capacity q)) /\
  (forall i : nat, (runs i (MPMC_Queue.dtor_explicit (queue w)) <= 1)%nat).
Proof.
  intros Hmax Hctor Hrun.
  pose proof (client_holds_new allocate c q Hmax Hctor) as Hnew.
  destruct (do_calls_holds fuel _ cs _ w Hnew Hrun) as (rest & Hlog & Hq).
  rewrite Hlog, drop_app_length.
  pose proof (holds_wf _ _ _ Hq) as Hwf.
  destruct Hwf as (Hcap & Hlen & Hc) eqn:E. clear E.
  unfold MPMC_Queue.dtor_explicit. rewrite Hcap. split.
  - intros i v. rewrite in_dtor_loop. split.
    + intros (Hi & s & Hs & Hv). unfold Slot.dtor_body in Hv.
      rewrite land_one_odd in Hv. destruct (Z.odd (Slot.turn s)) eqn:Hodd; [|destruct Hv].
      destruct Hv as [<-|[]].
      assert (MPMC_Queue.slot (queue w) (Z.of_nat i) = s) as Hslot.
      { unfold MPMC_Queue.slot. rewrite Nat2Z.id, Hs. reflexivity. }
      destruct (holds_empty _ _ _ Hq (Z.of_nat i)) as (k & Hk & Hidx);
        [lia|rewrite Hslot; exact Hodd|].
      destruct (lookup_lt_is_Some_2 rest k Hk) as [[p v'] Hp].
      destruct (holds_full _ _ _ Hq k p v' Hp) as (-> & _ & Hd).
      rewrite <- Hidx, Hslot in Hd. subst v'.
      exists k, (wrap (MPMC_Queue.tail_ (queue w) + Z.of_nat k)).
      split; [exact Hp|]. rewrite <- Hidx. lia.
    + intros (k & p & Hp & ->).
      destruct (holds_full _ _ _ Hq k p v Hp) as (_ & Hodd & Hd).
      destruct (slot_in_range _ _ p Hwf) as [_ Hlt]. split; [lia|].
      exists (MPMC_Queue.slot (queue w) (p mod MPMC_Queue.capacity q)).
      split; [apply slot_lookup; exact Hwf|].
      unfold Slot.dtor_body. rewrite land_one_odd, Hodd. left. exact Hd.
  - intros i. rewrite runs_dtor_loop. destruct (decide _); [|lia].
    destruct (_ !! i) as [s|]; [|lia].
    unfold Slot.dtor_body. destruct (negb _); simpl; lia.
Qed.

End Destroyed.

Lemma teardown_destroys_values_in_flight_witness :
  let q := MPMC_Queue.mk 2 [Slot.mk None 0; Slot.mk None 0] 0 0 in
  let w := mk_client (MPMC_Queue.mk 2 [Slot.mk None 2; Slot.mk (Some 6) 1] 1 2) (Some 5)
             [(0, Some 5); (1, Some 6)] [(0, Some 5)]
             [ret_void; ret_void; ret_pop true (Some 5)] in
  do_calls 5 [Push (Some 5); Push (Some 6); Pop] (new_client q) = Some w /\
  MPMC_Queue.dtor_explicit (queue w) = [(1%nat, Some 6)] /\
  (runs 1 (MPMC_Queue.dtor_explicit (queue w)) <= 1)%nat.
Proof.
  intros q w. split; [reflexivity|]. split; [reflexivity|].
  apply (proj2 (@teardown_destroys_values_in_flight (option Z) MPMC_Type_owner
                  (fun _ => true) 2 q [Push (Some 5); Push (Some 6); Pop] 5 w
                  ltac:(discriminate) eq_refl eq_refl) 1%nat).
Defined.

(** ** Several threads on one queue *)
Section Generations.
Context {T : Type} `{MPMC_Type T}.
Implicit Types (q : MPMC_Queue.t T) (v : T) (th : @thread T) (ths : list (@thread T)).

Lemma wrap_double_inj r r' b :
  0 <= r < 2 ^ 63 -> 0 <= r' < 2 ^ 63 -> 0 <= b <= 1 ->
  wrap (r * 2 + b) = wrap (r' * 2 + b) -> r = r'.
Proof.
  intros Hr Hr' Hb Heq.
  assert (2 ^ 64 = 2 * 2 ^ 63) as E by reflexivity.
  rewrite !wrap_small in Heq by lia. lia.
Qed.

Lemma wrap_parity a b : wrap (a * 2) <> wrap (b * 2 + 1).
Proof.
  intros Heq. pose proof (wrap_double_even a) as He.
  rewrite Heq, wrap_double_succ_odd in He. discriminate.
Qed.

Lemma position_eq c p p' :
  1 <= c -> p mod c = p' mod c -> p / c = p' / c -> p = p'.
Proof.
  intros Hc Hm Hd.
  rewrite (Z.div_mod p c), (Z.div_mod p' c) by lia. rewrite Hm, Hd. reflexivity.
Qed.

Lemma round_bound c p : 1 <= c -> 0 <= p < 2 ^ 63 -> 0 <= p / c < 2 ^ 63.
Proof.
  intros Hc Hp. split; [apply Z.div_pos; lia|].
  apply Z.le_lt_trans with p; [|lia]. apply Z.div_le_upper_bound; nia.
Qed.

(** Two positions of one slot that expect the same phase of the same
    generation are one position. *)
Lemma same_slot_same_gen c q p p' b :
  1 <= c -> 0 <= p < 2 ^ 63 -> 0 <= p' < 2 ^ 63 -> 0 <= b <= 1 ->
  p mod c = p' mod c ->
  gen c q p = wrap (p / c * 2 + b) -> gen c q p' = wrap (p' / c * 2 + b) -> p = p'.
Proof.
  intros Hc Hp Hp' Hb Hm Hg Hg'. apply (position_eq c); [exact Hc|exact Hm|].
  unfold gen in *. rewrite Hm in Hg. rewrite Hg in Hg'.
  apply (wrap_double_inj _ _ b); auto using round_bound.
Qed.

Lemma same_slot_even c q p p' :
  1 <= c -> 0 <= p < 2 ^ 63 -> 0 <= p' < 2 ^ 63 ->
  p mod c = p' mod c ->
  gen c q p = wrap (p / c * 2) -> gen c q p' = wrap (p' / c * 2) -> p = p'.
Proof.
  intros Hc Hp Hp' Hm Hg Hg'. apply (same_slot_same_gen c q p p' 0); auto; try lia.
  - rewrite Z.add_0_r. exact Hg.
  - rewrite Z.add_0_r. exact Hg'.
Qed.

Lemma same_slot_odd c q p p' :
  1 <= c -> 0 <= p < 2 ^ 63 -> 0 <= p' < 2 ^ 63 ->
  p mod c = p' mod c ->
  gen c q p = wrap (p / c * 2 + 1) -> gen c q p' = wrap (p' / c * 2 + 1) -> p = p'.
Proof.
  intros Hc Hp Hp' Hm Hg Hg'. apply (same_slot_same_gen c q p p' 1); auto; lia.
Qed.

Lemma even_odd_slot c q p p' :
  p mod c = p' mod c ->
  gen c q p = wrap (p / c * 2) -> gen c q p' = wrap (p' / c * 2 + 1) -> False.
Proof.
  intros Hm Hg Hg'. unfold gen in *. rewrite Hm in Hg. rewrite Hg in Hg'.
  exact (wrap_parity _ _ Hg').
Qed.

Lemma gen_set_slot_eq c q p (s : Slot.t T) :
  wf c q -> gen c (MPMC_Queue.set_slot q (p mod c) s) p = Slot.turn s.
Proof.
  intros Hwf. destruct (slot_in_range c q p Hwf) as [Hi Hlt].
  unfold gen. rewrite slot_set_slot_eq by assumption. reflexivity.
Qed.

Lemma dat_set_slot_eq c q p (s : Slot.t T) :
  wf c q -> dat c (MPMC_Queue.set_slot q (p mod c) s) p = Slot.data_ s.
Proof.
  intros Hwf. destruct (slot_in_range c q p Hwf) as [Hi Hlt].
  unfold dat. rewrite slot_set_slot_eq by assumption. reflexivity.
Qed.

Lemma gen_set_slot_ne c q p p' (s : Slot.t T) :
  wf c q -> p' mod c <> p mod c ->
  gen c (MPMC_Queue.set_slot q (p mod c) s) p' = gen c q p'.
Proof.
  intros Hwf Hne. destruct (slot_in_range c q p Hwf) as [Hi _].
  destruct (slot_in_range c q p' Hwf) as [Hi' _].
  unfold gen. rewrite slot_set_slot_ne by (assumption || congruence). reflexivity.
Qed.

Lemma dat_set_slot_ne c q p p' (s : Slot.t T) :
  wf c q -> p' mod c <> p mod c ->
  dat c (MPMC_Queue.set_slot q (p mod c) s) p' = dat c q p'.
Proof.
  intros Hwf Hne. destruct (slot_in_range c q p Hwf) as [Hi _].
  destruct (slot_in_range c q p' Hwf) as [Hi' _].
  unfold dat. rewrite slot_set_slot_ne by (assumption || congruence). reflexivity.
Qed.

(** A store of the generation leaves the values alone, a write of the
    value leaves the generations alone. *)
Lemma dat_store_turn c q p p' x :
  wf c q ->
  dat c (MPMC_Queue.set_slot q (p mod c)
           (Slot.store_turn x (MPMC_Queue.slot q (p mod c)))) p' = dat c q p'.
Proof.
  intros Hwf. destruct (decide (p' mod c = p mod c)) as [Heq|Hne].
  - unfold dat at 1. rewrite Heq. destruct (slot_in_range c q p Hwf) as [Hi Hlt].
    rewrite slot_set_slot_eq by assumption. unfold dat. rewrite Heq. reflexivity.
  - apply dat_set_slot_ne; assumption.
Qed.

Lemma gen_same_turn c q p p' (s : Slot.t T) :
  wf c q -> Slot.turn s = Slot.turn (MPMC_Queue.slot q (p mod c)) ->
  gen c (MPMC_Queue.set_slot q (p mod c) s) p' = gen c q p'.
Proof.
  intros Hwf Hs. destruct (decide (p' mod c = p mod c)) as [Heq|Hne].
  - unfold gen at 1. rewrite Heq. destruct (slot_in_range c q p Hwf) as [Hi Hlt].
    rewrite slot_set_slot_eq by assumption. unfold gen. rewrite Heq. exact Hs.
  - apply gen_set_slot_ne; assumption.
Qed.

Lemma wf_set_slot c q i (s : Slot.t T) : wf c q -> wf c (MPMC_Queue.set_slot q i s).
Proof.
  intros (Hc & Hlen & Hr). unfold wf. simpl. rewrite length_insert. auto.
Qed.

Lemma published_Pub ths (i : nat) th p v :
  ths !! i = Some th -> published th p v -> Pub ths p v.
Proof. intros Hi Hp. exists i, th. auto. Qed.

Lemma Pub_insert ths (i : nat) th th' p v :
  ths !! i = Some th ->
  (forall p v, published th p v -> published th' p v) ->
  Pub ths p v -> Pub (<[i := th']> ths) p v.
Proof.
  intros Hi Hmono (j & thj & Hj & Hp).
  destruct (decide (i = j)) as [<-|Hne].
  - exists i, th'. split.
    + apply list_lookup_insert_eq. eapply lookup_lt_Some. exact Hi.
    + apply Hmono. congruence.
  - exists j, thj. split; [|exact Hp]. rewrite list_lookup_insert_ne by exact Hne. exact Hj.
Qed.

End Generations.

Section Frames.
Context {T : Type} `{MPMC_Type T}.
Implicit Types (q : MPMC_Queue.t T) (v : T) (th : @thread T) (ths : list (@thread T)).

(** What a thread relies on survives whatever leaves alone the slots and
    counters it looks at. *)
Lemma local_ok_frame c q q' ths ths' th :
  local_ok c q ths th ->
  (forall p v, Pub ths p v -> Pub ths' p v) ->
  MPMC_Queue.head_ q <= MPMC_Queue.head_ q' ->
  MPMC_Queue.tail_ q <= MPMC_Queue.tail_ q' ->
  (forall ph p v, producing (doing th) = Some (ph, p, v) ->
     gen c q p = wrap (p / c * 2) ->
     gen c q' p = gen c q p /\ dat c q' p = dat c q p) ->
  (forall ph p, consuming (doing th) = Some (ph, p) ->
     gen c q p = wrap (p / c * 2 + 1) ->
     gen c q' p = gen c q p /\ (ph = CTake -> dat c q' p = dat c q p)) ->
  (forall h, watching_head (doing th) = Some (true, h) ->
     MPMC_Queue.head_ q' = h ->
     MPMC_Queue.head_ q = h /\
     (gen c q h = wrap (h / c * 2) -> gen c q' h = gen c q h)) ->
  (forall t, watching_tail (doing th) = Some (true, t) ->
     MPMC_Queue.tail_ q' = t ->
     MPMC_Queue.tail_ q = t /\
     (gen c q t = wrap (t / c * 2 + 1) ->
      gen c q' t = gen c q t /\ dat c q' t = dat c q t)) ->
  local_ok c q' ths' th.
Proof.
  intros [Hp Hc Hh Ht Hl] Hpub Hhead Htail Fp Fc Fh Ft. constructor.
  - intros ph p v Hph. specialize (Hp ph p v Hph). specialize (Fp ph p v Hph).
    destruct ph; auto.
    + destruct (Fp Hp) as [-> _]. exact Hp.
    + destruct Hp as [Hg Hd]. destruct (Fp Hg) as [-> ->]. auto.
  - intros ph p Hph. specialize (Hc ph p Hph). specialize (Fc ph p Hph).
    destruct ph; auto.
    + destruct Hc as [Hg Hd]. destruct (Fc Hg) as [-> Hdat].
      rewrite Hdat by reflexivity. auto.
    + destruct Hc as [Hg Hd]. destruct (Fc Hg) as [-> _]. auto.
  - intros b h Hw. destruct (Hh b h Hw) as [Hle Hgen]. split; [lia|].
    intros -> Hq'. destruct (Fh h Hw Hq') as [Hq Hg].
    rewrite Hg; auto.
  - intros b t Hw. destruct (Ht b t Hw) as [Hle Hgen]. split; [lia|].
    intros -> Hq'. destruct (Ft t Hw Hq') as [Hq Hg].
    destruct (Hgen eq_refl Hq) as [Hg1 Hd1]. destruct (Hg Hg1) as [-> ->]. auto.
  - intros p x Hin. auto.
Qed.

(** The counters may move on when the slots stay as they are. *)
Lemma local_ok_counters c q q' ths ths' th :
  local_ok c q ths th ->
  (forall p v, Pub ths p v -> Pub ths' p v) ->
  MPMC_Queue.head_ q <= MPMC_Queue.head_ q' ->
  MPMC_Queue.tail_ q <= MPMC_Queue.tail_ q' ->
  (forall p, gen c q' p = gen c q p) -> (forall p, dat c q' p = dat c q p) ->
  local_ok c q' ths' th.
Proof.
  intros Hok Hpub Hhead Htail Hg Hd.
  pose proof (lo_head _ _ _ _ Hok) as Hh. pose proof (lo_tail _ _ _ _ Hok) as Ht.
  apply (local_ok_frame c q q' ths ths' th); auto.
  - intros h Hw Hq'. destruct (Hh true h Hw) as [Hle _]. split; [lia|auto].
  - intros t Hw Hq'. destruct (Ht true t Hw) as [Hle _]. split; [lia|auto].
Qed.

(** A change within one slot leaves alone the threads that look at other
    slots. *)
Lemma local_ok_other_slot c q q' ths ths' th p :
  local_ok c q ths th ->
  (forall p v, Pub ths p v -> Pub ths' p v) ->
  MPMC_Queue.head_ q' = MPMC_Queue.head_ q ->
  MPMC_Queue.tail_ q' = MPMC_Queue.tail_ q ->
  (forall p', p' mod c <> p mod c ->
     gen c q' p' = gen c q p' /\ dat c q' p' = dat c q p') ->
  (forall ph p' v', producing (doing th) = Some (ph, p', v') ->
     gen c q p' = wrap (p' / c * 2) -> p' mod c <> p mod c) ->
  (forall ph p', consuming (doing th) = Some (ph, p') ->
     gen c q p' = wrap (p' / c * 2 + 1) -> p' mod c <> p mod c) ->
  (forall h, MPMC_Queue.head_ q = h -> gen c q h = wrap (h / c * 2) ->
     h mod c <> p mod c) ->
  (forall t, MPMC_Queue.tail_ q = t -> gen c q t = wrap (t / c * 2 + 1) ->
     t mod c <> p mod c) ->
  local_ok c q' ths' th.
Proof.
  intros Hok Hpub Hhead Htail Hslot Fp Fc Fh Ft.
  apply (local_ok_frame c q q' ths ths' th); auto; try lia.
  - intros ph p' v' Hph Hg. apply Hslot. eauto.
  - intros ph p' Hph Hg. destruct (Hslot p') as [Hg' Hd']; eauto.
  - intros h Hw Hq'. split; [lia|]. intros Hg. apply Hslot. apply Fh; [lia|exact Hg].
  - intros t Hw Hq'. split; [lia|]. intros Hg. apply Hslot. apply Ft; [lia|exact Hg].
Qed.

End Frames.

Section Ownership.
Context {T : Type} `{MPMC_Type T}.
Implicit Types (q : MPMC_Queue.t T) (v : T) (th : @thread T) (ths : list (@thread T)).

Lemma producing_claims th ph p v :
  producing (doing th) = Some (ph, p, v) -> In p (map fst (prod_entries th)).
Proof.
  intros Hph. unfold prod_entries. rewrite Hph, map_app. apply in_or_app. right. left.
  reflexivity.
Qed.

Lemma consuming_claims th ph p :
  consuming (doing th) = Some (ph, p) -> In p (cons_claims th).
Proof.
  intros Hph. unfold cons_claims. rewrite Hph. apply in_or_app. right. left. reflexivity.
Qed.

Lemma sys_inv_weaken c n n' (st : @system T) : n <= n' -> sys_inv c n st -> sys_inv c n' st.
Proof.
  intros Hn [Hwf Hh Ht Hpb Hpn Hpd Hcb Hcn Hcd Hl Hs].
  constructor; auto; lia.
Qed.

(** While a producer holds the slot of its position [p] in the empty phase
    of [p]'s round, no other thread relies on that slot. *)
Lemma prod_owner_excludes c n ths q (i : nat) th ph p v :
  sys_inv c n (mk_system ths q) -> n < 2 ^ 63 ->
  ths !! i = Some th -> producing (doing th) = Some (ph, p, v) ->
  gen c q p = wrap (p / c * 2) ->
  (forall (j : nat) thj ph' p' v', j <> i -> ths !! j = Some thj ->
     producing (doing thj) = Some (ph', p', v') ->
     gen c q p' = wrap (p' / c * 2) -> p' mod c <> p mod c) /\
  (forall p', gen c q p' = wrap (p' / c * 2 + 1) -> p' mod c <> p mod c) /\
  (forall h, MPMC_Queue.head_ q = h -> gen c q h = wrap (h / c * 2) ->
     h mod c <> p mod c).
Proof.
  intros Hinv Hn Hi Hph Hg.
  pose proof (si_wf _ _ _ Hinv) as (_ & _ & Hc). simpl in *.
  pose proof (si_head _ _ _ Hinv) as Hhead. simpl in Hhead.
  pose proof (si_prod_bound _ _ _ Hinv i th p Hi (producing_claims _ _ _ _ Hph)) as Hp.
  simpl in Hp. split; [|split].
  - intros j thj ph' p' v' Hne Hj Hph' Hg' Hm.
    pose proof (si_prod_bound _ _ _ Hinv j thj p' Hj (producing_claims _ _ _ _ Hph')) as Hp'.
    simpl in Hp'.
    assert (p' = p) as -> by (apply (same_slot_even c q p' p); auto; lia).
    apply (si_prod_disj _ _ _ Hinv j i thj th p Hne Hj Hi);
      eauto using producing_claims.
  - intros p' Hg' Hm. symmetry in Hm. exact (even_odd_slot c q p p' Hm Hg Hg').
  - intros h Hh Hgh Hm.
    assert (h = p) as -> by (apply (same_slot_even c q h p); auto; lia). lia.
Qed.

(** The same for a consumer that holds the slot of its position in the full
    phase. *)
Lemma cons_owner_excludes c n ths q (i : nat) th ph p :
  sys_inv c n (mk_system ths q) -> n < 2 ^ 63 ->
  ths !! i = Some th -> consuming (doing th) = Some (ph, p) ->
  gen c q p = wrap (p / c * 2 + 1) ->
  (forall (j : nat) thj ph' p', j <> i -> ths !! j = Some thj ->
     consuming (doing thj) = Some (ph', p') ->
     gen c q p' = wrap (p' / c * 2 + 1) -> p' mod c <> p mod c) /\
  (forall p', gen c q p' = wrap (p' / c * 2) -> p' mod c <> p mod c) /\
  (forall t, MPMC_Queue.tail_ q = t -> gen c q t = wrap (t / c * 2 + 1) ->
     t mod c <> p mod c).
Proof.
  intros Hinv Hn Hi Hph Hg.
  pose proof (si_wf _ _ _ Hinv) as (_ & _ & Hc). simpl in *.
  pose proof (si_tail _ _ _ Hinv) as Htail. simpl in Htail.
  pose proof (si_cons_bound _ _ _ Hinv i th p Hi (consuming_claims _ _ _ Hph)) as Hp.
  simpl in Hp. split; [|split].
  - intros j thj ph' p' Hne Hj Hph' Hg' Hm.
    pose proof (si_cons_bound _ _ _ Hinv j thj p' Hj (consuming_claims _ _ _ Hph')) as Hp'.
    simpl in Hp'.
    assert (p' = p) as -> by (apply (same_slot_odd c q p' p); auto; lia).
    apply (si_cons_disj _ _ _ Hinv j i thj th p Hne Hj Hi);
      eauto using consuming_claims.
  - intros p' Hg' Hm. exact (even_odd_slot c q p' p Hm Hg' Hg).
  - intros t Ht Hgt Hm.
    assert (t = p) as -> by (apply (same_slot_odd c q t p); auto; lia). lia.
Qed.

(** The bookkeeping of a step: the thread [i] becomes [th'], the queue
    [q']. *)
Lemma sys_inv_update c n ths q (i : nat) th th' q' :
  sys_inv c n (mk_system ths q) -> ths !! i = Some th ->
  wf c q' ->
  MPMC_Queue.head_ q <= MPMC_Queue.head_ q' <= n + 1 ->
  MPMC_Queue.tail_ q <= MPMC_Queue.tail_ q' <= n + 1 ->
  (prod_entries th' = prod_entries th \/
   exists v, prod_entries th' = prod_entries th ++ [(MPMC_Queue.head_ q, v)] /\
             MPMC_Queue.head_ q < MPMC_Queue.head_ q') ->
  (cons_claims th' = cons_claims th \/
   cons_claims th' = cons_claims th ++ [MPMC_Queue.tail_ q] /\
   MPMC_Queue.tail_ q < MPMC_Queue.tail_ q') ->
  (forall (j : nat) thj, <[i := th']> ths !! j = Some thj ->
     local_ok c q' (<[i := th']> ths) thj) ->
  (forall p, 0 <= p < 2 ^ 63 -> gen c q' p = wrap (p / c * 2 + 1) ->
     exists v, Pub (<[i := th']> ths) p v /\
       (dat c q' p = v \/
        exists (j : nat) thj, <[i := th']> ths !! j = Some thj /\
                              consuming (doing thj) = Some (CStore v, p))) ->
  sys_inv c (n + 1) (mk_system (<[i := th']> ths) q').
Proof.
  intros [Hwf Hh Ht Hpb Hpn Hpd Hcb Hcn Hcd Hl Hs] Hi Hwf' Hhead Htail Hprod Hcons Hloc Hslot.
  simpl in *.
  assert (forall p, In p (map fst (prod_entries th')) ->
            In p (map fst (prod_entries th)) \/
            (p = MPMC_Queue.head_ q /\ MPMC_Queue.head_ q < MPMC_Queue.head_ q')) as Hp'.
  { intros p Hin. destruct Hprod as [E|(v & E & Hlt)]; rewrite E in Hin; [auto|].
    rewrite map_app in Hin. apply in_app_or in Hin as [Hin|[<-|[]]]; auto. }
  assert (forall p, In p (cons_claims th') ->
            In p (cons_claims th) \/
            (p = MPMC_Queue.tail_ q /\ MPMC_Queue.tail_ q < MPMC_Queue.tail_ q')) as Hc'.
  { intros p Hin. destruct Hcons as [E|[E Hlt]]; rewrite E in Hin; [auto|].
    apply in_app_or in Hin as [Hin|[<-|[]]]; auto. }
  constructor; simpl; auto; try lia.
  - intros j thj p Hj Hin.
    apply list_lookup_insert_Some in Hj as [(<- & <- & _)|(Hne & Hj)].
    + destruct (Hp' p Hin) as [Hold|[-> Hlt]]; [|lia].
      specialize (Hpb i th p Hi Hold). lia.
    + specialize (Hpb j thj p Hj Hin). lia.
  - intros j thj Hj.
    apply list_lookup_insert_Some in Hj as [(<- & <- & _)|(Hne & Hj)]; [|eauto].
    destruct Hprod as [E|(v & E & Hlt)]; rewrite E; [eauto|].
    rewrite map_app. apply NoDup_app. split; [eauto|]. split; [|apply NoDup_singleton].
    intros p Hin Hin'. apply list_elem_of_In in Hin. apply list_elem_of_In in Hin'.
    destruct Hin' as [<-|[]]. specialize (Hpb i th _ Hi Hin). simpl in Hpb. lia.
  - intros j k thj thk p Hne Hj Hk Hinj Hink.
    apply list_lookup_insert_Some in Hj as [(<- & <- & _)|(Hnej & Hj)];
      apply list_lookup_insert_Some in Hk as [(<- & <- & _)|(Hnek & Hk)].
    + congruence.
    + destruct (Hp' p Hinj) as [Hold|[-> Hlt]]; [eauto|].
      specialize (Hpb k thk _ Hk Hink). lia.
    + destruct (Hp' p Hink) as [Hold|[-> Hlt]]; [eauto|].
      specialize (Hpb j thj _ Hj Hinj). lia.
    + eauto.
  - intros j thj p Hj Hin.
    apply list_lookup_insert_Some in Hj as [(<- & <- & _)|(Hne & Hj)].
    + destruct (Hc' p Hin) as [Hold|[-> Hlt]]; [|lia].
      specialize (Hcb i th p Hi Hold). lia.
    + specialize (Hcb j thj p Hj Hin). lia.
  - intros j thj Hj.
    apply list_lookup_insert_Some in Hj as [(<- & <- & _)|(Hne & Hj)]; [|eauto].
    destruct Hcons as [E|[E Hlt]]; rewrite E; [eauto|].
    apply NoDup_app. split; [eauto|]. split; [|apply NoDup_singleton].
    intros p Hin Hin'. apply list_elem_of_In in Hin. apply list_elem_of_In in Hin'.
    destruct Hin' as [<-|[]]. specialize (Hcb i th _ Hi Hin). simpl in Hcb. lia.
  - intros j k thj thk p Hne Hj Hk Hinj Hink.
    apply list_lookup_insert_Some in Hj as [(<- & <- & _)|(Hnej & Hj)];
      apply list_lookup_insert_Some in Hk as [(<- & <- & _)|(Hnek & Hk)].
    + congruence.
    + destruct (Hc' p Hinj) as [Hold|[-> Hlt]]; [eauto|].
      specialize (Hcb k thk _ Hk Hink). lia.
    + destruct (Hc' p Hink) as [Hold|[-> Hlt]]; [eauto|].
      specialize (Hcb j thj _ Hj Hinj). lia.
    + eauto.
Qed.

End Ownership.

Section Kinds.
Context {T : Type} `{MPMC_Type T}.
Implicit Types (q : MPMC_Queue.t T) (v : T) (th : @thread T) (ths : list (@thread T)).

Lemma lookup_insert_cases ths (i j : nat) th th' thj :
  ths !! i = Some th -> <[i := th']> ths !! j = Some thj ->
  (j = i /\ thj = th') \/ (j <> i /\ ths !! j = Some thj).
Proof.
  intros Hi Hj. apply list_lookup_insert_Some in Hj as [(<- & <- & _)|(Hne & Hj)]; auto.
Qed.

(** A step that leaves the queue as it is. *)
Lemma step_quiet c n ths q (i : nat) th th' :
  sys_inv c n (mk_system ths q) -> ths !! i = Some th ->
  prod_entries th' = prod_entries th -> cons_claims th' = cons_claims th ->
  (forall p v, published th p v -> published th' p v) ->
  (forall x p, consuming (doing th) = Some (CStore x, p) ->
               consuming (doing th') = Some (CStore x, p)) ->
  local_ok c q (<[i := th']> ths) th' ->
  sys_inv c (n + 1) (mk_system (<[i := th']> ths) q).
Proof.
  intros Hinv Hi Hprod Hcons Hpub Hstore Hok.
  pose proof (si_head _ _ _ Hinv) as Hh. pose proof (si_tail _ _ _ Hinv) as Ht.
  simpl in Hh, Ht.
  apply (sys_inv_update c n ths q i th th' q Hinv Hi); auto; try lia.
  - apply (si_wf _ _ _ Hinv).
  - intros j thj Hj. destruct (lookup_insert_cases _ _ _ _ _ _ Hi Hj) as [[-> ->]|[Hne Hj']].
    + exact Hok.
    + apply (local_ok_counters c q q ths); auto; try lia.
      * apply (si_local _ _ _ Hinv j thj Hj').
      * intros p v. apply (Pub_insert ths i th th'); auto.
  - intros p Hp Hg. destruct (si_slot _ _ _ Hinv p Hp Hg) as (v & Hv & Hd). simpl in *.
    exists v. split; [apply (Pub_insert ths i th th'); auto|].
    destruct Hd as [Hd|(j & thj & Hj & Hc)]; [left; exact Hd|]. right.
    destruct (decide (j = i)) as [->|Hne].
    + exists i, th'. split.
      * apply list_lookup_insert_eq. eapply lookup_lt_Some. exact Hi.
      * apply Hstore. congruence.
    + exists j, thj. rewrite list_lookup_insert_ne by congruence. auto.
Qed.

(** A step that moves a counter on and leaves the slots as they are. *)
Lemma step_counter c n ths q (i : nat) th th' q' :
  sys_inv c n (mk_system ths q) -> ths !! i = Some th ->
  wf c q' ->
  MPMC_Queue.head_ q <= MPMC_Queue.head_ q' <= n + 1 ->
  MPMC_Queue.tail_ q <= MPMC_Queue.tail_ q' <= n + 1 ->
  (forall p, gen c q' p = gen c q p) -> (forall p, dat c q' p = dat c q p) ->
  (prod_entries th' = prod_entries th \/
   exists v, prod_entries th' = prod_entries th ++ [(MPMC_Queue.head_ q, v)] /\
             MPMC_Queue.head_ q < MPMC_Queue.head_ q') ->
  (cons_claims th' = cons_claims th \/
   cons_claims th' = cons_claims th ++ [MPMC_Queue.tail_ q] /\
   MPMC_Queue.tail_ q < MPMC_Queue.tail_ q') ->
  (forall p v, published th p v -> published th' p v) ->
  (forall x p, consuming (doing th) = Some (CStore x, p) -> False) ->
  local_ok c q' (<[i := th']> ths) th' ->
  sys_inv c (n + 1) (mk_system (<[i := th']> ths) q').
Proof.
  intros Hinv Hi Hwf Hhead Htail Hg Hd Hprod Hcons Hpub Hstore Hok.
  apply (sys_inv_update c n ths q i th th' q' Hinv Hi); auto.
  - intros j thj Hj. destruct (lookup_insert_cases _ _ _ _ _ _ Hi Hj) as [[-> ->]|[Hne Hj']].
    + exact Hok.
    + apply (local_ok_counters c q q' ths); auto; try lia.
      * apply (si_local _ _ _ Hinv j thj Hj').
      * intros p v. apply (Pub_insert ths i th th'); auto.
  - intros p Hp Hgp. rewrite Hg in Hgp.
    destruct (si_slot _ _ _ Hinv p Hp Hgp) as (v & Hv & Hdv). simpl in *.
    exists v. split; [apply (Pub_insert ths i th th'); auto|]. rewrite Hd.
    destruct Hdv as [Hdv|(j & thj & Hj & Hc)]; [left; exact Hdv|]. right.
    destruct (decide (j = i)) as [->|Hne].
    + exfalso. apply (Hstore v p). congruence.
    + exists j, thj. rewrite list_lookup_insert_ne by congruence. auto.
Qed.

End Kinds.

Section SlotSteps.
Context {T : Type} `{MPMC_Type T}.
Implicit Types (q : MPMC_Queue.t T) (v : T) (th : @thread T) (ths : list (@thread T)).

Lemma producing_not_consuming (a : @activity T) x :
  producing a = Some x -> consuming a = None.
Proof. destruct a as [|? []|? [| | | | | |? []]|[]|? [| | | | | |? []]]; simpl; congruence. Qed.

Lemma lookup_insert_self ths (i : nat) th th' :
  ths !! i = Some th -> <[i := th']> ths !! i = Some th'.
Proof. intros Hi. apply list_lookup_insert_eq. eapply lookup_lt_Some. exact Hi. Qed.

(** A step of the thread [i] that changes the slot of [p] only, while no
    other thread relies on that slot. *)
Lemma step_slot c n ths q (i : nat) th th' q' p :
  sys_inv c n (mk_system ths q) -> ths !! i = Some th ->
  wf c q' ->
  MPMC_Queue.head_ q' = MPMC_Queue.head_ q -> MPMC_Queue.tail_ q' = MPMC_Queue.tail_ q ->
  (forall p', p' mod c <> p mod c ->
     gen c q' p' = gen c q p' /\ dat c q' p' = dat c q p') ->
  prod_entries th' = prod_entries th -> cons_claims th' = cons_claims th ->
  (forall p v, published th p v -> published th' p v) ->
  (forall (j : nat) thj ph' p' v', j <> i -> ths !! j = Some thj ->
     producing (doing thj) = Some (ph', p', v') ->
     gen c q p' = wrap (p' / c * 2) -> p' mod c <> p mod c) ->
  (forall (j : nat) thj ph' p', j <> i -> ths !! j = Some thj ->
     consuming (doing thj) = Some (ph', p') ->
     gen c q p' = wrap (p' / c * 2 + 1) -> p' mod c <> p mod c) ->
  (forall h, MPMC_Queue.head_ q = h -> gen c q h = wrap (h / c * 2) ->
     h mod c <> p mod c) ->
  (forall t, MPMC_Queue.tail_ q = t -> gen c q t = wrap (t / c * 2 + 1) ->
     t mod c <> p mod c) ->
  local_ok c q' (<[i := th']> ths) th' ->
  (forall p, 0 <= p < 2 ^ 63 -> gen c q' p = wrap (p / c * 2 + 1) ->
     exists v, Pub (<[i := th']> ths) p v /\
       (dat c q' p = v \/
        exists (j : nat) thj, <[i := th']> ths !! j = Some thj /\
                              consuming (doing thj) = Some (CStore v, p))) ->
  sys_inv c (n + 1) (mk_system (<[i := th']> ths) q').
Proof.
  intros Hinv Hi Hwf Hhead Htail Hslot Hprod Hcons Hpub Xp Xc Xh Xt Hok Hs.
  pose proof (si_head _ _ _ Hinv) as Hh. pose proof (si_tail _ _ _ Hinv) as Ht.
  simpl in Hh, Ht.
  apply (sys_inv_update c n ths q i th th' q' Hinv Hi); auto; try lia.
  intros j thj Hj. destruct (lookup_insert_cases _ _ _ _ _ _ Hi Hj) as [[-> ->]|[Hne Hj']].
  - exact Hok.
  - apply (local_ok_other_slot c q q' ths _ thj p); eauto.
    + apply (si_local _ _ _ Hinv j thj Hj').
    + intros p0 v. apply (Pub_insert ths i th th'); auto.
Qed.

(** Line 173 (190): the producer that holds the slot of [p] writes its
    value. *)
Lemma step_assign c n ths q (i : nat) th th' p v :
  sys_inv c n (mk_system ths q) -> n < 2 ^ 63 -> ths !! i = Some th ->
  producing (doing th) = Some (PAssign, p, v) ->
  producing (doing th') = Some (PStore, p, v) ->
  consuming (doing th') = None ->
  watching_head (doing th') = None -> watching_tail (doing th') = None ->
  t_produced th' = t_produced th -> t_consumed th' = t_consumed th ->
  sys_inv c (n + 1)
    (mk_system (<[i := th']> ths)
       (MPMC_Queue.set_slot q (p mod c)
          (Slot.assign_value v (MPMC_Queue.slot q (p mod c))))).
Proof.
  intros Hinv Hn Hi Hph Hph' Hc' Hwh' Hwt' Hprod Hcons.
  pose proof (si_wf _ _ _ Hinv) as Hwf. simpl in Hwf.
  pose proof (si_local _ _ _ Hinv i th Hi) as Hok. simpl in Hok.
  pose proof (lo_prod _ _ _ _ Hok _ _ _ Hph) as Hg. simpl in Hg.
  destruct (prod_owner_excludes c n ths q i th _ p v Hinv Hn Hi Hph Hg) as (Xp & Xodd & Xh).
  pose proof (producing_not_consuming _ _ Hph) as Hc.
  assert (forall p0 v0, published th p0 v0 -> published th' p0 v0) as Hpub.
  { intros p0 v0 [Hin|Hd]; [left; congruence|]. rewrite Hph in Hd. discriminate. }
  set (q' := MPMC_Queue.set_slot q (p mod c)
               (Slot.assign_value v (MPMC_Queue.slot q (p mod c)))).
  assert (forall p', gen c q' p' = gen c q p') as Hgen.
  { intros p'. apply gen_same_turn; [exact Hwf|reflexivity]. }
  apply (step_slot c n ths q i th th' q' p Hinv Hi).
  - apply wf_set_slot. exact Hwf.
  - reflexivity.
  - reflexivity.
  - intros p' Hne. split; [apply Hgen|]. apply dat_set_slot_ne; assumption.
  - unfold prod_entries. rewrite Hprod, Hph, Hph'. reflexivity.
  - unfold cons_claims. rewrite Hcons, Hc, Hc'. reflexivity.
  - exact Hpub.
  - exact Xp.
  - intros j thj ph' p' _ _ _ Hg'. apply (Xodd p' Hg').
  - exact Xh.
  - intros t _ Hg'. apply (Xodd t Hg').
  - constructor.
    + intros ph0 p0 v0 E. rewrite Hph' in E. injection E as <- <- <-.
      split; [rewrite Hgen; exact Hg|apply dat_set_slot_eq; exact Hwf].
    + intros ph0 p0 E. congruence.
    + intros b h E. congruence.
    + intros b t E. congruence.
    + intros p0 x Hin. rewrite Hcons in Hin.
      apply (Pub_insert ths i th th'); auto. apply (lo_log _ _ _ _ Hok _ _ Hin).
  - intros p' Hp' Hg'. rewrite Hgen in Hg'.
    destruct (si_slot _ _ _ Hinv p' Hp' Hg') as (v0 & Hv0 & Hd). simpl in *.
    exists v0. split; [apply (Pub_insert ths i th th'); auto|].
    unfold q'. rewrite (dat_set_slot_ne c q p p') by (auto using Xodd).
    destruct Hd as [Hd|(j & thj & Hj & Hcj)]; [left; exact Hd|]. right.
    destruct (decide (j = i)) as [->|Hne]; [congruence|].
    exists j, thj. rewrite list_lookup_insert_ne by congruence. auto.
Qed.

(** Line 174 (191): the producer publishes its value. *)
Lemma step_publish c n ths q (i : nat) th th' p v :
  sys_inv c n (mk_system ths q) -> n < 2 ^ 63 -> ths !! i = Some th ->
  producing (doing th) = Some (PStore, p, v) ->
  producing (doing th') = Some (PDone, p, v) ->
  consuming (doing th') = None ->
  watching_head (doing th') = None -> watching_tail (doing th') = None ->
  t_produced th' = t_produced th -> t_consumed th' = t_consumed th ->
  sys_inv c (n + 1)
    (mk_system (<[i := th']> ths)
       (MPMC_Queue.set_slot q (p mod c)
          (Slot.store_turn (wrap (p / c * 2 + 1)) (MPMC_Queue.slot q (p mod c))))).
Proof.
  intros Hinv Hn Hi Hph Hph' Hc' Hwh' Hwt' Hprod Hcons.
  pose proof (si_wf _ _ _ Hinv) as Hwf. simpl in Hwf.
  assert (1 <= c) as Hc1 by (destruct Hwf as (_ & _ & ?); lia).
  pose proof (si_local _ _ _ Hinv i th Hi) as Hok. simpl in Hok.
  pose proof (lo_prod _ _ _ _ Hok _ _ _ Hph) as [Hg Hd]. simpl in Hg, Hd.
  destruct (prod_owner_excludes c n ths q i th _ p v Hinv Hn Hi Hph Hg) as (Xp & Xodd & Xh).
  pose proof (producing_not_consuming _ _ Hph) as Hc.
  pose proof (si_prod_bound _ _ _ Hinv i th p Hi (producing_claims _ _ _ _ Hph)) as Hpb.
  pose proof (si_head _ _ _ Hinv) as Hhead. simpl in Hpb, Hhead.
  assert (forall p0 v0, published th p0 v0 -> published th' p0 v0) as Hpub.
  { intros p0 v0 [Hin|Hd0]; [left; congruence|]. rewrite Hph in Hd0. discriminate. }
  set (q' := MPMC_Queue.set_slot q (p mod c)
               (Slot.store_turn (wrap (p / c * 2 + 1)) (MPMC_Queue.slot q (p mod c)))).
  assert (forall p', dat c q' p' = dat c q p') as Hdat.
  { intros p'. apply dat_store_turn. exact Hwf. }
  apply (step_slot c n ths q i th th' q' p Hinv Hi).
  - apply wf_set_slot. exact Hwf.
  - reflexivity.
  - reflexivity.
  - intros p' Hne. split; [apply gen_set_slot_ne; assumption|apply Hdat].
  - unfold prod_entries. rewrite Hprod, Hph, Hph'. reflexivity.
  - unfold cons_claims. rewrite Hcons, Hc, Hc'. reflexivity.
  - exact Hpub.
  - exact Xp.
  - intros j thj ph' p' _ _ _ Hg'. apply (Xodd p' Hg').
  - exact Xh.
  - intros t _ Hg'. apply (Xodd t Hg').
  - constructor.
    + intros ph0 p0 v0 E. rewrite Hph' in E. injection E as <- <- <-. exact I.
    + intros ph0 p0 E. congruence.
    + intros b h E. congruence.
    + intros b t E. congruence.
    + intros p0 x Hin. rewrite Hcons in Hin.
      apply (Pub_insert ths i th th'); auto. apply (lo_log _ _ _ _ Hok _ _ Hin).
  - intros p' Hp' Hg'. destruct (decide (p' mod c = p mod c)) as [Hm|Hm].
    + assert (p' = p) as ->.
      { apply (position_eq c); [exact Hc1|exact Hm|].
        unfold gen in Hg'. rewrite Hm in Hg'. fold (gen c q' p) in Hg'.
        unfold q' in Hg'. rewrite gen_set_slot_eq in Hg' by exact Hwf. simpl in Hg'.
        symmetry. apply (wrap_double_inj _ _ 1); auto using round_bound; try lia.
        apply round_bound; lia. }
      exists v. split.
      * exists i, th'. split; [apply (lookup_insert_self _ _ th); exact Hi|].
        right. exact Hph'.
      * left. rewrite Hdat. exact Hd.
    + unfold q' in Hg'. rewrite gen_set_slot_ne in Hg' by assumption.
      destruct (si_slot _ _ _ Hinv p' Hp' Hg') as (v0 & Hv0 & Hd0). simpl in *.
      exists v0. split; [apply (Pub_insert ths i th th'); auto|]. rewrite Hdat.
      destruct Hd0 as [Hd0|(j & thj & Hj & Hcj)]; [left; exact Hd0|]. right.
      destruct (decide (j = i)) as [->|Hne]; [congruence|].
      exists j, thj. rewrite list_lookup_insert_ne by congruence. auto.
Qed.

End SlotSteps.

Section SlotStepsConsumer.
Context {T : Type} `{MPMC_Type T}.
Implicit Types (q : MPMC_Queue.t T) (v : T) (th : @thread T) (ths : list (@thread T)).

Lemma consuming_not_producing (a : @activity T) x :
  consuming a = Some x -> producing a = None.
Proof. destruct a as [|? []|? [| | | | | |? []]|[]|? [| | | | | |? []]]; simpl; congruence. Qed.

(** Line 233 (247): the consumer that holds the slot of [p] takes the
    value out. *)
Lemma step_take c n ths q (i : nat) th th' p :
  sys_inv c n (mk_system ths q) -> n < 2 ^ 63 -> ths !! i = Some th ->
  consuming (doing th) = Some (CTake, p) ->
  consuming (doing th') = Some (CStore (dat c q p), p) ->
  producing (doing th') = None ->
  watching_head (doing th') = None -> watching_tail (doing th') = None ->
  t_produced th' = t_produced th -> t_consumed th' = t_consumed th ->
  sys_inv c (n + 1)
    (mk_system (<[i := th']> ths)
       (MPMC_Queue.set_slot q (p mod c) (Slot.moved_out (MPMC_Queue.slot q (p mod c))))).
Proof.
  intros Hinv Hn Hi Hph Hph' Hp' Hwh' Hwt' Hprod Hcons.
  pose proof (si_wf _ _ _ Hinv) as Hwf. simpl in Hwf.
  assert (1 <= c) as Hc1 by (destruct Hwf as (_ & _ & ?); lia).
  pose proof (si_local _ _ _ Hinv i th Hi) as Hok. simpl in Hok.
  pose proof (lo_cons _ _ _ _ Hok _ _ Hph) as [Hg Hd]. simpl in Hg, Hd.
  destruct (cons_owner_excludes c n ths q i th _ p Hinv Hn Hi Hph Hg) as (Xc & Xeven & Xt).
  pose proof (consuming_not_producing _ _ Hph) as Hp.
  pose proof (si_cons_bound _ _ _ Hinv i th p Hi (consuming_claims _ _ _ Hph)) as Hpb.
  pose proof (si_tail _ _ _ Hinv) as Htail. simpl in Hpb, Htail.
  assert (forall p0 v0, published th p0 v0 -> published th' p0 v0) as Hpub.
  { intros p0 v0 [Hin|Hd0]; [left; congruence|]. rewrite Hp in Hd0. discriminate. }
  set (q' := MPMC_Queue.set_slot q (p mod c) (Slot.moved_out (MPMC_Queue.slot q (p mod c)))).
  assert (forall p', gen c q' p' = gen c q p') as Hgen.
  { intros p'. apply gen_same_turn; [exact Hwf|reflexivity]. }
  apply (step_slot c n ths q i th th' q' p Hinv Hi).
  - apply wf_set_slot. exact Hwf.
  - reflexivity.
  - reflexivity.
  - intros p' Hne. split; [apply Hgen|]. apply dat_set_slot_ne; assumption.
  - unfold prod_entries. rewrite Hprod, Hp, Hp'. reflexivity.
  - unfold cons_claims. rewrite Hcons, Hph, Hph'. reflexivity.
  - exact Hpub.
  - intros j thj ph' p' v' _ _ _ Hg'. apply (Xeven p' Hg').
  - exact Xc.
  - intros h _ Hg'. apply (Xeven h Hg').
  - exact Xt.
  - constructor.
    + intros ph0 p0 v0 E. congruence.
    + intros ph0 p0 E. rewrite Hph' in E. injection E as <- <-.
      split; [rewrite Hgen; exact Hg|]. apply (Pub_insert ths i th th'); auto.
    + intros b h E. congruence.
    + intros b t E. congruence.
    + intros p0 x Hin. rewrite Hcons in Hin.
      apply (Pub_insert ths i th th'); auto. apply (lo_log _ _ _ _ Hok _ _ Hin).
  - intros p' Hp0 Hg'. rewrite Hgen in Hg'.
    destruct (decide (p' mod c = p mod c)) as [Hm|Hm].
    + assert (p' = p) as -> by (apply (same_slot_odd c q p' p); auto; lia).
      exists (dat c q p). split; [apply (Pub_insert ths i th th'); auto|]. right.
      exists i, th'. split; [apply (lookup_insert_self _ _ th); exact Hi|exact Hph'].
    + destruct (si_slot _ _ _ Hinv p' Hp0 Hg') as (v0 & Hv0 & Hd0). simpl in *.
      exists v0. split; [apply (Pub_insert ths i th th'); auto|].
      unfold q'. rewrite (dat_set_slot_ne c q p p') by assumption.
      destruct Hd0 as [Hd0|(j & thj & Hj & Hcj)]; [left; exact Hd0|]. right.
      destruct (decide (j = i)) as [->|Hne]; [congruence|].
      exists j, thj. rewrite list_lookup_insert_ne by congruence. auto.
Qed.

(** Line 234 (248): the consumer releases the slot for the next round. *)
Lemma step_release c n ths q (i : nat) th th' p x :
  sys_inv c n (mk_system ths q) -> n < 2 ^ 63 -> ths !! i = Some th ->
  consuming (doing th) = Some (CStore x, p) ->
  consuming (doing th') = Some (CDone x, p) ->
  producing (doing th') = None ->
  watching_head (doing th') = None -> watching_tail (doing th') = None ->
  t_produced th' = t_produced th -> t_consumed th' = t_consumed th ->
  sys_inv c (n + 1)
    (mk_system (<[i := th']> ths)
       (MPMC_Queue.set_slot q (p mod c)
          (Slot.store_turn (wrap (p / c * 2 + 2)) (MPMC_Queue.slot q (p mod c))))).
Proof.
  intros Hinv Hn Hi Hph Hph' Hp' Hwh' Hwt' Hprod Hcons.
  pose proof (si_wf _ _ _ Hinv) as Hwf. simpl in Hwf.
  assert (1 <= c) as Hc1 by (destruct Hwf as (_ & _ & ?); lia).
  pose proof (si_local _ _ _ Hinv i th Hi) as Hok. simpl in Hok.
  pose proof (lo_cons _ _ _ _ Hok _ _ Hph) as [Hg Hd]. simpl in Hg, Hd.
  destruct (cons_owner_excludes c n ths q i th _ p Hinv Hn Hi Hph Hg) as (Xc & Xeven & Xt).
  pose proof (consuming_not_producing _ _ Hph) as Hp.
  assert (forall p0 v0, published th p0 v0 -> published th' p0 v0) as Hpub.
  { intros p0 v0 [Hin|Hd0]; [left; congruence|]. rewrite Hp in Hd0. discriminate. }
  set (q' := MPMC_Queue.set_slot q (p mod c)
               (Slot.store_turn (wrap (p / c * 2 + 2)) (MPMC_Queue.slot q (p mod c)))).
  assert (forall p', dat c q' p' = dat c q p') as Hdat.
  { intros p'. apply dat_store_turn. exact Hwf. }
  apply (step_slot c n ths q i th th' q' p Hinv Hi).
  - apply wf_set_slot. exact Hwf.
  - reflexivity.
  - reflexivity.
  - intros p' Hne. split; [apply gen_set_slot_ne; assumption|apply Hdat].
  - unfold prod_entries. rewrite Hprod, Hp, Hp'. reflexivity.
  - unfold cons_claims. rewrite Hcons, Hph, Hph'. reflexivity.
  - exact Hpub.
  - intros j thj ph' p' v' _ _ _ Hg'. apply (Xeven p' Hg').
  - exact Xc.
  - intros h _ Hg'. apply (Xeven h Hg').
  - exact Xt.
  - constructor.
    + intros ph0 p0 v0 E. congruence.
    + intros ph0 p0 E. rewrite Hph' in E. injection E as <- <-.
      apply (Pub_insert ths i th th'); auto.
    + intros b h E. congruence.
    + intros b t E. congruence.
    + intros p0 x0 Hin. rewrite Hcons in Hin.
      apply (Pub_insert ths i th th'); auto. apply (lo_log _ _ _ _ Hok _ _ Hin).
  - intros p' Hp0 Hg'. destruct (decide (p' mod c = p mod c)) as [Hm|Hm].
    + exfalso. unfold gen in Hg'. rewrite Hm in Hg'. fold (gen c q' p) in Hg'.
      unfold q' in Hg'. rewrite gen_set_slot_eq in Hg' by exact Hwf. simpl in Hg'.
      replace (p / c * 2 + 2) with ((p / c + 1) * 2) in Hg' by lia.
      exact (wrap_parity _ _ Hg').
    + unfold q' in Hg'. rewrite gen_set_slot_ne in Hg' by assumption.
      destruct (si_slot _ _ _ Hinv p' Hp0 Hg') as (v0 & Hv0 & Hd0). simpl in *.
      exists v0. split; [apply (Pub_insert ths i th th'); auto|]. rewrite Hdat.
      destruct Hd0 as [Hd0|(j & thj & Hj & Hcj)]; [left; exact Hd0|]. right.
      destruct (decide (j = i)) as [->|Hne].
      * exfalso. apply Hm. rewrite Hj in Hi. injection Hi as ->. congruence.
      * exists j, thj. rewrite list_lookup_insert_ne by congruence. auto.
Qed.

End SlotStepsConsumer.

Section ThreadSteps.
Context {T : Type} `{MPMC_Type T}.
Implicit Types (q : MPMC_Queue.t T) (v : T) (th : @thread T) (ths : list (@thread T)).

Lemma local_ok_plain c q ths th :
  producing (doing th) = None -> consuming (doing th) = None ->
  watching_head (doing th) = None -> watching_tail (doing th) = None ->
  (forall p x, In (p, x) (t_consumed th) -> Pub ths p x) ->
  local_ok c q ths th.
Proof. intros Hp Hc Hh Ht Hl. constructor; auto; intros; congruence. Qed.

Lemma log_kept c q ths (i : nat) th th' :
  ths !! i = Some th -> local_ok c q ths th ->
  (forall p v, published th p v -> published th' p v) ->
  t_consumed th' = t_consumed th ->
  forall p x, In (p, x) (t_consumed th') -> Pub (<[i := th']> ths) p x.
Proof.
  intros Hi Hok Hpub Hc p x Hin. rewrite Hc in Hin.
  apply (Pub_insert ths i th th'); auto. apply (lo_log _ _ _ _ Hok _ _ Hin).
Qed.

Lemma published_same th th' :
  t_produced th' = t_produced th -> producing (doing th) = None ->
  forall p v, published th p v -> published th' p v.
Proof. intros Hp Hn p v [Hin|Hd]; [left; congruence|congruence]. Qed.

Lemma published_logged th th' p v :
  producing (doing th) = Some (PDone, p, v) ->
  t_produced th' = t_produced th ++ [(p, v)] ->
  forall p0 v0, published th p0 v0 -> published th' p0 v0.
Proof.
  intros Hd Hp p0 v0 [Hin|Hd0]; left; rewrite Hp; apply in_or_app.
  - left. exact Hin.
  - right. left. congruence.
Qed.

Lemma published_phase th th' ph ph' p v :
  t_produced th' = t_produced th ->
  producing (doing th) = Some (ph, p, v) -> producing (doing th') = Some (ph', p, v) ->
  (ph = PDone -> ph' = PDone) ->
  forall p0 v0, published th p0 v0 -> published th' p0 v0.
Proof.
  intros Hp Hph Hph' Hd p0 v0 [Hin|Hd0]; [left; congruence|]. right.
  rewrite Hph in Hd0. injection Hd0 as -> <- <-. rewrite Hph', Hd by reflexivity. reflexivity.
Qed.

(** The slot that a spinning consumer finds full holds the value published
    at its position. *)
Lemma full_slot_published c n ths q (i : nat) th p :
  sys_inv c n (mk_system ths q) -> n < 2 ^ 63 -> ths !! i = Some th ->
  consuming (doing th) = Some (CSpin, p) ->
  gen c q p = wrap (p / c * 2 + 1) -> Pub ths p (dat c q p).
Proof.
  intros Hinv Hn Hi Hph Hg.
  pose proof (si_cons_bound _ _ _ Hinv i th p Hi (consuming_claims _ _ _ Hph)) as Hpb.
  pose proof (si_tail _ _ _ Hinv) as Htail. simpl in Hpb, Htail.
  destruct (si_slot _ _ _ Hinv p ltac:(lia) Hg) as (v & Hv & Hd). simpl in *.
  destruct Hd as [->|(j & thj & Hj & Hc)]; [exact Hv|]. exfalso.
  destruct (decide (j = i)) as [->|Hne]; [congruence|].
  apply (si_cons_disj _ _ _ Hinv j i thj th p Hne Hj Hi); eauto using consuming_claims.
Qed.

(** So does the slot of [tail_] when it is full. *)
Lemma tail_slot_published c n ths q :
  sys_inv c n (mk_system ths q) -> n < 2 ^ 63 ->
  gen c q (MPMC_Queue.tail_ q) = wrap (MPMC_Queue.tail_ q / c * 2 + 1) ->
  Pub ths (MPMC_Queue.tail_ q) (dat c q (MPMC_Queue.tail_ q)).
Proof.
  intros Hinv Hn Hg.
  pose proof (si_tail _ _ _ Hinv) as Htail. simpl in Htail.
  destruct (si_slot _ _ _ Hinv (MPMC_Queue.tail_ q) ltac:(lia) Hg) as (v & Hv & Hd).
  simpl in *.
  destruct Hd as [->|(j & thj & Hj & Hc)]; [exact Hv|]. exfalso.
  pose proof (si_cons_bound _ _ _ Hinv j thj _ Hj (consuming_claims _ _ _ Hc)) as Hb.
  simpl in Hb. lia.
Qed.

Lemma step_idle c n ths q (i : nat) th :
  sys_inv c n (mk_system ths q) -> ths !! i = Some th -> doing th = Idle ->
  sys_inv c (n + 1) (mk_system (<[i := enter th]> ths) q).
Proof.
  intros Hinv Hi Hd.
  pose proof (si_local _ _ _ Hinv i th Hi) as Hok. simpl in Hok.
  destruct th as [a td val prod cons]. simpl in Hd. subst a.
  assert (forall th', t_produced th' = prod -> t_consumed th' = cons ->
            producing (doing th') = None -> consuming (doing th') = None ->
            watching_head (doing th') = None -> watching_tail (doing th') = None ->
            sys_inv c (n + 1) (mk_system (<[i := th']> ths) q)) as Hplain.
  { intros th' Hp Hc Hpn Hcn Hwh Hwt.
    assert (forall p v, published (mk_thread Idle td val prod cons) p v -> published th' p v)
      as Hpub by (apply published_same; auto).
    apply (step_quiet c n ths q i _ th' Hinv Hi).
    - unfold prod_entries. rewrite Hp, Hpn. reflexivity.
    - unfold cons_claims. rewrite Hc, Hcn. reflexivity.
    - exact Hpub.
    - intros x p E. discriminate.
    - apply local_ok_plain; auto. apply (log_kept c q ths i _ th' Hi Hok Hpub). exact Hc. }
  unfold enter. simpl. destruct td as [|k td]; [apply Hplain; reflexivity|].
  destruct k; apply Hplain; reflexivity.
Qed.

Ltac local_ok_clauses :=
  constructor;
  [ simpl; intros ?ph ?p ?v E | simpl; intros ?ph ?p E
  | simpl; intros ?b ?h E | simpl; intros ?b ?t E | ];
  try discriminate.

Lemma wf_set_head c q h : wf c q -> wf c (MPMC_Queue.set_head q h).
Proof. intros Hwf. exact Hwf. Qed.

Lemma wf_set_tail c q t : wf c q -> wf c (MPMC_Queue.set_tail q t).
Proof. intros Hwf. exact Hwf. Qed.

Lemma step_in_emplace c n ths q (i : nat) th v s :
  sys_inv c n (mk_system ths q) -> n < 2 ^ 63 -> ths !! i = Some th ->
  doing th = In_emplace v s ->
  sys_inv c (n + 1)
    (mk_system (<[i := fst (thread_step th q)]> ths) (snd (thread_step th q))).
Proof.
  intros Hinv Hn Hi Hd.
  pose proof (si_local _ _ _ Hinv i th Hi) as Hok. simpl in Hok.
  pose proof (si_wf _ _ _ Hinv) as Hwf. simpl in Hwf.
  pose proof (si_head _ _ _ Hinv) as Hhead. simpl in Hhead.
  pose proof (si_tail _ _ _ Hinv) as Htail. simpl in Htail.
  destruct Hwf as (Hcap & Hlen & Hc) eqn:E. clear E.
  destruct th as [a td val prod cons]. simpl in Hd. subst a.
  unfold thread_step. simpl. destruct s as [|p|p|p|p]; simpl.
  - (* line 170 *)
    apply (step_counter c n ths q i _ _ _ Hinv Hi).
    + apply wf_set_head. exact Hwf.
    + simpl. rewrite wrap_small by lia. lia.
    + simpl. lia.
    + reflexivity.
    + reflexivity.
    + right. exists v. unfold prod_entries. simpl. rewrite app_nil_r, wrap_small by lia.
      split; [reflexivity|lia].
    + left. reflexivity.
    + apply published_same; reflexivity.
    + intros x p E. discriminate.
    + local_ok_clauses.
      * injection E as <- <- <-. exact I.
      * apply (log_kept c q ths i _ _ Hi Hok); [apply published_same|]; reflexivity.
  - (* line 172 *)
    unfold MPMC_Queue.turn. rewrite Hcap.
    destruct (wrap (p / c * 2) =? Slot.turn (MPMC_Queue.slot q (p mod c))) eqn:Hg; simpl.
    + apply Z.eqb_eq in Hg. symmetry in Hg. fold (gen c q p) in Hg.
      apply (step_quiet c n ths q i _ _ Hinv Hi); try reflexivity.
      * apply (published_phase _ _ PSpin PAssign p v); try reflexivity. discriminate.
      * intros x p0 E. discriminate.
      * local_ok_clauses.
        -- injection E as <- <- <-. exact Hg.
        -- apply (log_kept c q ths i _ _ Hi Hok); [|reflexivity].
           apply (published_phase _ _ PSpin PAssign p v); try reflexivity. discriminate.
    + apply (step_quiet c n ths q i _ _ Hinv Hi);
        [reflexivity|reflexivity|auto|intros x p0 E; discriminate|].
      apply (local_ok_counters c q q ths); auto; try lia.
      intros p0 v0. apply (Pub_insert ths i _ _ p0 v0 Hi). auto.
  - (* line 173 *)
    rewrite Hcap. apply (step_assign c n ths q i _ _ p v Hinv Hn Hi); reflexivity.
  - (* line 174 *)
    unfold MPMC_Queue.turn. rewrite Hcap.
    apply (step_publish c n ths q i _ _ p v Hinv Hn Hi); reflexivity.
  - (* the call returns *)
    apply (step_quiet c n ths q i _ _ Hinv Hi).
    + unfold prod_entries. simpl. rewrite app_nil_r. reflexivity.
    + reflexivity.
    + apply (published_logged _ _ p v); reflexivity.
    + intros x p0 E. discriminate.
    + apply local_ok_plain; try reflexivity.
      apply (log_kept c q ths i _ _ Hi Hok); [|reflexivity].
      apply (published_logged _ _ p v); reflexivity.
Qed.

Lemma step_in_try_emplace c n ths q (i : nat) th v s :
  sys_inv c n (mk_system ths q) -> n < 2 ^ 63 -> ths !! i = Some th ->
  doing th = In_try_emplace v s ->
  sys_inv c (n + 1)
    (mk_system (<[i := fst (thread_step th q)]> ths) (snd (thread_step th q))).
Proof.
  intros Hinv Hn Hi Hd.
  pose proof (si_local _ _ _ Hinv i th Hi) as Hok. simpl in Hok.
  pose proof (si_wf _ _ _ Hinv) as Hwf. simpl in Hwf.
  pose proof (si_head _ _ _ Hinv) as Hhead. simpl in Hhead.
  pose proof (si_tail _ _ _ Hinv) as Htail. simpl in Htail.
  destruct Hwf as (Hcap & Hlen & Hc) eqn:E. clear E.
  destruct th as [a td val prod cons]. simpl in Hd. subst a.
  assert (forall s', producing (In_try_emplace v s') = None ->
            (forall b h, watching_head (In_try_emplace v s') = Some (b, h) ->
               h <= MPMC_Queue.head_ q /\
               (b = true -> MPMC_Queue.head_ q = h -> gen c q h = wrap (h / c * 2))) ->
            producing (In_try_emplace v s) = None ->
            sys_inv c (n + 1)
              (mk_system (<[i := mk_thread (In_try_emplace v s') td val prod cons]> ths) q))
    as Hquiet.
  { intros s' Hp' Hw' Hp.
    assert (forall p0 v0, published (mk_thread (In_try_emplace v s) td val prod cons) p0 v0 ->
              published (mk_thread (In_try_emplace v s') td val prod cons) p0 v0) as Hpub
      by (apply published_same; auto).
    apply (step_quiet c n ths q i _ _ Hinv Hi).
    - unfold prod_entries. cbn [doing t_produced]. rewrite Hp, Hp'. reflexivity.
    - reflexivity.
    - exact Hpub.
    - intros x p0 E. destruct s as [| | | | | |? []]; discriminate.
    - constructor.
      + cbn [doing]. intros ph p0 v0 E. congruence.
      + cbn [doing]. intros ph p0 E. destruct s' as [| | | | | |? []]; discriminate.
      + cbn [doing]. exact Hw'.
      + cbn [doing]. intros b t E. destruct s' as [| | | | | |? []]; discriminate.
      + apply (log_kept c q ths i _ _ Hi Hok Hpub). reflexivity. }
  unfold thread_step. simpl. destruct s as [|h|h|p|p|h|p r]; simpl.
  - (* line 182 *)
    apply Hquiet; try reflexivity.
    simpl. intros b h E. injection E as <- <-. split; [lia|discriminate].
  - (* lines 185-186 *)
    unfold MPMC_Queue.turn. rewrite Hcap.
    destruct (lo_head _ _ _ _ Hok false h eq_refl) as [Hle _].
    destruct (wrap (h / c * 2) =? Slot.turn (MPMC_Queue.slot q (h mod c))) eqn:Hg; simpl.
    + apply Z.eqb_eq in Hg. symmetry in Hg. fold (gen c q h) in Hg.
      apply Hquiet; try reflexivity.
      simpl. intros b h0 E. injection E as <- <-. auto.
    + apply Hquiet; try reflexivity. simpl. intros b h0 E. discriminate.
  - (* line 188 *)
    destruct (lo_head _ _ _ _ Hok true h eq_refl) as [Hle Hgen].
    destruct (MPMC_Queue.head_ q =? h) eqn:He; simpl.
    + apply Z.eqb_eq in He. specialize (Hgen eq_refl He). subst h.
      apply (step_counter c n ths q i _ _ _ Hinv Hi).
      * apply wf_set_head. exact Hwf.
      * simpl. rewrite wrap_small by lia. lia.
      * simpl. lia.
      * reflexivity.
      * reflexivity.
      * right. exists v. unfold prod_entries. simpl. rewrite app_nil_r, wrap_small by lia.
        split; [reflexivity|lia].
      * left. reflexivity.
      * apply published_same; reflexivity.
      * intros x p E. discriminate.
      * local_ok_clauses.
        -- injection E as <- <- <-. exact Hgen.
        -- apply (log_kept c q ths i _ _ Hi Hok); [apply published_same|]; reflexivity.
    + apply Hquiet; try reflexivity.
      simpl. intros b h0 E. injection E as <- <-. split; [lia|discriminate].
  - (* line 190 *)
    rewrite Hcap. apply (step_assign c n ths q i _ _ p v Hinv Hn Hi); reflexivity.
  - (* line 191 *)
    unfold MPMC_Queue.turn. rewrite Hcap.
    apply (step_publish c n ths q i _ _ p v Hinv Hn Hi); reflexivity.
  - (* lines 197-201 *)
    destruct (MPMC_Queue.head_ q =? h) eqn:He; simpl.
    + apply Hquiet; try reflexivity. simpl. intros b h0 E. discriminate.
    + apply Hquiet; try reflexivity.
      simpl. intros b h0 E. injection E as <- <-. split; [lia|discriminate].
  - (* the call returns *)
    destruct r.
    + apply (step_quiet c n ths q i _ _ Hinv Hi).
      * unfold prod_entries. simpl. rewrite app_nil_r. reflexivity.
      * reflexivity.
      * apply (published_logged _ _ p v); reflexivity.
      * intros x p0 E. discriminate.
      * apply local_ok_plain; try reflexivity.
        apply (log_kept c q ths i _ _ Hi Hok); [|reflexivity].
        apply (published_logged _ _ p v); reflexivity.
    + apply (step_quiet c n ths q i _ _ Hinv Hi).
      * reflexivity.
      * reflexivity.
      * apply published_same; reflexivity.
      * intros x p0 E. discriminate.
      * apply local_ok_plain; try reflexivity.
        apply (log_kept c q ths i _ _ Hi Hok); [apply published_same|]; reflexivity.
Qed.

Lemma log_extended c q ths (i : nat) th th' p x :
  ths !! i = Some th -> local_ok c q ths th ->
  (forall p0 v0, published th p0 v0 -> published th' p0 v0) ->
  consuming (doing th) = Some (CDone x, p) ->
  t_consumed th' = t_consumed th ++ [(p, x)] ->
  forall p0 x0, In (p0, x0) (t_consumed th') -> Pub (<[i := th']> ths) p0 x0.
Proof.
  intros Hi Hok Hpub Hph Hc p0 x0 Hin. rewrite Hc in Hin.
  apply (Pub_insert ths i th th'); auto.
  apply in_app_or in Hin as [Hin|[E|[]]].
  - apply (lo_log _ _ _ _ Hok _ _ Hin).
  - injection E as <- <-. apply (lo_cons _ _ _ _ Hok _ _ Hph).
Qed.

Lemma step_in_pop c n ths q (i : nat) th s :
  sys_inv c n (mk_system ths q) -> n < 2 ^ 63 -> ths !! i = Some th ->
  doing th = In_pop s ->
  sys_inv c (n + 1)
    (mk_system (<[i := fst (thread_step th q)]> ths) (snd (thread_step th q))).
Proof.
  intros Hinv Hn Hi Hd.
  pose proof (si_local _ _ _ Hinv i th Hi) as Hok. simpl in Hok.
  pose proof (si_wf _ _ _ Hinv) as Hwf. simpl in Hwf.
  pose proof (si_head _ _ _ Hinv) as Hhead. simpl in Hhead.
  pose proof (si_tail _ _ _ Hinv) as Htail. simpl in Htail.
  destruct Hwf as (Hcap & Hlen & Hc) eqn:E. clear E.
  destruct th as [a td val prod cons]. simpl in Hd. subst a.
  unfold thread_step. simpl. destruct s as [|p|p|p x|p x]; simpl.
  - (* line 230 *)
    apply (step_counter c n ths q i _ _ _ Hinv Hi).
    + apply wf_set_tail. exact Hwf.
    + simpl. lia.
    + simpl. rewrite wrap_small by lia. lia.
    + reflexivity.
    + reflexivity.
    + left. reflexivity.
    + right. unfold cons_claims. simpl. rewrite app_nil_r, wrap_small by lia.
      split; [reflexivity|lia].
    + apply published_same; reflexivity.
    + intros x p E. discriminate.
    + local_ok_clauses.
      * injection E as <- <-. exact I.
      * apply (log_kept c q ths i _ _ Hi Hok); [apply published_same|]; reflexivity.
  - (* line 232 *)
    unfold MPMC_Queue.turn. rewrite Hcap.
    destruct (wrap (p / c * 2 + 1) =? Slot.turn (MPMC_Queue.slot q (p mod c))) eqn:Hg; simpl.
    + apply Z.eqb_eq in Hg. symmetry in Hg. fold (gen c q p) in Hg.
      apply (step_quiet c n ths q i _ _ Hinv Hi); try reflexivity.
      * apply published_same; reflexivity.
      * intros x p0 E. discriminate.
      * local_ok_clauses.
        -- injection E as <- <-. split; [exact Hg|].
           apply (Pub_insert ths i _ _ p (dat c q p) Hi); [apply published_same; reflexivity|].
           apply (full_slot_published c n ths q i _ p Hinv Hn Hi); [reflexivity|exact Hg].
        -- apply (log_kept c q ths i _ _ Hi Hok); [apply published_same|]; reflexivity.
    + apply (step_quiet c n ths q i _ _ Hinv Hi);
        [reflexivity|reflexivity|auto|intros x p0 E; discriminate|].
      apply (local_ok_counters c q q ths); auto; try lia.
      intros p0 v0. apply (Pub_insert ths i _ _ p0 v0 Hi). auto.
  - (* line 233 *)
    rewrite Hcap. apply (step_take c n ths q i _ _ p Hinv Hn Hi); reflexivity.
  - (* line 234 *)
    unfold MPMC_Queue.turn. rewrite Hcap.
    apply (step_release c n ths q i _ _ p x Hinv Hn Hi); reflexivity.
  - (* the call returns *)
    apply (step_quiet c n ths q i _ _ Hinv Hi).
    + reflexivity.
    + unfold cons_claims. simpl. rewrite map_app, app_nil_r. reflexivity.
    + apply published_same; reflexivity.
    + intros x0 p0 E. discriminate.
    + apply local_ok_plain; try reflexivity.
      apply (log_extended c q ths i _ _ p x Hi Hok); try reflexivity.
      apply published_same; reflexivity.
Qed.

Lemma step_in_try_pop c n ths q (i : nat) th val0 s :
  sys_inv c n (mk_system ths q) -> n < 2 ^ 63 -> ths !! i = Some th ->
  doing th = In_try_pop val0 s ->
  sys_inv c (n + 1)
    (mk_system (<[i := fst (thread_step th q)]> ths) (snd (thread_step th q))).
Proof.
  intros Hinv Hn Hi Hd.
  pose proof (si_local _ _ _ Hinv i th Hi) as Hok. simpl in Hok.
  pose proof (si_wf _ _ _ Hinv) as Hwf. simpl in Hwf.
  pose proof (si_head _ _ _ Hinv) as Hhead. simpl in Hhead.
  pose proof (si_tail _ _ _ Hinv) as Htail. simpl in Htail.
  destruct Hwf as (Hcap & Hlen & Hc) eqn:E. clear E.
  destruct th as [a td val prod cons]. simpl in Hd. subst a.
  assert (forall s', consuming (In_try_pop val0 s') = None ->
            (forall b t, watching_tail (In_try_pop val0 s') = Some (b, t) ->
               t <= MPMC_Queue.tail_ q /\
               (b = true -> MPMC_Queue.tail_ q = t ->
                gen c q t = wrap (t / c * 2 + 1) /\
                Pub (<[i := mk_thread (In_try_pop val0 s') td val prod cons]> ths) t
                  (dat c q t))) ->
            consuming (In_try_pop val0 s) = None ->
            sys_inv c (n + 1)
              (mk_system (<[i := mk_thread (In_try_pop val0 s') td val prod cons]> ths) q))
    as Hquiet.
  { intros s' Hp' Hw' Hp.
    assert (forall p0 v0, published (mk_thread (In_try_pop val0 s) td val prod cons) p0 v0 ->
              published (mk_thread (In_try_pop val0 s') td val prod cons) p0 v0) as Hpub
      by (apply published_same; auto).
    apply (step_quiet c n ths q i _ _ Hinv Hi).
    - reflexivity.
    - unfold cons_claims. cbn [doing t_consumed]. rewrite Hp, Hp'. reflexivity.
    - exact Hpub.
    - intros x p0 E. cbn [doing] in E. congruence.
    - constructor.
      + cbn [doing]. intros ph p0 v0 E. discriminate.
      + cbn [doing]. intros ph p0 E. congruence.
      + cbn [doing]. intros b h E. discriminate.
      + cbn [doing]. exact Hw'.
      + apply (log_kept c q ths i _ _ Hi Hok Hpub). reflexivity. }
  unfold thread_step. simpl. destruct s as [|t|t|p|p x|t|p r x]; simpl.
  - (* line 239 *)
    apply Hquiet; try reflexivity.
    simpl. intros b t E. injection E as <- <-. split; [lia|discriminate].
  - (* lines 242-243 *)
    unfold MPMC_Queue.turn. rewrite Hcap.
    destruct (lo_tail _ _ _ _ Hok false t eq_refl) as [Hle _].
    destruct (wrap (t / c * 2 + 1) =? Slot.turn (MPMC_Queue.slot q (t mod c))) eqn:Hg; simpl.
    + apply Z.eqb_eq in Hg. symmetry in Hg. fold (gen c q t) in Hg.
      apply Hquiet; try reflexivity.
      simpl. intros b t0 E. injection E as <- <-. split; [exact Hle|].
      intros _ He. split; [exact Hg|]. subst t.
      apply (Pub_insert ths i _ _ _ _ Hi); [apply published_same; reflexivity|].
      apply (tail_slot_published c n ths q Hinv Hn Hg).
    + apply Hquiet; try reflexivity. simpl. intros b t0 E. discriminate.
  - (* line 245 *)
    destruct (lo_tail _ _ _ _ Hok true t eq_refl) as [Hle Hgen].
    destruct (MPMC_Queue.tail_ q =? t) eqn:He; simpl.
    + apply Z.eqb_eq in He. specialize (Hgen eq_refl He). subst t.
      destruct Hgen as [Hgen Hpubl].
      apply (step_counter c n ths q i _ _ _ Hinv Hi).
      * apply wf_set_tail. exact Hwf.
      * simpl. lia.
      * simpl. rewrite wrap_small by lia. lia.
      * reflexivity.
      * reflexivity.
      * left. reflexivity.
      * right. unfold cons_claims. simpl. rewrite app_nil_r, wrap_small by lia.
        split; [reflexivity|lia].
      * apply published_same; reflexivity.
      * intros x p E. discriminate.
      * local_ok_clauses.
        -- injection E as <- <-. split; [exact Hgen|].
           apply (Pub_insert ths i _ _ _ _ Hi); [apply published_same; reflexivity|].
           exact Hpubl.
        -- apply (log_kept c q ths i _ _ Hi Hok); [apply published_same|]; reflexivity.
    + apply Hquiet; try reflexivity.
      simpl. intros b t0 E. injection E as <- <-. split; [lia|discriminate].
  - (* line 247 *)
    rewrite Hcap. apply (step_take c n ths q i _ _ p Hinv Hn Hi); reflexivity.
  - (* line 248 *)
    unfold MPMC_Queue.turn. rewrite Hcap.
    apply (step_release c n ths q i _ _ p x Hinv Hn Hi); reflexivity.
  - (* lines 254-256 *)
    destruct (MPMC_Queue.tail_ q =? t) eqn:He; simpl.
    + apply Hquiet; try reflexivity. simpl. intros b t0 E. discriminate.
    + apply Hquiet; try reflexivity.
      simpl. intros b t0 E. injection E as <- <-. split; [lia|discriminate].
  - (* the call returns *)
    destruct r.
    + apply (step_quiet c n ths q i _ _ Hinv Hi).
      * reflexivity.
      * unfold cons_claims. simpl. rewrite map_app, app_nil_r. reflexivity.
      * apply published_same; reflexivity.
      * intros x0 p0 E. discriminate.
      * apply local_ok_plain; try reflexivity.
        apply (log_extended c q ths i _ _ p x Hi Hok); try reflexivity.
        apply published_same; reflexivity.
    + apply (step_quiet c n ths q i _ _ Hinv Hi).
      * reflexivity.
      * reflexivity.
      * apply published_same; reflexivity.
      * intros x0 p0 E. discriminate.
      * apply local_ok_plain; try reflexivity.
        apply (log_kept c q ths i _ _ Hi Hok); [apply published_same|]; reflexivity.
Qed.

End ThreadSteps.

(** ** Any schedule *)
Section Schedules.
Context {T : Type} `{MPMC_Type T}.
Implicit Types (q : MPMC_Queue.t T) (v : T) (th : @thread T) (ths : list (@thread T)).
Implicit Types (st : @system T) (programs : list (list (call T))).

Lemma sys_step_inv c n st (i : nat) :
  sys_inv c n st -> n < 2 ^ 63 -> sys_inv c (n + 1) (sys_step i st).
Proof.
  intros Hinv Hn. destruct st as [ths q]. unfold sys_step. simpl.
  destruct (ths !! i) as [th|] eqn:Hi; [|apply (sys_inv_weaken c n); [lia|exact Hinv]].
  assert (sys_inv c (n + 1)
            (mk_system (<[i := fst (thread_step th q)]> ths) (snd (thread_step th q))))
    as Hgoal.
  { destruct (doing th) as [|v s|v s|s|val0 s] eqn:Hd.
    - unfold thread_step. rewrite Hd. simpl. apply (step_idle c n ths q i th); auto.
    - apply (step_in_emplace c n ths q i th v s); auto.
    - apply (step_in_try_emplace c n ths q i th v s); auto.
    - apply (step_in_pop c n ths q i th s); auto.
    - apply (step_in_try_pop c n ths q i th val0 s); auto. }
  destruct (thread_step th q). exact Hgoal.
Qed.

Lemma sys_run_inv c sched : forall n st,
  sys_inv c n st -> n + Z.of_nat (length sched) < 2 ^ 63 ->
  sys_inv c (n + Z.of_nat (length sched)) (sys_run sched st).
Proof.
  induction sched as [|i sched IH]; intros n st Hinv Hn.
  - simpl. rewrite Z.add_0_r. exact Hinv.
  - cbn [length] in *. rewrite Nat2Z.inj_succ in *.
    replace (n + Z.succ (Z.of_nat (length sched)))
      with (n + 1 + Z.of_nat (length sched)) by lia.
    change (sys_run (i :: sched) st) with (sys_run sched (sys_step i st)).
    apply IH; [|lia]. apply sys_step_inv; [exact Hinv|lia].
Qed.

Lemma sys_init_lookup q programs (i : nat) th :
  threads (sys_init q programs) !! i = Some th ->
  exists cs, programs !! i = Some cs /\ th = mk_thread Idle cs T_default [] [].
Proof.
  unfold sys_init. simpl.
  change (map ?f programs) with (f <$> programs).
  rewrite list_lookup_fmap. intros Hi.
  destruct (programs !! i) as [cs|]; [|discriminate].
  injection Hi as <-. eauto.
Qed.

(** The threads before the first step, on the queue as the constructor
    leaves it. *)
Lemma sys_init_inv allocate capacity q programs :
  capacity <= MAX_SIZE_T -> MPMC_Queue.ctor allocate capacity = inr q ->
  sys_inv (MPMC_Queue.capacity q) 0 (sys_init q programs).
Proof.
  intros Hmax Hctor.
  pose proof (holds_wf _ _ _ (holds_ctor allocate capacity q Hmax Hctor)) as Hwf.
  destruct (ctor_inr allocate capacity q Hctor) as [Hc1 Hq].
  assert (MPMC_Queue.head_ q = 0 /\ MPMC_Queue.tail_ q = 0) as [Hh Ht]
    by (rewrite Hq; auto).
  assert (forall p, gen (MPMC_Queue.capacity q) q p = 0) as Hgen.
  { intros p. unfold gen, MPMC_Queue.slot. rewrite Hq at 2. simpl.
    destruct (replicate _ _ !! _) as [s|] eqn:E; [|reflexivity].
    apply lookup_replicate in E as [-> _]. reflexivity. }
  constructor; simpl; try lia; try exact Hwf.
  - intros i th p Hi. apply (sys_init_lookup q) in Hi as (cs & _ & ->). intros [].
  - intros i th Hi. apply (sys_init_lookup q) in Hi as (cs & _ & ->). apply NoDup_nil_2.
  - intros i j thi thj p _ Hi. apply (sys_init_lookup q) in Hi as (cs & _ & ->). intros _ [].
  - intros i th p Hi. apply (sys_init_lookup q) in Hi as (cs & _ & ->). intros [].
  - intros i th Hi. apply (sys_init_lookup q) in Hi as (cs & _ & ->). apply NoDup_nil_2.
  - intros i j thi thj p _ Hi. apply (sys_init_lookup q) in Hi as (cs & _ & ->). intros _ [].
  - intros i th Hi. apply (sys_init_lookup q) in Hi as (cs & _ & ->).
    apply local_ok_plain; try reflexivity. intros p x [].
  - intros p _ Hg. rewrite Hgen in Hg. exfalso.
    apply (wrap_parity 0 (p / MPMC_Queue.capacity q)). exact Hg.
Qed.

(** What holds of the threads whatever the schedule. *)
Lemma reachable_inv allocate capacity q programs sched :
  capacity <= MAX_SIZE_T -> MPMC_Queue.ctor allocate capacity = inr q ->
  Z.of_nat (length sched) < 2 ^ 63 ->
  sys_inv (MPMC_Queue.capacity q) (Z.of_nat (length sched))
    (sys_run sched (sys_init q programs)).
Proof.
  intros Hmax Hctor Hn.
  apply (sys_run_inv _ sched 0); [|lia].
  apply (sys_init_inv allocate capacity); assumption.
Qed.

Lemma in_concat_map {A B} (f : A -> list B) (l : list A) (b : B) :
  In b (concat (map f l)) <-> exists (i : nat) x, l !! i = Some x /\ In b (f x).
Proof.
  rewrite in_concat. split.
  - intros (k & Hk & Hb). apply in_map_iff in Hk as (x & <- & Hx).
    apply list_elem_of_In, list_elem_of_lookup_1 in Hx as [i Hi]. eauto.
  - intros (i & x & Hi & Hb). exists (f x). split; [|exact Hb].
    apply in_map. apply list_elem_of_In. eapply list_elem_of_lookup_2. exact Hi.
Qed.

Lemma NoDup_concat_map {A B} (f : A -> list B) (l : list A) :
  (forall (i : nat) x, l !! i = Some x -> NoDup (f x)) ->
  (forall (i j : nat) x y b, i <> j -> l !! i = Some x -> l !! j = Some y ->
     In b (f x) -> In b (f y) -> False) ->
  NoDup (concat (map f l)).
Proof.
  induction l as [|a l IH]; intros Hnd Hdisj; simpl; [apply NoDup_nil_2|].
  apply NoDup_app. split; [apply (Hnd 0%nat a); reflexivity|]. split.
  - intros b Hb Hb'. apply list_elem_of_In in Hb. apply list_elem_of_In in Hb'.
    apply in_concat_map in Hb' as (j & y & Hj & Hy).
    apply (Hdisj 0%nat (S j) a y b); auto.
  - apply IH.
    + intros i x Hi. apply (Hnd (S i) x). exact Hi.
    + intros i j x y b Hne Hi Hj. apply (Hdisj (S i) (S j) x y b); auto.
Qed.

Lemma published_claimed th p v : published th p v -> In (p, v) (prod_entries th).
Proof.
  intros [Hin|Hd]; unfold prod_entries; apply in_or_app; [left; exact Hin|].
  right. rewrite Hd. left. reflexivity.
Qed.

Lemma consumed_positions st :
  map fst (all_consumed st) = concat (map (fun th => map fst (t_consumed th)) (threads st)).
Proof. unfold all_consumed. rewrite concat_map, map_map. reflexivity. Qed.

Lemma claimed_positions st :
  map fst (all_prod_entries st)
  = concat (map (fun th => map fst (prod_entries th)) (threads st)).
Proof. unfold all_prod_entries. rewrite concat_map, map_map. reflexivity. Qed.

Lemma consumed_nodup c n st : sys_inv c n st -> NoDup (map fst (all_consumed st)).
Proof.
  intros Hinv. rewrite consumed_positions. apply NoDup_concat_map.
  - intros i th Hi. pose proof (si_cons_nodup _ _ _ Hinv i th Hi) as Hnd.
    unfold cons_claims in Hnd. apply NoDup_app in Hnd as [Hnd _]. exact Hnd.
  - intros i j thi thj p Hne Hi Hj Hpi Hpj.
    apply (si_cons_disj _ _ _ Hinv i j thi thj p Hne Hi Hj);
      unfold cons_claims; apply in_or_app; left; assumption.
Qed.

Lemma claimed_nodup c n st : sys_inv c n st -> NoDup (map fst (all_prod_entries st)).
Proof.
  intros Hinv. rewrite claimed_positions. apply NoDup_concat_map.
  - intros i th Hi. apply (si_prod_nodup _ _ _ Hinv i th Hi).
  - intros i j thi thj p Hne Hi Hj Hpi Hpj.
    apply (si_prod_disj _ _ _ Hinv i j thi thj p Hne Hi Hj); assumption.
Qed.

Lemma consumed_published c n st p x :
  sys_inv c n st -> In (p, x) (all_consumed st) -> Pub (threads st) p x.
Proof.
  intros Hinv Hin. apply in_concat_map in Hin as (i & th & Hi & Hin).
  apply (lo_log _ _ _ _ (si_local _ _ _ Hinv i th Hi) _ _ Hin).
Qed.

Lemma consumed_submseteq c n st : sys_inv c n st -> all_consumed st ⊆+ all_prod_entries st.
Proof.
  intros Hinv. apply NoDup_submseteq.
  - apply (NoDup_fmap_1 fst). exact (consumed_nodup c n st Hinv).
  - intros [p x] Hin. apply list_elem_of_In in Hin. apply list_elem_of_In.
    destruct (consumed_published c n st p x Hinv Hin) as (j & thj & Hj & Hpub).
    apply in_concat_map. exists j, thj. split; [exact Hj|].
    apply published_claimed. exact Hpub.
Qed.

Lemma joined_lookup st (i : nat) th :
  joined st = true -> threads st !! i = Some th -> doing th = Idle /\ todo th = [].
Proof.
  intros Hj Hi. unfold joined in Hj. rewrite forallb_forall in Hj.
  specialize (Hj th). rewrite <- list_elem_of_In in Hj.
  specialize (Hj (list_elem_of_lookup_2 _ _ _ Hi)).
  destruct (doing th); [|discriminate..]. destruct (todo th); [auto|discriminate].
Qed.

Lemma joined_entries st : joined st = true -> all_prod_entries st = all_produced st.
Proof.
  intros Hj. unfold all_prod_entries, all_produced. f_equal.
  assert (forall (i : nat) th, threads st !! i = Some th -> prod_entries th = t_produced th)
    as Hall.
  { intros i th Hi. destruct (joined_lookup st i th Hj Hi) as [Hd _].
    unfold prod_entries. rewrite Hd. simpl. apply app_nil_r. }
  revert Hall. generalize (threads st). intros l.
  induction l as [|a l IH]; intros Hall; simpl; [reflexivity|].
  rewrite (Hall 0%nat a eq_refl). f_equal. apply IH.
  intros i th Hi. apply (Hall (S i) th Hi).
Qed.

Lemma accessing_data_cases (a : @activity T) p :
  accessing_data a = Some p ->
  (exists v, producing a = Some (PAssign, p, v)) \/ consuming a = Some (CTake, p).
Proof.
  destruct a as [|v []|v [| | | | | |? ?]|[]|? [| | | | | |? ? ?]]; simpl; intros E;
    try discriminate; injection E as ->; eauto.
Qed.

(** *** Programs of waiting calls *)

Lemma pushes_app (a b : list (call T)) : pushes (a ++ b) = pushes a ++ pushes b.
Proof. unfold pushes. apply flat_map_app. Qed.

Lemma pops_app (a b : list (call T)) : pops (a ++ b) = (pops a + pops b)%nat.
Proof. unfold pops. rewrite List.filter_app, length_app. reflexivity. Qed.

Lemma follows_step prog th q : follows prog th -> follows prog (fst (thread_step th q)).
Proof.
  destruct th as [a td val prod cons]. intros [Hb Hd Hpu Hpo]. simpl in *.
  unfold thread_step. simpl. destruct a as [|v s|v s|s|val0 s]; try discriminate.
  - unfold enter. simpl. destruct td as [|k td]; [constructor; assumption|].
    simpl in Hb. apply andb_prop in Hb as [Hk Hb].
    destruct k; try discriminate; constructor; unfold pops, pushes in *; simpl in *;
      auto; lia.
  - destruct s; simpl;
      try (destruct (negb _)); constructor; simpl in *; auto.
    rewrite map_app, <- app_assoc. exact Hpu.
  - destruct s; simpl;
      try (destruct (negb _)); constructor; simpl in *; auto.
    rewrite length_app. simpl. lia.
Qed.

Lemma follows_sys_step programs st (i : nat) :
  Forall2 follows programs (threads st) ->
  Forall2 follows programs (threads (sys_step i st)).
Proof.
  intros Hf. destruct st as [ths q]. unfold sys_step. simpl in *.
  destruct (ths !! i) as [th|] eqn:Hi; [|exact Hf].
  pose proof (follows_step) as Hstep.
  destruct (thread_step th q) as [th' q'] eqn:Hs. simpl.
  apply Forall2_same_length_lookup. apply Forall2_same_length_lookup in Hf as [Hlen Hf].
  split; [rewrite length_insert; exact Hlen|].
  intros j prog thj Hp Hj.
  destruct (lookup_insert_cases _ _ _ _ _ _ Hi Hj) as [[-> ->]|[Hne Hj']]; [|eauto].
  change th' with (fst (th', q')). rewrite <- Hs. apply Hstep. eauto.
Qed.

Lemma follows_run programs sched : forall st,
  Forall2 follows programs (threads st) ->
  Forall2 follows programs (threads (sys_run sched st)).
Proof.
  induction sched as [|i sched IH]; intros st Hf; [exact Hf|].
  change (sys_run (i :: sched) st) with (sys_run sched (sys_step i st)).
  apply IH, follows_sys_step, Hf.
Qed.

Lemma follows_init q programs :
  forallb blocking_only (concat programs) = true ->
  Forall2 follows programs (threads (sys_init q programs)).
Proof.
  unfold sys_init. simpl. induction programs as [|cs programs IH]; intros Hb; simpl.
  - constructor.
  - simpl in Hb. rewrite forallb_app in Hb. apply andb_prop in Hb as [Hcs Hb].
    constructor; [|apply IH; exact Hb].
    constructor; simpl; auto.
Qed.

Lemma follows_joined programs st :
  Forall2 follows programs (threads st) -> joined st = true ->
  pushes (concat programs) = map snd (all_produced st) /\
  pops (concat programs) = length (all_consumed st).
Proof.
  unfold joined, all_produced, all_consumed. generalize (threads st). intros ths.
  induction 1 as [|prog th programs ths Hf _ IH]; intros Hj; simpl; [auto|].
  simpl in Hj. apply andb_prop in Hj as [Hth Hj]. destruct (IH Hj) as [Hpu Hpo].
  destruct Hf as [_ _ Epu Epo].
  destruct (doing th); try discriminate. destruct (todo th); try discriminate.
  simpl in Epu, Epo. rewrite !app_nil_r in Epu. change (pops []) with 0%nat in Epo.
  rewrite pushes_app, pops_app, map_app, length_app, Hpu, Hpo, Epu. split; [reflexivity|lia].
Qed.

(** Several threads call the queue, their atomic accesses interleaved
    in any order (sequentially consistent, fewer than [2^63] steps, on a
    queue as the constructor leaves it).  Whatever a returned [pop] or
    [try_pop] has delivered, with the position it had claimed from [tail_],
    is the argument of an [emplace], [push], [try_emplace] or [try_push] of
    some thread that had claimed the same position from [head_] and has
    stored the slot's turn (lines 174 and 191). *)
Theorem consumed_value_was_published (allocate : Z -> bool) (capacity : Z) q programs
    (sched : list nat) :
  capacity <= MAX_SIZE_T -> MPMC_Queue.ctor allocate capacity = inr q ->
  Z.of_nat (length sched) < 2 ^ 63 ->
  let st := sys_run sched (sys_init q programs) in
  forall p x, In (p, x) (all_consumed st) ->
    exists (j : nat) thj, threads st !! j = Some thj /\
      (In (p, x) (t_produced thj) \/ producing (doing thj) = Some (PDone, p, x)).
Proof.
  intros Hmax Hctor Hn st p x Hin.
  pose proof (reachable_inv allocate capacity q programs sched Hmax Hctor Hn) as Hinv.
  exact (consumed_published _ _ _ p x Hinv Hin).
Qed.

(** Under any such schedule no position is claimed twice: the
    positions of the producer calls made so far, returned or not, are
    pairwise distinct, and so are the positions of the values consumed;
    hence what has been consumed is, counted with multiplicity, part of
    what the producers have been called with. *)
Theorem positions_claimed_once (allocate : Z -> bool) (capacity : Z) q programs
    (sched : list nat) :
  capacity <= MAX_SIZE_T -> MPMC_Queue.ctor allocate capacity = inr q ->
  Z.of_nat (length sched) < 2 ^ 63 ->
  let st := sys_run sched (sys_init q programs) in
  NoDup (map fst (all_prod_entries st)) /\ NoDup (map fst (all_consumed st)) /\
  all_consumed st ⊆+ all_prod_entries st.
Proof.
  intros Hmax Hctor Hn st.
  pose proof (reachable_inv allocate capacity q programs sched Hmax Hctor Hn) as Hinv.
  split; [exact (claimed_nodup _ _ _ Hinv)|].
  split; [exact (consumed_nodup _ _ _ Hinv)|exact (consumed_submseteq _ _ _ Hinv)].
Qed.

(** Under any such schedule two threads are never about to access
    the [data_] of the same slot: when one is at the assignment of line 173
    or 190, or at the move of line 233 or 247, for position [p], and another
    is at one of these lines for position [p'], then [p] and [p'] are in
    different slots. *)
Theorem data_access_exclusive (allocate : Z -> bool) (capacity : Z) q programs
    (sched : list nat) (i j : nat) thi thj p p' :
  capacity <= MAX_SIZE_T -> MPMC_Queue.ctor allocate capacity = inr q ->
  Z.of_nat (length sched) < 2 ^ 63 ->
  let st := sys_run sched (sys_init q programs) in
  i <> j -> threads st !! i = Some thi -> threads st !! j = Some thj ->
  accessing_data (doing thi) = Some p -> accessing_data (doing thj) = Some p' ->
  p mod MPMC_Queue.capacity q <> p' mod MPMC_Queue.capacity q.
Proof.
  intros Hmax Hctor Hn st Hne Hi Hj Hp Hp'.
  pose proof (reachable_inv allocate capacity q programs sched Hmax Hctor Hn) as Hinv.
  fold st in Hinv. destruct st as [ths q']. simpl in Hi, Hj.
  set (c := MPMC_Queue.capacity q) in *. set (n := Z.of_nat (length sched)) in *.
  pose proof (si_local _ _ _ Hinv i thi Hi) as Hoki.
  pose proof (si_local _ _ _ Hinv j thj Hj) as Hokj. simpl in Hoki, Hokj.
  destruct (accessing_data_cases _ _ Hp) as [[v Hph]|Hph];
    destruct (accessing_data_cases _ _ Hp') as [[v' Hph']|Hph'].
  - pose proof (lo_prod _ _ _ _ Hoki _ _ _ Hph) as Hg.
    pose proof (lo_prod _ _ _ _ Hokj _ _ _ Hph') as Hg'. simpl in Hg, Hg'.
    destruct (prod_owner_excludes c n ths q' i thi _ p v Hinv Hn Hi Hph Hg) as (A & _ & _).
    intros E. apply (A j thj PAssign p' v'); auto.
  - pose proof (lo_prod _ _ _ _ Hoki _ _ _ Hph) as Hg.
    pose proof (lo_cons _ _ _ _ Hokj _ _ Hph') as [Hg' _]. simpl in Hg, Hg'.
    destruct (prod_owner_excludes c n ths q' i thi _ p v Hinv Hn Hi Hph Hg) as (_ & B & _).
    intros E. apply (B p'); auto.
  - pose proof (lo_cons _ _ _ _ Hoki _ _ Hph) as [Hg _].
    pose proof (lo_prod _ _ _ _ Hokj _ _ _ Hph') as Hg'. simpl in Hg, Hg'.
    destruct (prod_owner_excludes c n ths q' j thj _ p' v' Hinv Hn Hj Hph' Hg')
      as (_ & B & _).
    exact (B p Hg).
  - pose proof (lo_cons _ _ _ _ Hoki _ _ Hph) as [Hg _].
    pose proof (lo_cons _ _ _ _ Hokj _ _ Hph') as [Hg' _]. simpl in Hg, Hg'.
    destruct (cons_owner_excludes c n ths q' i thi _ p Hinv Hn Hi Hph Hg) as (A & _ & _).
    intros E. apply (A j thj CTake p'); auto.
Qed.

(** Under any such schedule, once every thread has returned from the
    last call of its program, the values consumed with their positions are
    part of the values produced with theirs, counted with multiplicity;
    when as many have been consumed as produced, they are the same up to
    order. *)
Theorem joined_consumed_is_produced (allocate : Z -> bool) (capacity : Z) q programs
    (sched : list nat) :
  capacity <= MAX_SIZE_T -> MPMC_Queue.ctor allocate capacity = inr q ->
  Z.of_nat (length sched) < 2 ^ 63 ->
  let st := sys_run sched (sys_init q programs) in
  joined st = true ->
  all_consumed st ⊆+ all_produced st /\
  ((length (all_produced st) <= length (all_consumed st))%nat ->
   all_consumed st ≡ₚ all_produced st).
Proof.
  intros Hmax Hctor Hn st Hj.
  pose proof (reachable_inv allocate capacity q programs sched Hmax Hctor Hn) as Hinv.
  pose proof (consumed_submseteq _ _ _ Hinv) as Hsub. fold st in Hsub.
  rewrite (joined_entries st Hj) in Hsub. split; [exact Hsub|].
  intros Hlen. apply submseteq_length_Permutation; assumption.
Qed.

(** The threads of the test and of the example: programs of
    [emplace], [push] and [pop] (and [size], [empty], [capacity]) only.
    Under any such schedule, once every thread has returned from the last
    call of its program, there have been as many values consumed as the
    programs call [pop], every one of them a value that the programs
    push, counted with multiplicity; when the programs push as many
    values as they pop, the values consumed are the values pushed, up to
    order. *)
Theorem joined_threads_checksum (allocate : Z -> bool) (capacity : Z) q programs
    (sched : list nat) :
  capacity <= MAX_SIZE_T -> MPMC_Queue.ctor allocate capacity = inr q ->
  Z.of_nat (length sched) < 2 ^ 63 ->
  forallb blocking_only (concat programs) = true ->
  let st := sys_run sched (sys_init q programs) in
  joined st = true ->
  length (all_consumed st) = pops (concat programs) /\
  map snd (all_consumed st) ⊆+ pushes (concat programs) /\
  ((length (pushes (concat programs)) <= pops (concat programs))%nat ->
   map snd (all_consumed st) ≡ₚ pushes (concat programs)).
Proof.
  intros Hmax Hctor Hn Hb st Hj.
  pose proof (reachable_inv allocate capacity q programs sched Hmax Hctor Hn) as Hinv.
  pose proof (consumed_submseteq _ _ _ Hinv) as Hsub. fold st in Hsub.
  rewrite (joined_entries st Hj) in Hsub.
  destruct (follows_joined programs st
              (follows_run programs sched _ (follows_init q programs Hb)) Hj) as [Hpu Hpo].
  assert (map snd (all_consumed st) ⊆+ pushes (concat programs)) as Hsub'.
  { rewrite Hpu. change (snd <$> all_consumed st ⊆+ snd <$> all_produced st).
    apply fmap_submseteq. exact Hsub. }
  split; [symmetry; exact Hpo|]. split; [exact Hsub'|].
  intros Hlen. apply submseteq_length_Permutation; [exact Hsub'|].
  rewrite length_map. lia.
Qed.

End Schedules.

Lemma consumed_value_was_published_witness :
  let q := MPMC_Queue.mk 10 (replicate 10 Slot.init) 0 0 in
  let st := sys_run ([0; 0; 1; 1; 0; 1] ++ replicate 12 2 ++ replicate 4 1 ++ replicate 4 0)%nat
              (sys_init q [[Pop]; [Pop]; [Push 1; Push 2]]) in
  In (1, 2) (all_consumed st) /\
  exists (j : nat) thj, threads st !! j = Some thj /\
    (In (1, 2) (t_produced thj) \/ producing (doing thj) = Some (PDone, 1, 2)).
Proof.
  intros q st. split; [vm_compute; auto|].
  apply (@consumed_value_was_published Z MPMC_Type_Z (fun _ => true) 10 q
           [[Pop]; [Pop]; [Push 1; Push 2]]
           ([0; 0; 1; 1; 0; 1] ++ replicate 12 2 ++ replicate 4 1 ++ replicate 4 0)%nat
           ltac:(discriminate) eq_refl eq_refl 1 2).
  vm_compute. auto.
Defined.

Lemma positions_claimed_once_witness :
  let q := MPMC_Queue.mk 2 (replicate 2 Slot.init) 0 0 in
  let st := sys_run [0; 0; 0; 0; 0; 2; 2; 2; 1; 1; 1]%nat
              (sys_init q [[Push 7]; [Emplace 8]; [Pop]]) in
  all_prod_entries st = [(0, 7); (1, 8)] /\
  NoDup (map fst (all_prod_entries st)) /\ NoDup (map fst (all_consumed st)) /\
  all_consumed st ⊆+ all_prod_entries st.
Proof.
  intros q st. split; [reflexivity|].
  apply (@positions_claimed_once Z MPMC_Type_Z (fun _ => true) 2 q
           [[Push 7]; [Emplace 8]; [Pop]] [0; 0; 0; 0; 0; 2; 2; 2; 1; 1; 1]%nat
           ltac:(discriminate) eq_refl eq_refl).
Defined.

Lemma data_access_exclusive_witness :
  let q := MPMC_Queue.mk 2 (replicate 2 Slot.init) 0 0 in
  let st := sys_run [0; 0; 0; 0; 0; 2; 2; 2; 1; 1; 1]%nat
              (sys_init q [[Push 7]; [Emplace 8]; [Pop]]) in
  threads st !! 1%nat = Some (mk_thread (In_emplace 8 (MPMC_Queue.EM_assign 1)) [] 0 [] []) /\
  threads st !! 2%nat = Some (mk_thread (In_pop (MPMC_Queue.P_take 0)) [] 0 [] []) /\
  1 mod 2 <> 0 mod 2.
Proof.
  intros q st. split; [reflexivity|]. split; [reflexivity|].
  apply (@data_access_exclusive Z MPMC_Type_Z (fun _ => true) 2 q
           [[Push 7]; [Emplace 8]; [Pop]] [0; 0; 0; 0; 0; 2; 2; 2; 1; 1; 1]%nat
           1%nat 2%nat _ _ 1 0
           ltac:(discriminate) eq_refl eq_refl ltac:(discriminate) eq_refl eq_refl
           eq_refl eq_refl).
Defined.

Lemma joined_consumed_is_produced_witness :
  let q := MPMC_Queue.mk 1 (replicate 1 Slot.init) 0 0 in
  let st := sys_run (replicate 14 0 ++ replicate 12 1 ++ replicate 4 0 ++ replicate 6 1)%nat
              (sys_init q [[Try_push 3; Try_push 4; Push 5]; [Try_pop; Try_pop; Pop]]) in
  joined st = true /\
  all_consumed st ⊆+ all_produced st /\
  ((length (all_produced st) <= length (all_consumed st))%nat ->
   all_consumed st ≡ₚ all_produced st).
Proof.
  intros q st. split; [reflexivity|].
  apply (@joined_consumed_is_produced Z MPMC_Type_Z (fun _ => true) 1 q
           [[Try_push 3; Try_push 4; Push 5]; [Try_pop; Try_pop; Pop]]
           (replicate 14 0 ++ replicate 12 1 ++ replicate 4 0 ++ replicate 6 1)%nat
           ltac:(discriminate) eq_refl eq_refl eq_refl).
Defined.

Lemma joined_threads_checksum_witness :
  let q := MPMC_Queue.mk 10 (replicate 10 Slot.init) 0 0 in
  let programs := [[Pop]; [Pop]; [Push 1; Push 2]] in
  let st := sys_run ([0; 0; 1; 1; 0; 1] ++ replicate 12 2 ++ replicate 4 1 ++ replicate 4 0)%nat
              (sys_init q programs) in
  joined st = true /\
  length (all_consumed st) = pops (concat programs) /\
  map snd (all_consumed st) ⊆+ pushes (concat programs) /\
  ((length (pushes (concat programs)) <= pops (concat programs))%nat ->
   map snd (all_consumed st) ≡ₚ pushes (concat programs)).
Proof.
  intros q programs st. split; [reflexivity|].
  apply (@joined_threads_checksum Z MPMC_Type_Z (fun _ => true) 10 q programs
           ([0; 0; 1; 1; 0; 1] ++ replicate 12 2 ++ replicate 4 1 ++ replicate 4 0)%nat
           ltac:(discriminate) eq_refl eq_refl eq_refl eq_refl).
Defined.

(** ** The counters and the order of the claims *)
Section Tally.
Context {T : Type} `{MPMC_Type T}.
Implicit Types (q : MPMC_Queue.t T) (v : T) (th : @thread T) (ths : list (@thread T)).
Implicit Types (st : @system T) (programs : list (list (call T))).

(** What one step does to the counters and to the claims of the thread. *)
Lemma thread_step_claims th q :
  ((MPMC_Queue.head_ (snd (thread_step th q)) = MPMC_Queue.head_ q /\
    prod_entries (fst (thread_step th q)) = prod_entries th) \/
   (exists v, MPMC_Queue.head_ (snd (thread_step th q)) = wrap (MPMC_Queue.head_ q + 1) /\
      prod_entries (fst (thread_step th q)) = prod_entries th ++ [(MPMC_Queue.head_ q, v)])) /\
  ((MPMC_Queue.tail_ (snd (thread_step th q)) = MPMC_Queue.tail_ q /\
    cons_claims (fst (thread_step th q)) = cons_claims th) \/
   (MPMC_Queue.tail_ (snd (thread_step th q)) = wrap (MPMC_Queue.tail_ q + 1) /\
    cons_claims (fst (thread_step th q)) = cons_claims th ++ [MPMC_Queue.tail_ q])).
Proof.
  assert (forall (a b : Z) (l l' : list (Z * T)) (k k' : list Z) (h t : Z),
            (a = h /\ l' = l \/ exists v, a = wrap (h + 1) /\ l' = l ++ [(h, v)]) ->
            (b = t /\ k' = k \/ b = wrap (t + 1) /\ k' = k ++ [t]) ->
            (a = h /\ l' = l \/ exists v, a = wrap (h + 1) /\ l' = l ++ [(h, v)]) /\
            (b = t /\ k' = k \/ b = wrap (t + 1) /\ k' = k ++ [t])) as Hboth by auto.
  destruct th as [a td val prod cons]. unfold thread_step. simpl.
  destruct a as [|v s|v s|s|val0 s].
  - unfold enter. simpl. destruct td as [|k td]; [auto|].
    destruct k; unfold prod_entries, cons_claims; simpl; auto.
  - destruct s; simpl; try (destruct (negb _)); unfold prod_entries, cons_claims; simpl;
      rewrite ?app_nil_r; apply Hboth; eauto.
  - destruct s as [|h|h|p|p|h|p []]; simpl;
      try (destruct (_ =? _) eqn:E); unfold prod_entries, cons_claims; simpl;
      rewrite ?app_nil_r; apply Hboth; eauto.
    apply Z.eqb_eq in E. subst h. eauto.
  - destruct s; simpl; try (destruct (negb _)); unfold prod_entries, cons_claims; simpl;
      rewrite ?map_app, ?app_nil_r; apply Hboth; eauto.
  - destruct s as [|t|t|p|p x|t|p [] x]; simpl;
      try (destruct (_ =? _) eqn:E); unfold prod_entries, cons_claims; simpl;
      rewrite ?map_app, ?app_nil_r; apply Hboth; eauto.
    apply Z.eqb_eq in E. subst t. eauto.
Qed.

Lemma length_concat_insert {A B} (f : A -> list B) (l : list A) (i : nat) x y :
  l !! i = Some x ->
  (length (concat (map f (<[i := y]> l))) + length (f x)
   = length (concat (map f l)) + length (f y))%nat.
Proof.
  revert i. induction l as [|a l IH]; intros [|i] Hi; try discriminate; simpl in *.
  - injection Hi as ->. rewrite !length_app. lia.
  - rewrite !length_app. specialize (IH i Hi). lia.
Qed.

Lemma sorted_app_one (l : list Z) (h : Z) :
  StronglySorted Z.lt l -> (forall x, In x l -> x < h) -> StronglySorted Z.lt (l ++ [h]).
Proof.
  induction 1 as [|a l Hs IH Ha]; intros Hlt; simpl.
  - constructor; constructor.
  - constructor.
    + apply IH. intros x Hx. apply Hlt. right. exact Hx.
    + apply Forall_app. split; [exact Ha|]. constructor; [|constructor].
      apply Hlt. left. reflexivity.
Qed.

Lemma sorted_app_l (l k : list Z) : StronglySorted Z.lt (l ++ k) -> StronglySorted Z.lt l.
Proof.
  induction l as [|a l IH]; intros Hs; [constructor|].
  simpl in Hs. apply StronglySorted_inv in Hs as [Hs Ha].
  constructor; [apply IH; exact Hs|]. apply Forall_app in Ha as [Ha _]. exact Ha.
Qed.

(** In a log in the order of its positions, the entry with the smaller
    position comes first. *)
Lemma sorted_before {A} (l : list (Z * A)) e1 e2 :
  StronglySorted Z.lt (map fst l) -> In e1 l -> In e2 l -> fst e1 < fst e2 ->
  exists k1 k2 k3, l = k1 ++ e1 :: k2 ++ e2 :: k3.
Proof.
  induction l as [|a l IH]; intros Hs H1 H2 Hlt; [destruct H1|].
  simpl in Hs. apply StronglySorted_inv in Hs as [Hs Ha].
  rewrite Forall_forall in Ha.
  assert (forall e, In e l -> fst a < fst e) as Ha'.
  { intros e He. apply Ha. apply list_elem_of_In. apply in_map. exact He. }
  destruct H1 as [->|H1]; destruct H2 as [->|H2].
  - lia.
  - apply in_split in H2 as (k2 & k3 & ->). exists [], k2, k3. reflexivity.
  - specialize (Ha' _ H1). lia.
  - destruct (IH Hs H1 H2 Hlt) as (k1 & k2 & k3 & ->). exists (a :: k1), k2, k3. reflexivity.
Qed.

Lemma sorted_split {A} (l1 l2 l3 : list (Z * A)) e1 e2 :
  StronglySorted Z.lt (map fst (l1 ++ e1 :: l2 ++ e2 :: l3)) -> fst e1 < fst e2.
Proof.
  induction l1 as [|a l1 IH]; simpl; intros Hs; apply StronglySorted_inv in Hs as [Hs Ha].
  - rewrite Forall_forall in Ha. apply Ha. apply list_elem_of_In.
    apply (in_map fst _ e2). apply in_or_app. right. left. reflexivity.
  - apply IH. exact Hs.
Qed.

Lemma tally_step c n st (i : nat) :
  sys_inv c n st -> n < 2 ^ 63 -> tally st -> tally (sys_step i st).
Proof.
  intros Hinv Hn [Hh Ht Hp Hc]. destruct st as [ths q]. unfold sys_step. simpl in *.
  destruct (ths !! i) as [th|] eqn:Hi; [|constructor; assumption].
  pose proof (thread_step_claims th q) as [Hprod Hcons].
  pose proof (si_head _ _ _ Hinv) as Hhead. pose proof (si_tail _ _ _ Hinv) as Htail.
  simpl in Hhead, Htail.
  destruct (thread_step th q) as [th' q']. simpl in Hprod, Hcons.
  pose proof (length_concat_insert prod_entries ths i th th' Hi) as Lp.
  pose proof (length_concat_insert cons_claims ths i th th' Hi) as Lc.
  unfold all_prod_entries, all_cons_claims in *. simpl in *.
  constructor; unfold all_prod_entries, all_cons_claims; simpl.
  - destruct Hprod as [[-> E]|(v & -> & E)]; rewrite E in Lp.
    + lia.
    + rewrite length_app in Lp. simpl in Lp. rewrite wrap_small by lia. lia.
  - destruct Hcons as [[-> E]|[-> E]]; rewrite E in Lc.
    + lia.
    + rewrite length_app in Lc. simpl in Lc. rewrite wrap_small by lia. lia.
  - intros j thj Hj.
    destruct (lookup_insert_cases _ _ _ _ _ _ Hi Hj) as [[-> ->]|[Hne Hj']]; [|eauto].
    destruct Hprod as [[_ ->]|(v & _ & ->)]; [eauto|].
    rewrite map_app. apply sorted_app_one; [eauto|].
    intros x Hx. apply (si_prod_bound _ _ _ Hinv i th x Hi Hx).
  - intros j thj Hj.
    destruct (lookup_insert_cases _ _ _ _ _ _ Hi Hj) as [[-> ->]|[Hne Hj']]; [|eauto].
    destruct Hcons as [[_ ->]|[_ ->]]; [eauto|].
    apply sorted_app_one; [eauto|].
    intros x Hx. apply (si_cons_bound _ _ _ Hinv i th x Hi Hx).
Qed.

Lemma tally_run c sched : forall n st,
  sys_inv c n st -> tally st -> n + Z.of_nat (length sched) < 2 ^ 63 ->
  tally (sys_run sched st).
Proof.
  induction sched as [|i sched IH]; intros n st Hinv Ht Hn; [exact Ht|].
  cbn [length] in Hn. rewrite Nat2Z.inj_succ in Hn.
  change (sys_run (i :: sched) st) with (sys_run sched (sys_step i st)).
  apply (IH (n + 1)).
  - apply sys_step_inv; [exact Hinv|lia].
  - apply (tally_step c n); [exact Hinv|lia|exact Ht].
  - lia.
Qed.

Lemma tally_init allocate capacity q programs :
  MPMC_Queue.ctor allocate capacity = inr q -> tally (sys_init q programs).
Proof.
  intros Hctor. destruct (ctor_inr allocate capacity q Hctor) as [_ Hq].
  assert (MPMC_Queue.head_ q = 0 /\ MPMC_Queue.tail_ q = 0) as [Hh Ht]
    by (rewrite Hq; auto).
  constructor; simpl.
  - rewrite Hh. unfold all_prod_entries. simpl.
    induction programs as [|cs programs IH]; [reflexivity|exact IH].
  - rewrite Ht. unfold all_cons_claims. simpl.
    induction programs as [|cs programs IH]; [reflexivity|exact IH].
  - intros i th Hi. apply (sys_init_lookup q) in Hi as (cs & _ & ->). constructor.
  - intros i th Hi. apply (sys_init_lookup q) in Hi as (cs & _ & ->). constructor.
Qed.

Lemma reachable_tally allocate capacity q programs sched :
  capacity <= MAX_SIZE_T -> MPMC_Queue.ctor allocate capacity = inr q ->
  Z.of_nat (length sched) < 2 ^ 63 ->
  tally (sys_run sched (sys_init q programs)).
Proof.
  intros Hmax Hctor Hn.
  apply (tally_run (MPMC_Queue.capacity q) sched 0); [| |lia].
  - apply (sys_init_inv allocate capacity); assumption.
  - apply (tally_init allocate capacity); assumption.
Qed.

(** [size()] on counters below [2^63]. *)
Lemma size_of_counters q :
  0 <= MPMC_Queue.head_ q < 2 ^ 63 -> 0 <= MPMC_Queue.tail_ q < 2 ^ 63 ->
  MPMC_Queue.size q = MPMC_Queue.head_ q - MPMC_Queue.tail_ q.
Proof.
  intros Hh Ht. unfold MPMC_Queue.size, to_ptrdiff, MAX_SIZE_T in *.
  set (hd := MPMC_Queue.head_ q) in *. set (tl := MPMC_Queue.tail_ q) in *.
  rewrite !wrap_wrap. rewrite (wrap_small (2 ^ 64 - 1 - tl)) by lia.
  destruct (Z_lt_le_dec hd tl) as [Hlt|Hge].
  - assert (wrap (hd - tl) = hd - tl + 2 ^ 64) as E.
    { unfold wrap. symmetry. apply (Z.mod_unique_pos _ _ (-1)); lia. }
    rewrite E. replace (hd - tl + 2 ^ 64 <? 2 ^ 63) with false
      by (symmetry; apply Z.ltb_ge; lia).
    replace (hd - tl + 2 ^ 64 - 2 ^ 64) with (hd - tl) by lia.
    rewrite Z.abs_neq by lia. rewrite (wrap_small (- (hd - tl))) by lia.
    replace (2 ^ 64 - 1 - tl <? - (hd - tl)) with false by (symmetry; apply Z.ltb_ge; lia).
    rewrite E. replace (hd - tl + 2 ^ 64 <? 2 ^ 63) with false
      by (symmetry; apply Z.ltb_ge; lia).
    lia.
  - rewrite (wrap_small (hd - tl)) by lia.
    replace (hd - tl <? 2 ^ 63) with true by (symmetry; apply Z.ltb_lt; lia).
    rewrite Z.abs_eq by lia. rewrite (wrap_small (hd - tl)) by lia.
    replace (2 ^ 64 - 1 - tl <? hd - tl) with false by (symmetry; apply Z.ltb_ge; lia).
    replace (hd - tl <? 2 ^ 63) with true by (symmetry; apply Z.ltb_lt; lia).
    reflexivity.
Qed.

(** Under any schedule (sequentially consistent interleaving, fewer
    than [2^63] steps, queue as the constructor leaves it), [size()]
    evaluated on the counters of one moment is the number of producer calls
    that have claimed a position minus the number of consumer calls that
    have, waiting calls included: it is negative while consumers wait on an
    empty queue; [empty()] holds exactly when the producers have claimed no
    more than the consumers. *)
Theorem size_counts_claims (allocate : Z -> bool) (capacity : Z) q programs
    (sched : list nat) :
  capacity <= MAX_SIZE_T -> MPMC_Queue.ctor allocate capacity = inr q ->
  Z.of_nat (length sched) < 2 ^ 63 ->
  let st := sys_run sched (sys_init q programs) in
  MPMC_Queue.size (shared st)
  = Z.of_nat (length (all_prod_entries st)) - Z.of_nat (length (all_cons_claims st)) /\
  (MPMC_Queue.empty (shared st) = true <->
   (length (all_prod_entries st) <= length (all_cons_claims st))%nat).
Proof.
  intros Hmax Hctor Hn st.
  pose proof (reachable_inv allocate capacity q programs sched Hmax Hctor Hn) as Hinv.
  pose proof (reachable_tally allocate capacity q programs sched Hmax Hctor Hn) as Ht.
  fold st in Hinv, Ht.
  pose proof (si_head _ _ _ Hinv) as Hhead. pose proof (si_tail _ _ _ Hinv) as Htail.
  assert (MPMC_Queue.size (shared st)
          = Z.of_nat (length (all_prod_entries st)) - Z.of_nat (length (all_cons_claims st)))
    as Hsize.
  { rewrite size_of_counters by lia. rewrite (ta_head _ Ht), (ta_tail _ Ht). reflexivity. }
  split; [exact Hsize|]. unfold MPMC_Queue.empty. rewrite Hsize, Z.leb_le. lia.
Qed.

(** Under any such schedule the calls of one thread claim
    increasing positions, so two values that one thread has produced one
    after the other, and that one thread has consumed both, were consumed
    in the order in which they were produced. *)
Theorem same_pair_fifo (allocate : Z -> bool) (capacity : Z) q programs
    (sched : list nat) (i j : nat) thi thj (l1 l2 l3 : list (Z * T)) e1 e2 :
  capacity <= MAX_SIZE_T -> MPMC_Queue.ctor allocate capacity = inr q ->
  Z.of_nat (length sched) < 2 ^ 63 ->
  let st := sys_run sched (sys_init q programs) in
  threads st !! i = Some thi -> threads st !! j = Some thj ->
  t_produced thi = l1 ++ e1 :: l2 ++ e2 :: l3 ->
  In e1 (t_consumed thj) -> In e2 (t_consumed thj) ->
  fst e1 < fst e2 /\
  exists k1 k2 k3, t_consumed thj = k1 ++ e1 :: k2 ++ e2 :: k3.
Proof.
  intros Hmax Hctor Hn st Hi Hj Hprod H1 H2.
  pose proof (reachable_tally allocate capacity q programs sched Hmax Hctor Hn) as Ht.
  fold st in Ht.
  pose proof (ta_prod _ Ht i thi Hi) as Hsp. pose proof (ta_cons _ Ht j thj Hj) as Hsc.
  unfold prod_entries in Hsp. rewrite map_app in Hsp. apply sorted_app_l in Hsp.
  unfold cons_claims in Hsc. apply sorted_app_l in Hsc.
  rewrite Hprod in Hsp. pose proof (sorted_split _ _ _ _ _ Hsp) as Hlt.
  split; [exact Hlt|]. apply sorted_before; assumption.
Qed.

Lemma claims_nodup c n st : sys_inv c n st -> NoDup (all_cons_claims st).
Proof.
  intros Hinv. unfold all_cons_claims. apply NoDup_concat_map.
  - intros i th Hi. apply (si_cons_nodup _ _ _ Hinv i th Hi).
  - intros i j thi thj p Hne Hi Hj Hpi Hpj.
    apply (si_cons_disj _ _ _ Hinv i j thi thj p Hne Hi Hj); assumption.
Qed.

Lemma dense_positions (l : list Z) (n : Z) :
  NoDup l -> (forall p, In p l -> 0 <= p < n) -> Z.of_nat (length l) = n ->
  l ≡ₚ seqZ 0 n.
Proof.
  intros Hnd Hb Hlen. apply submseteq_length_Permutation.
  - apply NoDup_submseteq; [exact Hnd|]. intros p Hp. apply elem_of_seqZ.
    apply list_elem_of_In in Hp. specialize (Hb p Hp). lia.
  - rewrite length_seqZ. lia.
Qed.

(** Under any schedule (sequentially consistent interleaving, fewer than
    [2^63] steps, queue as the constructor leaves it) the [fetch_add] of
    lines 170 and 230 and the [compare_exchange_strong] of lines 188 and 245
    hand out the positions without a gap: the positions that the producer
    calls have claimed so far are [0], ..., [head_ - 1], each once, and those
    that the consumer calls have claimed are [0], ..., [tail_ - 1], each
    once. *)
Theorem positions_without_gaps (allocate : Z -> bool) (capacity : Z) q programs
    (sched : list nat) :
  capacity <= MAX_SIZE_T -> MPMC_Queue.ctor allocate capacity = inr q ->
  Z.of_nat (length sched) < 2 ^ 63 ->
  let st := sys_run sched (sys_init q programs) in
  map fst (all_prod_entries st) ≡ₚ seqZ 0 (MPMC_Queue.head_ (shared st)) /\
  all_cons_claims st ≡ₚ seqZ 0 (MPMC_Queue.tail_ (shared st)).
Proof.
  intros Hmax Hctor Hn st.
  pose proof (reachable_inv allocate capacity q programs sched Hmax Hctor Hn) as Hinv.
  pose proof (reachable_tally allocate capacity q programs sched Hmax Hctor Hn) as Ht.
  fold st in Hinv, Ht. split; apply dense_positions.
  - exact (claimed_nodup _ _ _ Hinv).
  - intros p Hp. rewrite claimed_positions in Hp.
    apply in_concat_map in Hp as (i & th & Hi & Hp).
    apply (si_prod_bound _ _ _ Hinv i th p Hi Hp).
  - rewrite length_map. symmetry. apply (ta_head _ Ht).
  - exact (claims_nodup _ _ _ Hinv).
  - intros p Hp. apply in_concat_map in Hp as (i & th & Hi & Hp).
    apply (si_cons_bound _ _ _ Hinv i th p Hi Hp).
  - symmetry. apply (ta_tail _ Ht).
Qed.

End Tally.

Lemma positions_without_gaps_witness :
  let q := MPMC_Queue.mk 2 (replicate 2 Slot.init) 0 0 in
  let st := sys_run [0; 0; 0; 0; 0; 2; 2; 2; 1; 1; 1]%nat
              (sys_init q [[Push 7]; [Emplace 8]; [Pop]]) in
  MPMC_Queue.head_ (shared st) = 2 /\ MPMC_Queue.tail_ (shared st) = 1 /\
  map fst (all_prod_entries st) ≡ₚ seqZ 0 (MPMC_Queue.head_ (shared st)) /\
  all_cons_claims st ≡ₚ seqZ 0 (MPMC_Queue.tail_ (shared st)).
Proof.
  intros q st. split; [reflexivity|]. split; [reflexivity|].
  apply (@positions_without_gaps Z MPMC_Type_Z (fun _ => true) 2 q
           [[Push 7]; [Emplace 8]; [Pop]] [0; 0; 0; 0; 0; 2; 2; 2; 1; 1; 1]%nat
           ltac:(discriminate) eq_refl eq_refl).
Defined.

Lemma size_counts_claims_witness :
  let q := MPMC_Queue.mk 10 (replicate 10 Slot.init) 0 0 in
  let st := sys_run [0; 0; 1; 1]%nat (sys_init q [[Pop]; [Pop]; [Push 1; Push 2]]) in
  MPMC_Queue.size (shared st) = -2 /\
  MPMC_Queue.size (shared st)
  = Z.of_nat (length (all_prod_entries st)) - Z.of_nat (length (all_cons_claims st)) /\
  (MPMC_Queue.empty (shared st) = true <->
   (length (all_prod_entries st) <= length (all_cons_claims st))%nat).
Proof.
  intros q st. split; [reflexivity|].
  apply (@size_counts_claims Z MPMC_Type_Z (fun _ => true) 10 q
           [[Pop]; [Pop]; [Push 1; Push 2]] [0; 0; 1; 1]%nat
           ltac:(discriminate) eq_refl eq_refl).
Defined.

Lemma same_pair_fifo_witness :
  let q := MPMC_Queue.mk 2 (replicate 2 Slot.init) 0 0 in
  let st := sys_run (replicate 12 0 ++ replicate 12 1)%nat
              (sys_init q [[Push 1; Push 2]; [Pop; Pop]]) in
  threads st !! 0%nat = Some (mk_thread Idle [] 0 [(0, 1); (1, 2)] []) /\
  threads st !! 1%nat = Some (mk_thread Idle [] 2 [] [(0, 1); (1, 2)]) /\
  fst (0, 1) < fst (1, 2) /\
  exists k1 k2 k3, [(0, 1); (1, 2)] = k1 ++ (0, 1) :: k2 ++ (1, 2) :: k3.
Proof.
  intros q st. split; [reflexivity|]. split; [reflexivity|].
  apply (@same_pair_fifo Z MPMC_Type_Z (fun _ => true) 2 q
           [[Push 1; Push 2]; [Pop; Pop]] (replicate 12 0 ++ replicate 12 1)%nat
           0%nat 1%nat (mk_thread Idle [] 0 [(0, 1); (1, 2)] [])
           (mk_thread Idle [] 2 [] [(0, 1); (1, 2)]) [] [] [] (0, 1) (1, 2)
           ltac:(discriminate) eq_refl eq_refl eq_refl eq_refl eq_refl
           (or_introl eq_refl) (or_intror (or_introl eq_refl))).
Defined.

(** ** The fuzz test *)
Section FuzzTest.
Variables numOps numThreads : Z.
Hypothesis HnumOps : 0 <= numOps <= 2 ^ 32.
Hypothesis HnumThreads : 1 <= numThreads <= 2 ^ 32.

Lemma loop_indices_spec fuel : forall j x,
  0 <= j -> numOps - j <= Z.of_nat fuel ->
  In x (loop_indices fuel j numOps numThreads)
  <-> j <= x < numOps /\ (x - j) mod numThreads = 0.
Proof.
  induction fuel as [|fuel IH]; intros j x Hj Hf; simpl.
  - split; [intros []|]. lia.
  - destruct (j <? numOps) eqn:Hlt.
    + apply Z.ltb_lt in Hlt. rewrite (wrap_small (j + numThreads)) by lia.
      simpl. rewrite IH by lia. split.
      * intros [<-|[Hx Hm]].
        -- split; [lia|]. rewrite Z.sub_diag. apply Z.mod_0_l. lia.
        -- split; [lia|]. replace (x - j) with (x - (j + numThreads) + 1 * numThreads) by lia.
           rewrite Z_mod_plus_full. exact Hm.
      * intros [Hx Hm]. destruct (Z.eq_dec j x) as [E|E]; [left; exact E|right].
        pose proof (Z_div_mod_eq_full (x - j) numThreads) as Hd. rewrite Hm in Hd.
        assert (1 <= (x - j) / numThreads) as Hk by nia.
        split; [nia|].
        replace (x - (j + numThreads)) with (x - j + (-1) * numThreads) by lia.
        rewrite Z_mod_plus_full. exact Hm.
    + apply Z.ltb_ge in Hlt. split; [intros []|]. lia.
Qed.

(** Thread [i] of [numThreads] handles the indices that are [i] modulo
    [numThreads]. *)
Lemma loop_indices_residue i x :
  0 <= i < numThreads ->
  In x (loop_indices (Z.to_nat numOps) i numOps numThreads)
  <-> 0 <= x < numOps /\ x mod numThreads = i.
Proof.
  intros Hi. rewrite loop_indices_spec by lia. split.
  - intros [Hx Hm]. split; [lia|].
    pose proof (Z_div_mod_eq_full (x - i) numThreads) as Hd. rewrite Hm in Hd.
    replace x with (i + (x - i) / numThreads * numThreads) by lia.
    rewrite Z_mod_plus_full. apply Z.mod_small. lia.
  - intros [Hx Hm].
    pose proof (Z_div_mod_eq_full x numThreads) as Hd. rewrite Hm in Hd.
    assert (0 <= x / numThreads) as Hk by (apply Z.div_pos; lia).
    split; [nia|].
    replace (x - i) with (0 + x / numThreads * numThreads) by lia.
    rewrite Z_mod_plus_full. apply Z.mod_0_l. lia.
Qed.

Lemma loop_indices_nodup fuel : forall j,
  0 <= j -> numOps - j <= Z.of_nat fuel ->
  NoDup (loop_indices fuel j numOps numThreads).
Proof.
  induction fuel as [|fuel IH]; intros j Hj Hf; simpl; [apply NoDup_nil_2|].
  destruct (j <? numOps) eqn:Hlt; [|apply NoDup_nil_2].
  apply Z.ltb_lt in Hlt. rewrite (wrap_small (j + numThreads)) by lia.
  apply NoDup_cons. split; [|apply IH; lia].
  intros Hin. apply list_elem_of_In, loop_indices_spec in Hin; lia.
Qed.

(** Together the threads handle every index below [numOps] once. *)
Lemma fuzz_indices :
  concat (map (fun i => loop_indices (Z.to_nat numOps) i numOps numThreads)
            (seqZ 0 numThreads))
  ≡ₚ seqZ 0 numOps.
Proof.
  apply NoDup_Permutation.
  - apply NoDup_concat_map.
    + intros a i Ha. apply lookup_seqZ in Ha as [-> Ha].
      apply loop_indices_nodup; lia.
    + intros a b i i' x Hne Ha Hb Hx Hx'.
      apply lookup_seqZ in Ha as [-> Ha]. apply lookup_seqZ in Hb as [-> Hb].
      apply loop_indices_residue in Hx; [|lia]. apply loop_indices_residue in Hx'; [|lia].
      lia.
  - apply NoDup_seqZ.
  - intros x. rewrite elem_of_seqZ, list_elem_of_In, in_concat_map. split.
    + intros (a & i & Ha & Hx). apply lookup_seqZ in Ha as [-> Ha].
      apply loop_indices_residue in Hx; lia.
    + intros Hx. pose proof (Z.mod_pos_bound x numThreads ltac:(lia)) as Hm.
      exists (Z.to_nat (x mod numThreads)), (x mod numThreads). split.
      * apply lookup_seqZ. lia.
      * apply loop_indices_residue; [lia|]. split; [lia|reflexivity].
Qed.

Lemma zsum_app l k : zsum (l ++ k) = zsum l + zsum k.
Proof. induction l as [|a l IH]; simpl; [reflexivity|]. rewrite IH. lia. Qed.

Lemma zsum_permutation l k : l ≡ₚ k -> zsum l = zsum k.
Proof. induction 1; simpl; lia. Qed.

Lemma zsum_seqZ (n : nat) : 2 * zsum (seqZ 0 (Z.of_nat n)) = Z.of_nat n * (Z.of_nat n - 1).
Proof.
  induction n as [|n IH]; [reflexivity|].
  rewrite seqZ_S, zsum_app. simpl. lia.
Qed.

Lemma fuzz_expected_sum : wrap (zsum (seqZ 0 numOps)) = fuzz_expected numOps.
Proof.
  pose proof (zsum_seqZ (Z.to_nat numOps)) as Hs. rewrite Z2Nat.id in Hs by lia.
  unfold fuzz_expected. destruct (Z.eq_dec numOps 0) as [->|Hne]; [reflexivity|].
  assert (numOps * (numOps - 1) <= 2 ^ 32 * 2 ^ 32) as Hb by nia.
  rewrite (wrap_small (numOps - 1)) by lia.
  rewrite (wrap_small (numOps * (numOps - 1))) by nia.
  rewrite <- Hs, Z.mul_comm, Z.div_mul by lia.
  apply wrap_small. nia.
Qed.

Lemma pushes_map_Push (l : list Z) : pushes (map Push l) = l.
Proof. induction l as [|a l IH]; simpl; [reflexivity|]. f_equal. exact IH. Qed.

Lemma pushes_map_Pop {A} (l : list A) : pushes (map (fun _ => @Pop Z) l) = [].
Proof. induction l as [|a l IH]; simpl; [reflexivity|exact IH]. Qed.

Lemma pops_map_Push (l : list Z) : pops (map Push l) = 0%nat.
Proof. induction l as [|a l IH]; simpl; [reflexivity|exact IH]. Qed.

Lemma pops_map_Pop {A} (l : list A) : pops (map (fun _ => @Pop Z) l) = length l.
Proof.
  unfold pops. induction l as [|a l IH]; simpl; [reflexivity|]. f_equal. exact IH.
Qed.

Lemma blocking_map_Push (l : list Z) : forallb blocking_only (map Push l) = true.
Proof. induction l as [|a l IH]; simpl; [reflexivity|exact IH]. Qed.

Lemma blocking_map_Pop {A} (l : list A) :
  forallb blocking_only (map (fun _ => @Pop Z) l) = true.
Proof. induction l as [|a l IH]; simpl; [reflexivity|exact IH]. Qed.

Lemma fuzz_threads_blocking :
  forallb blocking_only (concat (fuzz_threads numOps numThreads)) = true.
Proof.
  unfold fuzz_threads. rewrite concat_app, forallb_app. apply andb_true_intro. split.
  - induction (seqZ 0 numThreads) as [|i l IH]; simpl; [reflexivity|].
    rewrite forallb_app, IH. unfold fuzz_producer. rewrite blocking_map_Push. reflexivity.
  - induction (seqZ 0 numThreads) as [|i l IH]; simpl; [reflexivity|].
    rewrite forallb_app, IH. unfold fuzz_consumer. rewrite blocking_map_Pop. reflexivity.
Qed.

Lemma fuzz_threads_pushes :
  pushes (concat (fuzz_threads numOps numThreads))
  = concat (map (fun i => loop_indices (Z.to_nat numOps) i numOps numThreads)
              (seqZ 0 numThreads)).
Proof.
  unfold fuzz_threads. rewrite concat_app, pushes_app.
  replace (pushes (concat (map (fuzz_consumer numOps numThreads) (seqZ 0 numThreads))))
    with (@nil Z).
  - rewrite app_nil_r. induction (seqZ 0 numThreads) as [|i l IH]; simpl; [reflexivity|].
    rewrite pushes_app, IH. unfold fuzz_producer. rewrite pushes_map_Push. reflexivity.
  - induction (seqZ 0 numThreads) as [|i l IH]; simpl; [reflexivity|].
    rewrite pushes_app, <- IH. unfold fuzz_consumer. rewrite pushes_map_Pop. reflexivity.
Qed.

Lemma fuzz_threads_pops :
  pops (concat (fuzz_threads numOps numThreads))
  = length (pushes (concat (fuzz_threads numOps numThreads))).
Proof.
  rewrite fuzz_threads_pushes. unfold fuzz_threads. rewrite concat_app, pops_app.
  replace (pops (concat (map (fuzz_producer numOps numThreads) (seqZ 0 numThreads))))
    with 0%nat.
  - simpl. induction (seqZ 0 numThreads) as [|i l IH]; simpl; [reflexivity|].
    rewrite pops_app, length_app, IH. unfold fuzz_consumer. rewrite pops_map_Pop.
    reflexivity.
  - induction (seqZ 0 numThreads) as [|i l IH]; simpl; [reflexivity|].
    rewrite pops_app, <- IH. unfold fuzz_producer. rewrite pops_map_Push. reflexivity.
Qed.

(** The producers consume nothing. *)
Lemma producers_consume_nothing (idx : list Z) (ths : list (@thread Z)) :
  Forall2 follows (map (fuzz_producer numOps numThreads) idx) ths ->
  concat (map t_consumed ths) = [].
Proof.
  revert ths. induction idx as [|i idx IH]; intros ths Hf; simpl in Hf.
  - apply Forall2_nil_inv_l in Hf as ->. reflexivity.
  - apply Forall2_cons_inv_l in Hf as (th & ths' & Hth & Hf & ->). simpl.
    rewrite (IH ths' Hf), app_nil_r.
    pose proof (fo_pops _ _ Hth) as Hp. unfold fuzz_producer in Hp.
    rewrite pops_map_Push in Hp. destruct (t_consumed th); [reflexivity|]. simpl in Hp. lia.
Qed.

Lemma fold_wrap_sum {A} (f : A -> Z) (l : list A) : forall a,
  0 <= a < 2 ^ 64 ->
  fold_left (fun acc x => wrap (acc + f x)) l a = wrap (a + zsum (map f l)).
Proof.
  assert (forall x, 0 <= wrap x < 2 ^ 64) as Hw
    by (intros x; unfold wrap; apply Z.mod_pos_bound; lia).
  induction l as [|x l IH]; intros a Ha; simpl.
  - rewrite Z.add_0_r, wrap_small by lia. reflexivity.
  - rewrite IH by apply Hw. rewrite wrap_add_l. f_equal. lia.
Qed.

Lemma threads_sum (ths : list (@thread Z)) :
  fold_left (fun acc th => wrap (acc + threadSum th)) ths 0
  = wrap (zsum (map snd (concat (map t_consumed ths)))).
Proof.
  rewrite (fold_wrap_sum threadSum) by lia. rewrite Z.add_0_l.
  induction ths as [|th ths IH]; simpl; [reflexivity|].
  rewrite map_app, zsum_app. unfold threadSum at 1.
  rewrite (fold_wrap_sum snd) by lia. rewrite Z.add_0_l, wrap_add_l.
  rewrite <- wrap_add_r, IH, wrap_add_r. reflexivity.
Qed.

(** The assertion of line 105.  With [numThreads] producers and
    [numThreads] consumers as the test starts them, under any schedule
    (sequentially consistent interleaving of the atomic accesses, fewer
    than [2^63] steps) at the end of which every thread has returned from
    its last call, the shared [sum] is [numOps * (numOps - 1) / 2]. *)
Theorem fuzz_test_assertion (allocate : Z -> bool) (q : MPMC_Queue.t Z)
    (sched : list nat) :
  MPMC_Queue.ctor allocate numThreads = inr q ->
  Z.of_nat (length sched) < 2 ^ 63 ->
  let st := sys_run sched (sys_init q (fuzz_threads numOps numThreads)) in
  joined st = true ->
  fuzz_sum numThreads st = fuzz_expected numOps.
Proof.
  intros Hctor Hn st Hj.
  assert (numThreads <= MAX_SIZE_T) as Hmax by (unfold MAX_SIZE_T; lia).
  set (programs := fuzz_threads numOps numThreads) in *.
  pose proof (reachable_inv allocate numThreads q programs sched Hmax Hctor Hn) as Hinv.
  pose proof (consumed_submseteq _ _ _ Hinv) as Hsub. fold st in Hsub.
  rewrite (joined_entries st Hj) in Hsub.
  pose proof (follows_run programs sched _ (follows_init q programs fuzz_threads_blocking))
    as Hfol. fold st in Hfol.
  destruct (follows_joined programs st Hfol Hj) as [Hpu Hpo].
  assert (all_consumed st ≡ₚ all_produced st) as Hperm.
  { apply submseteq_length_Permutation; [exact Hsub|].
    rewrite <- Hpo. unfold programs. rewrite fuzz_threads_pops. fold programs.
    rewrite Hpu, length_map. lia. }
  assert (zsum (map snd (all_consumed st)) = zsum (seqZ 0 numOps)) as Hsum.
  { apply zsum_permutation. rewrite <- fuzz_indices.
    rewrite <- fuzz_threads_pushes. fold programs. rewrite Hpu.
    apply Permutation_map. exact Hperm. }
  unfold programs, fuzz_threads in Hfol.
  apply Forall2_app_inv_l in Hfol as (ths1 & ths2 & Hf1 & Hf2 & Hths).
  assert (length ths1 = Z.to_nat numThreads) as Hlen.
  { rewrite <- (Forall2_length _ _ _ Hf1), length_map, length_seqZ. reflexivity. }
  assert (all_consumed st = concat (map t_consumed ths2)) as Hcons.
  { unfold all_consumed. rewrite Hths, map_app, concat_app.
    rewrite (producers_consume_nothing _ _ Hf1). reflexivity. }
  unfold fuzz_sum. rewrite Hths, <- Hlen, drop_app_length, threads_sum, <- Hcons, Hsum.
  apply fuzz_expected_sum.
Qed.

End FuzzTest.

Lemma fuzz_test_assertion_witness :
  let q := MPMC_Queue.mk 2 (replicate 2 Slot.init) 0 0 in
  let sched := (replicate 12 0 ++ replicate 3 1 ++ replicate 12 2 ++ replicate 4 1
                ++ replicate 6 3)%nat in
  let st := sys_run sched (sys_init q (fuzz_threads 3 2)) in
  fuzz_threads 3 2 = [[Push 0; Push 2]; [Push 1]; [Pop; Pop]; [Pop]] /\
  joined st = true /\ fuzz_sum 2 st = 3.
Proof.
  intros q sched st. split; [reflexivity|]. split; [reflexivity|].
  apply (fuzz_test_assertion 3 2 ltac:(lia) ltac:(lia) (fun _ => true) q sched
           eq_refl eq_refl eq_refl).
Defined.
